(** * gr_file_meta_sink: a segment-writing file sink with metadata headers

    A shallow embedding of [gnuradio-core/src/lib/io/gr_file_meta_sink.cc]
    and the properties of its header bookkeeping.

    The object's fields become a record, the member functions become
    functions in a state-and-exception monad over that record, [FILE*]
    streams become byte lists with a cursor, [size_t]/[uint64_t] values are
    [Z] with the wrap-around written out, and [double] is the kernel's
    binary64 type. *)

From Stdlib Require Import ZArith Lia List Floats.
From Stdlib.Strings Require Import Byte.
From stdpp Require Import base option list gmap strings.

Set Warnings "-register-all".
Local Open Scope Z_scope.

(** ** Machine integers *)

(** [size_t] and [uint64_t] arithmetic is modulo 2^64. *)
Definition wrap64 (z : Z) : Z := z mod 2 ^ 64.

(** Conversion of a 64-bit unsigned value to [long] (LP64, two's complement),
    as happens to the offsets handed to [fseek]. *)
Definition to_long (z : Z) : Z :=
  let w := wrap64 z in if w <? 2 ^ 63 then w else w - 2 ^ 64.

(** Conversion to [int] (32-bit, two's complement). *)
Definition to_int (z : Z) : Z :=
  let w := z mod 2 ^ 32 in if w <? 2 ^ 31 then w else w - 2 ^ 32.

(** ** Doubles *)

(** [static_cast<uint64_t>(double)]: truncation toward zero.  The C++
    conversion is undefined when the truncated value does not fit; here the
    truncated value is reduced modulo 2^64 and non-finite values give 0. *)
Definition double_to_uint64 (x : float) : Z :=
  match Prim2SF x with
  | S754_finite false m e => wrap64 (Z.shiftl (Z.pos m) e)
  | S754_finite true m e => wrap64 (- Z.shiftl (Z.pos m) e)
  | _ => 0
  end.

(** Conversion of an integer to [double], rounding to nearest. *)
Definition uint64_to_double (n : Z) : float :=
  SF2Prim (binary_normalize prec emax n 0 false).

(** ** PMT values

    The polymorphic values carried by headers and stream tags.  Only the
    kinds that the sink builds or inspects are represented. *)
Inductive pmt_t : Type :=
| PMT_NIL
| PMT_T
| PMT_F
| pmt_symbol (s : string)
| pmt_long (z : Z)
| pmt_uint64 (z : Z)
| pmt_double (d : float)
| pmt_tuple (elts : list pmt_t).

Definition pmt_from_bool (b : bool) : pmt_t := if b then PMT_T else PMT_F.

(** Dictionaries keyed by interned symbols. *)
Abbreviation pmt_dict := (gmap string pmt_t).

Definition pmt_make_dict : pmt_dict := ∅.
Definition pmt_dict_add (d : pmt_dict) (k : string) (v : pmt_t) : pmt_dict :=
  <[k := v]> d.
Definition pmt_dict_has_key (d : pmt_dict) (k : string) : bool :=
  bool_decide (is_Some (d !! k)).
Definition pmt_dict_ref (d : pmt_dict) (k : string) (not_found : pmt_t) : pmt_t :=
  default not_found (d !! k).

(** Modelled from the spec: the PMT accessors live in gruel's pmt library,
    which is not part of the sources at hand.  The header schema gives each
    field a kind (integer, double, pair); an accessor applied to a value of
    another kind raises [pmt_wrong_type], rendered here as [None].
    [pmt_to_uint64] also accepts a non-negative [long], and [pmt_to_double]
    an integer. *)
Definition pmt_to_uint64 (x : pmt_t) : option Z :=
  match x with
  | pmt_uint64 z => Some z
  | pmt_long z => if 0 <=? z then Some z else None
  | _ => None
  end.

Definition pmt_to_double (x : pmt_t) : option float :=
  match x with
  | pmt_double d => Some d
  | pmt_long z => Some (uint64_to_double z)
  | _ => None
  end.

Definition pmt_tuple_ref (x : pmt_t) (k : nat) : option pmt_t :=
  match x with
  | pmt_tuple elts => elts !! k
  | _ => None
  end.

(** ** Streams

    A [FILE] opened for writing: the bytes of the file and the cursor. *)
Record FILE : Type := mk_FILE { f_data : list byte; f_pos : Z }.

(** A file freshly created with [O_TRUNC]. *)
Definition fresh_FILE : FILE := mk_FILE [] 0.

(** [fwrite] of a byte string at the cursor: overwrites what is there,
    extends the file when it runs past the end, and pads with zero bytes when
    the cursor was beyond the end.  Writing nothing changes nothing. *)
Definition file_put (f : FILE) (bs : list byte) : FILE :=
  match bs with
  | [] => f
  | _ =>
    let p := Z.to_nat (f_pos f) in
    let old := f_data f in
    mk_FILE (take p old ++ replicate (p - length old)%nat x00 ++ bs
               ++ drop (p + length bs)%nat old)
            (f_pos f + Z.of_nat (length bs))
  end.

(** [fseek(fp, off, SEEK_CUR)].  A seek to a negative position fails and
    leaves the cursor alone; the sink never looks at the result. *)
Definition file_seek_cur (f : FILE) (off : Z) : FILE :=
  if f_pos f + off <? 0 then f else mk_FILE (f_data f) (f_pos f + off).

(** ** Stream tags *)
Record gr_tag_t : Type := mk_tag { offset : Z; key : string; value : pmt_t }.

(** Modelled from the spec: [get_tags_in_range] belongs to [gr_block]; it
    hands over the annotations whose absolute offset lies in
    [[start, end)], in the order they are stored. *)
Definition get_tags_in_range (tags : list gr_tag_t) (abs_start abs_end : Z)
  : list gr_tag_t :=
  filter (λ t, abs_start ≤ offset t ∧ offset t < abs_end) tags.

(** ** The sink object *)

Inductive layout_mode : Type := STATE_INLINE | STATE_DETACHED.

(** The two streams a header or payload write can go to. *)
Inductive stream : Type := the_fp | the_hdr_fp.

(** What the object has done to its header so far.  This is a history
    variable for stating properties of whole runs: [write_header] notes each
    record it puts out and [update_rx_time] each advance of the timestamp
    (with the item count of the segment it was computed from).  No function
    of the sink reads it. *)
Inductive event : Type :=
| ev_write_header (w : stream) (header extra : pmt_dict)
| ev_update_rx_time (seg_items : Z).

Record sink : Type := mk_sink {
  d_itemsize : Z;
  d_samp_rate : float;
  d_relative_rate : float;
  d_max_seg_size : Z;
  d_total_seg_size : Z;
  d_header : pmt_dict;
  d_extra : pmt_dict;
  d_extra_size : Z;
  d_updated : bool;
  d_unbuffered : bool;
  d_fp : option FILE;
  d_new_fp : option FILE;
  d_hdr_fp : option FILE;
  d_new_hdr_fp : option FILE;
  d_state : layout_mode;
  history : list event
}.

Definition set_samp_rate (r : float) (s : sink) : sink :=
  mk_sink (d_itemsize s) r (d_relative_rate s) (d_max_seg_size s)
          (d_total_seg_size s) (d_header s) (d_extra s) (d_extra_size s)
          (d_updated s) (d_unbuffered s) (d_fp s) (d_new_fp s) (d_hdr_fp s)
          (d_new_hdr_fp s) (d_state s) (history s).

Definition set_total_seg_size (n : Z) (s : sink) : sink :=
  mk_sink (d_itemsize s) (d_samp_rate s) (d_relative_rate s) (d_max_seg_size s)
          n (d_header s) (d_extra s) (d_extra_size s)
          (d_updated s) (d_unbuffered s) (d_fp s) (d_new_fp s) (d_hdr_fp s)
          (d_new_hdr_fp s) (d_state s) (history s).

Definition set_header (h : pmt_dict) (s : sink) : sink :=
  mk_sink (d_itemsize s) (d_samp_rate s) (d_relative_rate s) (d_max_seg_size s)
          (d_total_seg_size s) h (d_extra s) (d_extra_size s)
          (d_updated s) (d_unbuffered s) (d_fp s) (d_new_fp s) (d_hdr_fp s)
          (d_new_hdr_fp s) (d_state s) (history s).

Definition set_extra (e : pmt_dict) (n : Z) (s : sink) : sink :=
  mk_sink (d_itemsize s) (d_samp_rate s) (d_relative_rate s) (d_max_seg_size s)
          (d_total_seg_size s) (d_header s) e n
          (d_updated s) (d_unbuffered s) (d_fp s) (d_new_fp s) (d_hdr_fp s)
          (d_new_hdr_fp s) (d_state s) (history s).

Definition set_updated (b : bool) (s : sink) : sink :=
  mk_sink (d_itemsize s) (d_samp_rate s) (d_relative_rate s) (d_max_seg_size s)
          (d_total_seg_size s) (d_header s) (d_extra s) (d_extra_size s)
          b (d_unbuffered s) (d_fp s) (d_new_fp s) (d_hdr_fp s)
          (d_new_hdr_fp s) (d_state s) (history s).

Definition set_fp (f : option FILE) (s : sink) : sink :=
  mk_sink (d_itemsize s) (d_samp_rate s) (d_relative_rate s) (d_max_seg_size s)
          (d_total_seg_size s) (d_header s) (d_extra s) (d_extra_size s)
          (d_updated s) (d_unbuffered s) f (d_new_fp s) (d_hdr_fp s)
          (d_new_hdr_fp s) (d_state s) (history s).

Definition set_new_fp (f : option FILE) (s : sink) : sink :=
  mk_sink (d_itemsize s) (d_samp_rate s) (d_relative_rate s) (d_max_seg_size s)
          (d_total_seg_size s) (d_header s) (d_extra s) (d_extra_size s)
          (d_updated s) (d_unbuffered s) (d_fp s) f (d_hdr_fp s)
          (d_new_hdr_fp s) (d_state s) (history s).

Definition set_hdr_fp (f : option FILE) (s : sink) : sink :=
  mk_sink (d_itemsize s) (d_samp_rate s) (d_relative_rate s) (d_max_seg_size s)
          (d_total_seg_size s) (d_header s) (d_extra s) (d_extra_size s)
          (d_updated s) (d_unbuffered s) (d_fp s) (d_new_fp s) f
          (d_new_hdr_fp s) (d_state s) (history s).

Definition set_new_hdr_fp (f : option FILE) (s : sink) : sink :=
  mk_sink (d_itemsize s) (d_samp_rate s) (d_relative_rate s) (d_max_seg_size s)
          (d_total_seg_size s) (d_header s) (d_extra s) (d_extra_size s)
          (d_updated s) (d_unbuffered s) (d_fp s) (d_new_fp s) (d_hdr_fp s)
          f (d_state s) (history s).

Definition note (ev : event) (s : sink) : sink :=
  mk_sink (d_itemsize s) (d_samp_rate s) (d_relative_rate s) (d_max_seg_size s)
          (d_total_seg_size s) (d_header s) (d_extra s) (d_extra_size s)
          (d_updated s) (d_unbuffered s) (d_fp s) (d_new_fp s) (d_hdr_fp s)
          (d_new_hdr_fp s) (d_state s) (history s ++ [ev]).

Definition get_stream (w : stream) (s : sink) : option FILE :=
  match w with the_fp => d_fp s | the_hdr_fp => d_hdr_fp s end.

Definition set_stream (w : stream) (f : option FILE) (s : sink) : sink :=
  match w with the_fp => set_fp f s | the_hdr_fp => set_hdr_fp f s end.

(** ** Exceptions and the monad of member functions *)

Inductive exn : Type :=
| runtime_error (what : string)
| pmt_wrong_type (fn : string)
| null_stream
| out_of_fuel.

(** A member function either returns a value in a new object state or throws,
    leaving the object in the state reached at the throw. *)
Inductive res (A : Type) : Type :=
| Ok (a : A) (s : sink)
| Throw (e : exn) (s : sink).
Arguments Ok {A} a s.
Arguments Throw {A} e s.

Definition M (A : Type) : Type := sink → res A.

Definition ret {A} (a : A) : M A := λ s, Ok a s.
Definition throw {A} (e : exn) : M A := λ s, Throw e s.
Definition bind {A B} (m : M A) (k : A → M B) : M B :=
  λ s, match m s with
       | Ok a s' => k a s'
       | Throw e s' => Throw e s'
       end.
Definition get_sink : M sink := λ s, Ok s s.
Definition modify (f : sink → sink) : M unit := λ s, Ok tt (f s).

Declare Scope sink_scope.
Delimit Scope sink_scope with sink.
Notation "'let*' x ':=' m 'in' k" := (bind m (λ x, k))
  (at level 10, x name, m at level 100, k at level 200) : sink_scope.
Notation "m '>>' k" := (bind m (λ _, k))
  (at level 100, k at level 200, right associativity) : sink_scope.
Local Open Scope sink_scope.

(** Result of the state reached, whatever the outcome. *)
Definition final_state {A} (r : res A) : sink :=
  match r with Ok _ s => s | Throw _ s => s end.

(** Lift a PMT accessor: [None] is the accessor's exception. *)
Definition pmt_get {A} (fn : string) (o : option A) : M A :=
  match o with Some a => ret a | None => throw (pmt_wrong_type fn) end.

(** Run an action on one of the streams; a null [FILE*] is a crash. *)
Definition on_stream (w : stream) (f : FILE → FILE) : M unit :=
  λ s, match get_stream w s with
       | Some fl => Ok tt (set_stream w (Some (f fl)) s)
       | None => Throw null_stream s
       end.

(** ** The header codec

    The constants of [gr_file_meta_sink.h] and the PMT (de)serializer are
    not part of the sources at hand; the sink is written against this
    interface. *)
Class Codec : Type := {
  METADATA_VERSION : Z;
  METADATA_HEADER_SIZE : Z;
  pmt_serialize_str : pmt_dict → list byte;
  pmt_deserialize_str : list byte → pmt_dict
}.

(** What the operating system answers to an attempt to create a file:
    [::open] fails, [::open] succeeds but [fdopen] fails, or both succeed. *)
Inductive open_outcome : Type := open_fails | fdopen_fails | opens.

Section Sink.
Context `{codec : Codec}.

(** Length of a serialized string, as [std::string::size]. *)
Definition str_size (bs : list byte) : Z := Z.of_nat (length bs).

(** *** [_open]: create one pending stream.  When a pending stream is already
    there, the function closes it and clears its local [fp], which it then
    dereferences. *)
Definition _open (pending : sink → option FILE)
    (set_pending : option FILE → sink → sink) (o : open_outcome) : M bool :=
  match o with
  | open_fails => ret false
  | fdopen_fails | opens =>
    let* s := get_sink in
    match pending s with
    | Some _ => throw null_stream
    | None =>
      modify (set_pending (match o with opens => Some fresh_FILE | _ => None end)) >>
      ret true
    end
  end.

(** *** [open] *)
Definition open (os : string → open_outcome) (filename : string) : M bool :=
  let* s := get_sink in
  let* r :=
    match d_state s with
    | STATE_DETACHED => _open d_new_hdr_fp set_new_hdr_fp (os (filename +:+ ".hdr"))
    | STATE_INLINE => ret true
    end in
  let* r := if r : bool then _open d_new_fp set_new_fp (os filename) else ret false in
  modify (set_updated true) >>
  ret r.

(** *** [do_update]: install the pending streams. *)
Definition do_update : M unit :=
  let* s := get_sink in
  if d_updated s then
    (match d_state s with
     | STATE_DETACHED =>
       modify (λ s, set_new_hdr_fp None (set_hdr_fp (d_new_hdr_fp s) s))
     | STATE_INLINE => ret tt
     end) >>
    modify (λ s, set_new_fp None (set_fp (d_new_fp s) s)) >>
    modify (set_updated false)
  else ret tt.

(** *** [write_header].  Each of the two [fwrite] loops leaves normally only
    once the whole string is out, so a normal return means both strings were
    written in full at the cursor. *)
Definition write_header (w : stream) (header extra : pmt_dict) : M unit :=
  let header_str := pmt_serialize_str header in
  let extra_str := pmt_serialize_str extra in
  let* s := get_sink in
  if negb (str_size header_str =? METADATA_HEADER_SIZE)
     && negb (str_size extra_str =? d_extra_size s)
  then throw (runtime_error "file_meta_sink: header or extras is wrong size.")
  else
    on_stream w (λ f, file_put f header_str) >>
    on_stream w (λ f, file_put f extra_str) >>
    modify (note (ev_write_header w header extra)).

(** *** [update_header] *)
Definition update_header (key : string) (value : pmt_t) : M unit :=
  let* value :=
    if bool_decide (key = "rx_rate") then
      let* r := pmt_get "pmt_to_double" (pmt_to_double value) in
      modify (set_samp_rate r) >>
      let* s := get_sink in
      ret (pmt_double (PrimFloat.mul (d_samp_rate s) (d_relative_rate s)))
    else ret value in
  let* s := get_sink in
  if pmt_dict_has_key (d_header s) key then
    modify (set_header (pmt_dict_add (d_header s) key value))
  else
    let e := pmt_dict_add (d_extra s) key value in
    modify (set_extra e (str_size (pmt_serialize_str e))).

(** *** [update_last_header_inline] *)
Definition update_last_header_inline : M unit :=
  let* s := get_sink in
  let* hdrlen := pmt_get "pmt_to_uint64"
                   (pmt_to_uint64 (pmt_dict_ref (d_header s) "strt" PMT_NIL)) in
  let seg_size := wrap64 (d_itemsize s * d_total_seg_size s) in
  update_header "bytes" (pmt_uint64 seg_size) >>
  let* s := get_sink in
  update_header "strt" (pmt_uint64 (wrap64 (METADATA_HEADER_SIZE + d_extra_size s))) >>
  on_stream the_fp (λ f, file_seek_cur f (to_long (- seg_size - hdrlen))) >>
  let* s := get_sink in
  write_header the_fp (d_header s) (d_extra s) >>
  on_stream the_fp (λ f, file_seek_cur f (to_long seg_size)).

(** *** [update_last_header_detached] *)
Definition update_last_header_detached : M unit :=
  let* s := get_sink in
  let* hdrlen := pmt_get "pmt_to_uint64"
                   (pmt_to_uint64 (pmt_dict_ref (d_header s) "strt" PMT_NIL)) in
  let seg_size := wrap64 (d_itemsize s * d_total_seg_size s) in
  update_header "bytes" (pmt_uint64 seg_size) >>
  let* s := get_sink in
  update_header "strt" (pmt_uint64 (wrap64 (METADATA_HEADER_SIZE + d_extra_size s))) >>
  on_stream the_hdr_fp (λ f, file_seek_cur f (to_long (- hdrlen))) >>
  let* s := get_sink in
  write_header the_hdr_fp (d_header s) (d_extra s).

(** *** [update_last_header] *)
Definition update_last_header : M unit :=
  let* s := get_sink in
  match d_state s with
  | STATE_DETACHED => update_last_header_detached
  | STATE_INLINE => update_last_header_inline
  end.

(** *** [write_and_update] *)
Definition write_and_update : M unit :=
  update_header "bytes" (pmt_uint64 0) >>
  let* s := get_sink in
  update_header "strt" (pmt_uint64 (wrap64 (METADATA_HEADER_SIZE + d_extra_size s))) >>
  let* s := get_sink in
  match d_state s with
  | STATE_DETACHED => write_header the_hdr_fp (d_header s) (d_extra s)
  | STATE_INLINE => write_header the_fp (d_header s) (d_extra s)
  end.

(** *** [update_rx_time] *)
Definition update_rx_time : M unit :=
  let* s := get_sink in
  let r := pmt_dict_ref (d_header s) "rx_time" PMT_NIL in
  let* r0 := pmt_get "pmt_tuple_ref" (pmt_tuple_ref r 0) in
  let* secs := pmt_get "pmt_to_uint64" (pmt_to_uint64 r0) in
  let* r1 := pmt_get "pmt_tuple_ref" (pmt_tuple_ref r 1) in
  let* fracs := pmt_get "pmt_to_double" (pmt_to_double r1) in
  let diff := PrimFloat.div (uint64_to_double (d_total_seg_size s))
                (PrimFloat.mul (d_samp_rate s) (d_relative_rate s)) in
  let fracs := PrimFloat.add fracs diff in
  let new_secs := double_to_uint64 fracs in
  let secs := wrap64 (secs + new_secs) in
  let fracs := PrimFloat.sub fracs (uint64_to_double new_secs) in
  let r := pmt_tuple [pmt_uint64 secs; pmt_double fracs] in
  modify (set_header (pmt_dict_add (d_header s) "rx_time" r)) >>
  modify (note (ev_update_rx_time (d_total_seg_size s))).

(** *** [close] *)
Definition close : M unit :=
  update_last_header >>
  let* s := get_sink in
  (match d_state s with
   | STATE_DETACHED => modify (set_new_hdr_fp None)
   | STATE_INLINE => ret tt
   end) >>
  modify (set_new_fp None) >>
  modify (set_updated true).

(** *** The constructor.  [os] stands for the file system's answers.

    The extension dictionary is rebuilt entry by entry from the deserialized
    [extra_dict], and the header gets its eight standard fields. *)
Definition initial_extra (extra_dict : list byte) : pmt_dict :=
  if 0 <? str_size extra_dict then
    foldl (λ d kv, pmt_dict_add d kv.1 kv.2) pmt_make_dict
          (map_to_list (pmt_deserialize_str extra_dict))
  else pmt_make_dict.

Definition initial_header (samp_rate : float) (itemsize type : Z)
    (complex : bool) (extra_size : Z) : pmt_dict :=
  let timestamp := pmt_tuple [pmt_uint64 0; pmt_double 0%float] in
  let h := pmt_make_dict in
  let h := pmt_dict_add h "version" (pmt_long METADATA_VERSION) in
  let h := pmt_dict_add h "rx_rate" (pmt_double samp_rate) in
  let h := pmt_dict_add h "rx_time" timestamp in
  let h := pmt_dict_add h "size" (pmt_long (to_long itemsize)) in
  let h := pmt_dict_add h "type" (pmt_long type) in
  let h := pmt_dict_add h "cplx" (pmt_from_bool complex) in
  let h := pmt_dict_add h "strt"
             (pmt_uint64 (wrap64 (METADATA_HEADER_SIZE + extra_size))) in
  pmt_dict_add h "bytes" (pmt_uint64 0).

Definition gr_file_meta_sink (os : string → open_outcome)
    (itemsize : Z) (filename : string) (samp_rate relative_rate : float)
    (type : Z) (complex : bool) (max_segment_size : Z)
    (extra_dict : list byte) (detached_header : bool) : res unit :=
  let s0 := mk_sink (wrap64 itemsize) samp_rate relative_rate
                    (wrap64 max_segment_size) 0 pmt_make_dict pmt_make_dict 0
                    false false None None None None
                    (if detached_header then STATE_DETACHED else STATE_INLINE)
                    [] in
  (let* ok := open os filename in
   if negb ok then throw (runtime_error "file_meta_sink: can't open file")
   else
     let extra := initial_extra extra_dict in
     modify (set_extra extra (str_size (pmt_serialize_str extra))) >>
     let* s := get_sink in
     modify (set_header (initial_header samp_rate (d_itemsize s) type complex
                                        (d_extra_size s))) >>
     do_update >>
     let* s := get_sink in
     match d_state s with
     | STATE_DETACHED => write_header the_hdr_fp (d_header s) (d_extra s)
     | STATE_INLINE => write_header the_fp (d_header s) (d_extra s)
     end) s0.

(** *** [work]

    The locals of one call: the items consumed so far, the rest of the input
    buffer, and what the operating system will answer to the payload
    [fwrite]s still to come (each entry is the number of items it accepts on
    one call; once the list is used up every [fwrite] goes through). *)
Record locals : Type := mk_locals {
  nwritten : Z;
  inbuf : list byte;
  os_accepts : list Z
}.

(** [fwrite(inbuf, d_itemsize, towrite, d_fp)] and its item count. *)
Definition fwrite_count (towrite : Z) (l : locals) : Z :=
  match os_accepts l with
  | [] => towrite
  | c :: _ => Z.max 0 (Z.min c towrite)
  end.

(** A size-triggered segment change: the four statements guarded by
    [d_total_seg_size == d_max_seg_size] in both payload loops. *)
Definition start_next_segment : M unit :=
  update_last_header >>
  update_rx_time >>
  write_and_update >>
  modify (set_total_seg_size 0).

(** The two payload loops of [work].  They share their body; the loop in
    front of a tag ([before_tag = true], running up to the tag's position)
    starts a new segment only when [nwritten < item_offset] still holds, the
    loop after the tags ([before_tag = false], up to [noutput_items]) starts
    one whenever the segment is full.  [count] never exceeds
    [limit - nwritten], so its conversion to [int] is the identity.  Each
    round that does not [break] consumes at least one item, which bounds the
    rounds by [limit - nwritten]. *)
Fixpoint payload_loop (fuel : nat) (before_tag : bool) (limit : Z) (l : locals)
  : M locals :=
  if nwritten l <? limit then
    match fuel with
    | O => throw out_of_fuel
    | S fuel' =>
      let* s := get_sink in
      let towrite := Z.min (wrap64 (d_max_seg_size s - d_total_seg_size s))
                           (wrap64 (limit - nwritten l)) in
      let count := fwrite_count towrite l in
      on_stream the_fp
        (λ f, file_put f (take (Z.to_nat (count * d_itemsize s)) (inbuf l))) >>
      if count =? 0 then
        ret (mk_locals (nwritten l) (inbuf l) (tail (os_accepts l)))
      else
        let l' := mk_locals (nwritten l + count)
                            (drop (Z.to_nat (count * d_itemsize s)) (inbuf l))
                            (tail (os_accepts l)) in
        modify (set_total_seg_size (wrap64 (d_total_seg_size s + count))) >>
        let* s := get_sink in
        (if (d_total_seg_size s =? d_max_seg_size s)
            && (negb before_tag || (nwritten l' <? limit))
         then start_next_segment else ret tt) >>
        payload_loop fuel' before_tag limit l'
    end
  else ret l.

Definition write_payload (before_tag : bool) (limit : Z) (l : locals) : M locals :=
  payload_loop (Z.to_nat (limit - nwritten l)) before_tag limit l.

(** What [work] does with one tag once the payload in front of it is out. *)
Definition apply_tag (t : gr_tag_t) : M unit :=
  let* s := get_sink in
  if 0 <? d_total_seg_size s then
    update_last_header >>
    update_header (key t) (value t) >>
    write_and_update >>
    modify (set_total_seg_size 0)
  else
    update_header (key t) (value t) >>
    update_last_header.

(** The body of the loop over the tags. *)
Definition tag_round (abs_N : Z) (l : locals) (t : gr_tag_t) : M locals :=
  let item_offset := to_int (wrap64 (offset t - abs_N)) in
  let* l := write_payload true item_offset l in
  apply_tag t >>
  ret l.

Fixpoint tag_loop (abs_N : Z) (l : locals) (ts : list gr_tag_t) : M locals :=
  match ts with
  | [] => ret l
  | t :: ts => let* l := tag_round abs_N l t in tag_loop abs_N l ts
  end.

(** [work]: [nitems_read] and [tags] are what the scheduler holds for input 0,
    [os_accepts] what the file system will do. *)
Definition work (noutput_items : Z) (input_items : list byte)
    (nitems_read : Z) (tags : list gr_tag_t) (os_accepts : list Z) : M Z :=
  do_update >>
  let* s := get_sink in
  match d_fp s with
  | None => ret noutput_items
  | Some _ =>
    let abs_N := nitems_read in
    let end_N := wrap64 (abs_N + noutput_items) in
    let all_tags := get_tags_in_range tags abs_N end_N in
    let* l := tag_loop abs_N (mk_locals 0 input_items os_accepts) all_tags in
    let* l := write_payload false noutput_items l in
    ret (nwritten l)
  end.

(** *** The destructor [~gr_file_meta_sink] *)
Definition gr_file_meta_sink_dtor : M unit :=
  close >>
  modify (set_fp None) >>
  let* s := get_sink in
  match d_state s with
  | STATE_DETACHED => modify (set_hdr_fp None)
  | STATE_INLINE => ret tt
  end.

End Sink.

(** ** An executable codec

    Modelled from the spec: gruel's PMT serializer is not part of the sources
    at hand.  The header is a fixed-width record and the extension a
    variable-width one.  Here a dictionary is written entry by entry, each
    entry as its key followed by its value, and closed by a nil byte; a value
    is a tag byte followed by a body whose width is fixed by its kind
    (integers and doubles eight bytes, booleans and nil none, symbols two
    length bytes and their characters, tuples a count byte and their
    elements). *)
Module ExampleCodec.

Definition byte_of_Z (z : Z) : byte :=
  default x00 (Byte.of_N (Z.to_N (z mod 256))).

(** [n] bytes of [z], most significant first. *)
Fixpoint be_bytes (n : nat) (z : Z) : list byte :=
  match n with
  | O => []
  | S n' => be_bytes n' (z / 256) ++ [byte_of_Z z]
  end.

(** The binary64 bit pattern of a double. *)
Definition double_bits (d : float) : Z :=
  match Prim2SF d with
  | S754_zero s => if s then 2 ^ 63 else 0
  | S754_infinity s => (if s then 2 ^ 63 else 0) + 2047 * 2 ^ 52
  | S754_nan => 2047 * 2 ^ 52 + 2 ^ 51
  | S754_finite s m e =>
    (if s then 2 ^ 63 else 0) +
    (if Z.pos m <? 2 ^ 52 then Z.pos m
     else (e + 1075) * 2 ^ 52 + (Z.pos m - 2 ^ 52))
  end.

Definition symbol_bytes (s : string) : list byte :=
  x02 :: be_bytes 2 (Z.of_nat (String.length s)) ++ String.list_byte_of_string s.

Fixpoint pmt_bytes (x : pmt_t) : list byte :=
  match x with
  | PMT_T => [x00]
  | PMT_F => [x01]
  | PMT_NIL => [x06]
  | pmt_symbol s => symbol_bytes s
  | pmt_long z => x03 :: be_bytes 8 z
  | pmt_uint64 z => x0b :: be_bytes 8 z
  | pmt_double d => x04 :: be_bytes 8 (double_bits d)
  | pmt_tuple elts =>
    x0c :: byte_of_Z (Z.of_nat (length elts)) ::
      (fix go (l : list pmt_t) : list byte :=
         match l with
         | [] => []
         | e :: l' => pmt_bytes e ++ go l'
         end) elts
  end.

Definition entry_bytes (kv : string * pmt_t) : list byte :=
  symbol_bytes kv.1 ++ pmt_bytes kv.2.

Definition serialize (d : pmt_dict) : list byte :=
  concat (entry_bytes <$> map_to_list d) ++ [x06].

(** With this serializer the eight-field header takes 142 bytes.  The
    deserializer is only run on the constructor's [extra_dict]; the example
    knows the empty dictionary and one with a single ["note"] entry. *)
Definition deserialize (bs : list byte) : pmt_dict :=
  match bs with
  | [] => ∅
  | b :: _ => {[ "note" := pmt_symbol (String.string_of_list_byte bs) ]}
  end.

#[export] Instance codec : Codec := {|
  METADATA_VERSION := 0;
  METADATA_HEADER_SIZE := 142;
  pmt_serialize_str := serialize;
  pmt_deserialize_str := deserialize
|}.

End ExampleCodec.


(** The arithmetic and stream primitives stay folded under simplification. *)
Arguments wrap64 : simpl never.
Arguments to_long : simpl never.
Arguments to_int : simpl never.
Arguments file_put : simpl never.
Arguments file_seek_cur : simpl never.
Arguments fresh_FILE : simpl never.
Arguments double_to_uint64 : simpl never.
Arguments uint64_to_double : simpl never.
Arguments initial_header : simpl never.
Arguments initial_extra : simpl never.

(** ** Ranges of doubles

    A double that [static_cast<uint64_t>] can take: not negative and below
    2^64.  A double in the unit interval [[0, 1)]. *)
Definition fits_uint64 (x : float) : Prop :=
  PrimFloat.leb 0 x = true ∧ PrimFloat.ltb x 0x1p+64 = true.

Definition in_unit (x : float) : Prop :=
  PrimFloat.leb 0 x = true ∧ PrimFloat.ltb x 1 = true.

(** ** Vocabulary of the properties *)

Section Vocabulary.
Context `{codec : Codec}.

(** The stream that receives the header records. *)
Definition header_stream (s : sink) : stream :=
  match d_state s with
  | STATE_INLINE => the_fp
  | STATE_DETACHED => the_hdr_fp
  end.

(** The streams the object holds, active or pending. *)
Definition open_streams (s : sink) : list FILE :=
  omap id [d_fp s; d_new_fp s; d_hdr_fp s; d_new_hdr_fp s].

(** A header record as it goes to disk. *)
Definition record_bytes (header extra : pmt_dict) : list byte :=
  pmt_serialize_str header ++ pmt_serialize_str extra.

(** The [bytes] and [strt] fields of a header. *)
Definition bytes_field (h : pmt_dict) : option Z :=
  match h !! "bytes" with Some (pmt_uint64 b) => Some b | _ => None end.
Definition strt_field (h : pmt_dict) : option Z :=
  match h !! "strt" with Some (pmt_uint64 b) => Some b | _ => None end.

(** The test in [write_header] that makes it throw. *)
Definition size_refused (header extra : pmt_dict) (s : sink) : bool :=
  negb (str_size (pmt_serialize_str header) =? METADATA_HEADER_SIZE)
  && negb (str_size (pmt_serialize_str extra) =? d_extra_size s).

(** The stream that an attempt to create a file leaves behind. *)
Definition opened (o : open_outcome) : option FILE :=
  match o with opens => Some fresh_FILE | _ => None end.

(** The objects that the public member functions can produce: a successful
    construction, followed by calls of [work], [close] and [open].  A call
    that throws leaves the object in the state reached at the throw. *)
Inductive reachable : sink → Prop :=
| reach_new os itemsize filename samp_rate relative_rate type complex
            max_segment_size extra_dict detached_header s :
    gr_file_meta_sink os itemsize filename samp_rate relative_rate type
                      complex max_segment_size extra_dict detached_header
      = Ok tt s →
    reachable s
| reach_work s noutput_items input_items nitems_read tags os_accepts :
    reachable s →
    reachable (final_state
                 (work noutput_items input_items nitems_read tags os_accepts s))
| reach_close s :
    reachable s → reachable (final_state (close s))
| reach_open s os filename :
    reachable s → reachable (final_state (open os filename s)).

(** What [update_header] stores, once the rate rule has been applied. *)
Definition store (key : string) (v : pmt_t) (s : sink) : sink :=
  if pmt_dict_has_key (d_header s) key
  then set_header (pmt_dict_add (d_header s) key v) s
  else set_extra (pmt_dict_add (d_extra s) key v)
         (str_size (pmt_serialize_str (pmt_dict_add (d_extra s) key v))) s.

(** *** The segment invariant

    What every entry of the history has to satisfy: a header record never
    claims more bytes than a full segment holds, and the timestamp is only
    ever advanced from a full segment. *)
Definition event_ok (isz mx : Z) (ev : event) : Prop :=
  match ev with
  | ev_write_header _ h _ => ∃ b, bytes_field h = Some b ∧ 0 ≤ b ≤ isz * mx
  | ev_update_rx_time n => n = mx
  end.

(** The segment counter stands at [t]; the header has its [bytes] field; the
    history is in order. *)
Definition seg_at (isz mx t : Z) (s : sink) : Prop :=
  d_itemsize s = isz ∧ d_max_seg_size s = mx ∧ d_total_seg_size s = t ∧
  is_Some (d_header s !! "bytes") ∧
  Forall (event_ok isz mx) (history s).

(** The header in memory is fit to be written. *)
Definition bytes_ready (isz mx : Z) (s : sink) : Prop :=
  ∃ b, bytes_field (d_header s) = Some b ∧ 0 ≤ b ≤ isz * mx.

Definition seg_inv (isz mx : Z) (s : sink) : Prop :=
  ∃ t, 0 ≤ t ≤ mx ∧ seg_at isz mx t s.

(** A member function run from a state satisfying [P] ends in [Q] when it
    returns and in [E] when it throws. *)
Definition triple {A} (P : sink → Prop) (m : M A)
    (Q : A → sink → Prop) (E : sink → Prop) : Prop :=
  ∀ s, P s → match m s with Ok a s' => Q a s' | Throw _ s' => E s' end.
(** The time a segment of [items] items takes at the sink's rate, and the
    timestamp [update_rx_time] makes of [(secs, fracs)] after it. *)
Definition elapsed (items : Z) (samp_rate relative_rate : float) : float :=
  PrimFloat.div (uint64_to_double items) (PrimFloat.mul samp_rate relative_rate).

Definition advanced (secs : Z) (fracs diff : float) : Z * float :=
  let fracs := PrimFloat.add fracs diff in
  let new_secs := double_to_uint64 fracs in
  (wrap64 (secs + new_secs), PrimFloat.sub fracs (uint64_to_double new_secs)).

Definition rx_time_of (t : Z * float) : pmt_t :=
  pmt_tuple [pmt_uint64 t.1; pmt_double t.2].
End Vocabulary.

(** ** Vocabulary of the invariants and of the file layout *)

Section Invariants.
Context `{codec : Codec}.

(** The eight fields the constructor gives the header. *)
Definition standard_fields : list string :=
  ["version"; "rx_rate"; "rx_time"; "size"; "type"; "cplx"; "strt"; "bytes"].

(** [d_extra_size] is the length of the serialized extension. *)
Definition extra_in_sync (s : sink) : Prop :=
  d_extra_size s = str_size (pmt_serialize_str (d_extra s)).

(** In inline mode there is no header file, active or pending. *)
Definition no_header_file (s : sink) : Prop :=
  d_state s = STATE_INLINE → d_hdr_fp s = None ∧ d_new_hdr_fp s = None.

(** A member function keeps an invariant, whether it returns or throws. *)
Definition preserves {A} (Inv : sink → Prop) (m : M A) : Prop :=
  triple Inv m (λ _, Inv) Inv.

Definition shape_inv (s : sink) : Prop :=
  (∀ k, is_Some (d_header s !! k) ↔ k ∈ standard_fields) ∧
  extra_in_sync s ∧ no_header_file s.

(** The advances of the timestamp among the events of a history. *)
Definition is_advance (ev : event) : bool :=
  match ev with ev_update_rx_time _ => true | ev_write_header _ _ _ => false end.

Definition advances (s : sink) : list event := filter is_advance (history s).

(** A member function relates the state it starts from to the state it
    leaves, whether it returns or throws. *)
Definition keeps {A} (R : sink → sink → Prop) (m : M A) : Prop :=
  ∀ s, R s (final_state (m s)).

(** No advance of the timestamp, and the [rx_time] field untouched unless the
    key being processed is [rx_time] itself. *)
Definition no_advance (key : string) (s s' : sink) : Prop :=
  advances s' = advances s ∧
  (key ≠ "rx_time" → d_header s' !! "rx_time" = d_header s !! "rx_time").

(** The header that [update_last_header] writes back: the [bytes] field set
    to the size of the segment's payload, the [strt] field to the current
    length of a record. *)
Definition finalised_header (s : sink) : pmt_dict :=
  <["strt" := pmt_uint64 (wrap64 (METADATA_HEADER_SIZE + d_extra_size s))]>
    (<["bytes" := pmt_uint64 (wrap64 (d_itemsize s * d_total_seg_size s))]>
       (d_header s)).

(** A stream holding [d] with the cursor at its end. *)
Definition at_end (d : list byte) : FILE := mk_FILE d (str_size d).

(** The stream that receives the header records in a given mode. *)
Definition stream_of (mode : layout_mode) : stream :=
  match mode with STATE_INLINE => the_fp | STATE_DETACHED => the_hdr_fp end.

(** The first [n] items of an input buffer, [isz] bytes each. *)
Definition items (isz n : Z) (input : list byte) : list byte :=
  take (Z.to_nat (n * isz)) input.

(** Detached mode, with the data file holding [d] followed by the first
    [n] items of [input], the cursor at its end. *)
Definition payload_at (isz : Z) (d input : list byte) (n : Z) (s : sink) : Prop :=
  d_state s = STATE_DETACHED ∧ d_itemsize s = isz ∧
  d_fp s = Some (at_end (d ++ items isz n input)).

(** The kind of a PMT value: its numbers blanked out. *)
Fixpoint pmt_shape (x : pmt_t) : pmt_t :=
  match x with
  | pmt_long _ => pmt_long 0
  | pmt_uint64 _ => pmt_uint64 0
  | pmt_double _ => pmt_double 0
  | pmt_tuple elts => pmt_tuple (map pmt_shape elts)
  | x => x
  end.

(** The serializer writes numbers in a fixed width: the length of a
    serialized dictionary depends on the kinds of its values only. *)
Definition fixed_width : Prop :=
  ∀ h h' : pmt_dict,
    pmt_shape <$> h = pmt_shape <$> h' →
    str_size (pmt_serialize_str h) = str_size (pmt_serialize_str h').

(** A segment as it lies in an inline file: header record, then payload. *)
Record segment : Type := mk_segment {
  seg_header : pmt_dict;
  seg_extra : pmt_dict;
  seg_payload : list byte
}.

Definition segment_bytes (g : segment) : list byte :=
  record_bytes (seg_header g) (seg_extra g) ++ seg_payload g.

Definition file_of (gs : list segment) : list byte :=
  concat (segment_bytes <$> gs).

Definition payload_of (gs : list segment) : list byte :=
  concat (seg_payload <$> gs).

(** The segment's payload is [n] items of [isz] bytes. *)
Definition holds_items (isz n : Z) (g : segment) : Prop :=
  str_size (seg_payload g) = isz * n.

(** The header's [bytes] field is the size of the segment's payload. *)
Definition counted (g : segment) : Prop :=
  bytes_field (seg_header g) = Some (str_size (seg_payload g)).

(** The header in memory can be rewritten in place: it has the nominal
    length, its [strt] field is the length of a record, its [bytes] and
    [rx_time] fields have their kinds, and a record with a full segment
    behind it stays within reach of a [long] offset. *)
Definition header_fit (s : sink) : Prop :=
  str_size (pmt_serialize_str (d_header s)) = METADATA_HEADER_SIZE ∧
  extra_in_sync s ∧
  d_header s !! "strt"
    = Some (pmt_uint64 (METADATA_HEADER_SIZE + d_extra_size s)) ∧
  (∃ b, d_header s !! "bytes" = Some (pmt_uint64 b)) ∧
  (∃ secs fracs, d_header s !! "rx_time"
                 = Some (pmt_tuple [pmt_uint64 secs; pmt_double fracs])) ∧
  0 ≤ d_itemsize s ∧ 0 < d_max_seg_size s < 2 ^ 64 ∧
  METADATA_HEADER_SIZE + d_extra_size s + d_itemsize s * d_max_seg_size s
    < 2 ^ 63.

(** An inline file made of the closed segments [gs], then the record of the
    header in memory, then the payload [pay] of the segment being filled. *)
Definition inline_layout (gs : list segment) (pay : list byte) (s : sink) : Prop :=
  d_state s = STATE_INLINE ∧ header_fit s ∧
  d_fp s = Some (at_end (file_of gs
                         ++ record_bytes (d_header s) (d_extra s) ++ pay)) ∧
  Forall counted gs ∧
  str_size pay = d_itemsize s * d_total_seg_size s ∧
  0 ≤ d_total_seg_size s ≤ d_max_seg_size s.

(** The header that [write_and_update] puts in front of a new segment. *)
Definition fresh_header (s : sink) : pmt_dict :=
  <["strt" := pmt_uint64 (wrap64 (METADATA_HEADER_SIZE + d_extra_size s))]>
    (<["bytes" := pmt_uint64 0]> (d_header s)).

(** A run of [work] calls with no tag in sight, on a file system that takes
    every write: each call comes with its item count and its buffer, and the
    scheduler's item counter moves on by what the call consumed. *)
Fixpoint works (calls : list (Z * list byte)) (nitems_read : Z) : M unit :=
  match calls with
  | [] => ret tt
  | (n, buf) :: calls =>
    let* r := work n buf nitems_read [] [] in
    works calls (wrap64 (nitems_read + r))
  end.

(** What the headers of a file claim, and what the calls handed over. *)
Definition claimed_bytes (gs : list segment) : Z :=
  foldr (λ g acc, default 0 (bytes_field (seg_header g)) + acc) 0 gs.

Definition offered_items (calls : list (Z * list byte)) : Z :=
  foldr (λ c acc, c.1 + acc) 0 calls.

(** The value [v] is stored under [k]: in the header when [in_header],
    in the extension otherwise. *)
Definition stored (in_header : bool) (k : string) (v : pmt_t) (s : sink) : Prop :=
  (if in_header then d_header s else d_extra s) !! k = Some v.

(** The record written last is the header and extension in memory. *)
Definition on_disk (s : sink) : Prop :=
  ∃ w, last (history s) = Some (ev_write_header w (d_header s) (d_extra s)).

(** The header records of a sequence of segments, as they lie in a detached
    header file. *)
Definition records_of (gs : list segment) : list byte :=
  concat ((λ g, record_bytes (seg_header g) (seg_extra g)) <$> gs).

(** A detached pair of files: the header file holds the records of the
    closed segments [gs] and then the record of the header in memory, the
    data file their payloads and then the payload [pay] of the segment being
    filled. *)
Definition detached_layout (gs : list segment) (pay : list byte) (s : sink) : Prop :=
  d_state s = STATE_DETACHED ∧ header_fit s ∧
  d_hdr_fp s = Some (at_end (records_of gs
                             ++ record_bytes (d_header s) (d_extra s))) ∧
  d_fp s = Some (at_end (payload_of gs ++ pay)) ∧
  Forall counted gs ∧
  str_size pay = d_itemsize s * d_total_seg_size s ∧
  0 ≤ d_total_seg_size s ≤ d_max_seg_size s.

(** The segment that a tag closes: the one being filled, if it holds
    anything. *)
Definition closed_by_tag (s : sink) (pay : list byte) : list segment :=
  if 0 <? d_total_seg_size s
  then [mk_segment (finalised_header s) (d_extra s) pay] else [].

(** A segment that holds between 1 and [mx] items. *)
Definition within_cap (isz mx : Z) (g : segment) : Prop :=
  ∃ k, 0 < k ≤ mx ∧ holds_items isz k g.
(** A tag that sets a header field other than [bytes] and [strt] to a value
    of the kind the field holds ([kinds] gives the kind of every field); for
    [rx_rate], whose value [update_header] replaces by the effective rate, a
    value that [pmt_to_double] accepts. *)
Definition header_tag (kinds : pmt_dict) (t : gr_tag_t) : Prop :=
  key t ≠ "bytes" ∧ key t ≠ "strt" ∧
  if bool_decide (key t = "rx_rate")
  then kinds !! "rx_rate" = Some (pmt_shape (pmt_double 0))
       ∧ is_Some (pmt_to_double (value t))
  else kinds !! key t = Some (pmt_shape (value t)).

(** The inline layout, with the kinds of the header's fields fixed. *)
Definition inline_layout_of (kinds : pmt_dict) (gs : list segment)
    (pay : list byte) (s : sink) : Prop :=
  inline_layout gs pay s ∧ pmt_shape <$> d_header s = kinds.

(** The detached layout, with the kinds of the header's fields fixed. *)
Definition detached_layout_of (kinds : pmt_dict) (gs : list segment)
    (pay : list byte) (s : sink) : Prop :=
  detached_layout gs pay s ∧ pmt_shape <$> d_header s = kinds.

End Invariants.

(** ** Arithmetic of the machine integers *)

Lemma wrap64_range z : 0 ≤ wrap64 z < 2 ^ 64.
Proof. unfold wrap64. apply Z.mod_pos_bound. lia. Qed.

Lemma wrap64_small z : 0 ≤ z < 2 ^ 64 → wrap64 z = z.
Proof. intros. unfold wrap64. apply Z.mod_small. lia. Qed.

Lemma wrap64_le z : 0 ≤ z → wrap64 z ≤ z.
Proof. intros. unfold wrap64. apply Z.mod_le; lia. Qed.

Lemma to_long_small z : 0 ≤ z < 2 ^ 63 → to_long z = z.
Proof.
  intros. unfold to_long. rewrite wrap64_small by lia.
  destruct (Z.ltb_spec z (2 ^ 63)); lia.
Qed.

Lemma to_long_opp z : 0 ≤ z ≤ 2 ^ 63 → to_long (- z) = - z.
Proof.
  intros. unfold to_long.
  destruct (decide (z = 0)) as [->|].
  - reflexivity.
  - assert (wrap64 (- z) = 2 ^ 64 - z) as ->.
    { unfold wrap64. symmetry. apply (Z.mod_unique_pos _ _ (-1)); lia. }
    destruct (Z.ltb_spec (2 ^ 64 - z) (2 ^ 63)); lia.
Qed.

(** ** Streams *)

Lemma str_size_app (a b : list byte) : str_size (a ++ b) = str_size a + str_size b.
Proof. unfold str_size. rewrite length_app. lia. Qed.

Lemma str_size_nonneg (a : list byte) : 0 ≤ str_size a.
Proof. unfold str_size. lia. Qed.

(** Writing at the end of a file appends. *)
Lemma file_put_end (d bs : list byte) :
  file_put (mk_FILE d (str_size d)) bs = mk_FILE (d ++ bs) (str_size (d ++ bs)).
Proof.
  unfold file_put. destruct bs as [|b bs].
  - by rewrite app_nil_r.
  - cbn [f_pos f_data]. unfold str_size. rewrite Nat2Z.id.
    rewrite firstn_all, Nat.sub_diag, drop_ge by (rewrite ?length_app; simpl; lia).
    simpl. rewrite app_nil_r. f_equal. rewrite length_app. simpl. lia.
Qed.

(** Writing over a stretch of the same length replaces it. *)
Lemma file_put_over (a b b' r : list byte) :
  length b' = length b →
  file_put (mk_FILE (a ++ b ++ r) (str_size a)) b'
  = mk_FILE (a ++ b' ++ r) (str_size a + str_size b').
Proof.
  intros Hlen. unfold file_put. destruct b' as [|x b'].
  - destruct b; [|done]. simpl. f_equal. unfold str_size. simpl. lia.
  - cbn [f_pos f_data]. unfold str_size. rewrite Nat2Z.id.
    rewrite take_app_length.
    replace (length a - length (a ++ b ++ r))%nat with 0%nat
      by (rewrite !length_app; lia).
    rewrite <- drop_drop, drop_app_length, Hlen, drop_app_length.
    reflexivity.
Qed.

(** ** Doubles: truncating and subtracting the whole part is exact

    [SpecFloat] gives the operations of binary64 as functions on mantissa and
    exponent.  Converting an integer of at most 53 bits, or a shifted 53-bit
    mantissa, rounds nothing away; so [x - (double)(uint64_t)x] is the exact
    fractional part of a non-negative [x] below 2^64. *)

Lemma digits2_pos_iter_xO m k :
  Z.pos (digits2_pos (Pos.iter xO m k)) = Z.pos (digits2_pos m) + Z.pos k.
Proof.
  induction k using Pos.peano_ind.
  - cbn. lia.
  - rewrite Pos.iter_succ. cbn [digits2_pos]. lia.
Qed.

Lemma digits2_pos_bounds m :
  (2 ^ (Z.pos (digits2_pos m) - 1) <= Z.pos m < 2 ^ Z.pos (digits2_pos m))%Z.
Proof.
  induction m as [m IH|m IH|]; cbn [digits2_pos].
  - rewrite Pos2Z.inj_succ. change (Z.pos m~1) with (2 * Z.pos m + 1).
    replace (Z.succ (Z.pos (digits2_pos m)) - 1) with (Z.pos (digits2_pos m)) by lia.
    rewrite Z.pow_succ_r by lia.
    assert (2 ^ Z.pos (digits2_pos m) = 2 * 2 ^ (Z.pos (digits2_pos m) - 1)) as Hp
      by (rewrite <- Z.pow_succ_r by lia; f_equal; lia).
    lia.
  - rewrite Pos2Z.inj_succ. change (Z.pos m~0) with (2 * Z.pos m).
    replace (Z.succ (Z.pos (digits2_pos m)) - 1) with (Z.pos (digits2_pos m)) by lia.
    rewrite Z.pow_succ_r by lia.
    assert (2 ^ Z.pos (digits2_pos m) = 2 * 2 ^ (Z.pos (digits2_pos m) - 1)) as Hp
      by (rewrite <- Z.pow_succ_r by lia; f_equal; lia).
    lia.
  - cbn. lia.
Qed.

Lemma iter_xO_val m k : Z.pos (Pos.iter xO m k) = Z.pos m * 2 ^ Z.pos k.
Proof.
  induction k using Pos.peano_ind.
  - cbn. lia.
  - rewrite Pos.iter_succ. change (Z.pos (Pos.iter xO m k)~0) with (2 * Z.pos (Pos.iter xO m k)).
    rewrite IHk, Pos2Z.inj_succ, Z.pow_succ_r by lia. lia.
Qed.

(* shifting left then normalising is exact *)
Section Rounding.
Let fexp := SpecFloat.fexp prec emax.

Lemma binary_round_exact (sx : bool) (p : positive) (ex : Z) :
  let e' := fexp (Z.pos (digits2_pos p) + ex) in
  (e' <= ex)%Z → (e' <= emax - prec)%Z →
  ∃ q, binary_round prec emax sx p ex = S754_finite sx q e' ∧
       Z.pos q = Z.pos p * 2 ^ (ex - e') ∧
       valid_binary (S754_finite sx q e') = true.
Proof.
  cbv zeta. remember (fexp (Z.pos (digits2_pos p) + ex)) as e' eqn:Hfe.
  intros He' Hmax. unfold binary_round, shl_align. fold fexp. rewrite <- Hfe.
  destruct (e' - ex) as [|d|d] eqn:Hd; try lia.
  - (* no shift *)
    assert (ex = e') as -> by lia. exists p.
    unfold binary_round_aux, shr_fexp. cbn [Zdigits2 shr_record_of_loc].
    fold fexp. rewrite <- Hfe, Z.sub_diag.
    cbn [shr shr_m loc_of_shr_record round_nearest_even Zdigits2].
    fold fexp. rewrite <- Hfe, Z.sub_diag. cbn [shr shr_m].
    rewrite (proj2 (Z.leb_le _ _) Hmax).
    split; [done|]. split; [lia|].
    cbn. unfold bounded, canonical_mantissa. fold fexp. rewrite <- Hfe, Z.eqb_refl.
    cbn. by apply Z.leb_le.
  - (* shift left by d *)
    exists (Pos.iter xO p d).
    assert (Hdig : fexp (Z.pos (digits2_pos (Pos.iter xO p d)) + e') = e').
    { rewrite digits2_pos_iter_xO.
      replace (Z.pos (digits2_pos p) + Z.pos d + e')
        with (Z.pos (digits2_pos p) + ex) by lia. done. }
    unfold binary_round_aux, shr_fexp. cbn [Zdigits2 shr_record_of_loc].
    fold fexp. rewrite Hdig, Z.sub_diag.
    cbn [shr shr_m loc_of_shr_record round_nearest_even Zdigits2].
    fold fexp. rewrite Hdig, Z.sub_diag. cbn [shr shr_m].
    rewrite (proj2 (Z.leb_le _ _) Hmax).
    split; [done|]. split.
    + rewrite iter_xO_val. f_equal. f_equal. lia.
    + cbn. unfold bounded, canonical_mantissa. fold fexp. rewrite Hdig, Z.eqb_refl.
      cbn. by apply Z.leb_le.
Qed.
End Rounding.

Lemma iter_pos_eq {A} (f : A → A) (p : positive) (x : A) :
  SpecFloat.iter_pos f p x = Pos.iter f x p.
Proof.
  revert x. induction p as [p IH|p IH|]; intros x;
    cbn [SpecFloat.iter_pos Pos.iter].
  - rewrite !IH. by rewrite !Pos.iter_swap.
  - by rewrite !IH.
  - done.
Qed.

Lemma shr_iter_exact m k :
  Pos.iter shr_1 (Build_shr_record (Z.pos (Pos.iter xO m k)) false false) k
  = Build_shr_record (Z.pos m) false false.
Proof.
  induction k using Pos.peano_ind.
  - reflexivity.
  - rewrite !Pos.iter_succ, <- Pos.iter_swap. cbn [shr_1 orb]. exact IHk.
Qed.

Lemma fexp_normal d e :
  d = 53 → (-1074 <= e)%Z → SpecFloat.fexp prec emax (d + e) = e.
Proof. intros -> He. unfold SpecFloat.fexp, emin, prec, emax. lia. Qed.

Lemma binary_normalize_shifted m k :
  Z.pos (digits2_pos m) = 53 → (Z.pos k <= 971)%Z →
  binary_normalize prec emax (Z.pos (Pos.iter xO m k)) 0 false
  = S754_finite false m (Z.pos k).
Proof.
  intros Hd Hk. pose proof (digits2_pos_iter_xO m k) as Hdk.
  assert (Hfe : SpecFloat.fexp prec emax
                  (Z.pos (digits2_pos (Pos.iter xO m k)) + 0) = Z.pos k)
    by (rewrite Hdk, Hd; unfold SpecFloat.fexp, emin, prec, emax; lia).
  assert (Hfe' : SpecFloat.fexp prec emax (Z.pos (digits2_pos m) + Z.pos k)
                 = Z.pos k)
    by (rewrite Hd; unfold SpecFloat.fexp, emin, prec, emax; lia).
  cbn [binary_normalize]. unfold binary_round, shl_align.
  rewrite Hfe, Z.sub_0_r. cbv iota beta.
  unfold binary_round_aux, shr_fexp. cbn [Zdigits2 shr_record_of_loc].
  rewrite Hfe, Z.sub_0_r. unfold shr at 1. cbv iota beta.
  rewrite iter_pos_eq, shr_iter_exact.
  cbn [shr_m loc_of_shr_record round_nearest_even Zdigits2].
  rewrite Z.add_0_l, Hfe', Z.sub_diag. unfold shr. cbv iota beta.
  cbn [shr_m]. unfold emax, prec. by rewrite (proj2 (Z.leb_le _ _)) by lia.
Qed.

Lemma bounded_cases m e :
  bounded prec emax m e = true →
  (e <= 971)%Z ∧
  ((Z.pos (digits2_pos m) = 53 ∧ (-1074 <= e)%Z) ∨
   (e = -1074 ∧ (Z.pos (digits2_pos m) <= 53)%Z)).
Proof.
  unfold bounded, canonical_mantissa, SpecFloat.fexp, emin, prec, emax.
  intros [H1 H2]%andb_prop. apply Z.eqb_eq in H1. apply Z.leb_le in H2. lia.
Qed.

Lemma shiftl_pos_iter m k :
  Z.shiftl (Z.pos m) (Z.pos k) = Z.pos (Pos.iter xO m k).
Proof.
  rewrite Z.shiftl_mul_pow2 by lia. by rewrite iter_xO_val.
Qed.

Lemma shl_align_same m e : shl_align m e e = (m, e).
Proof. unfold shl_align. by rewrite Z.sub_diag. Qed.

Lemma Prim2SF_uint64_to_double n sf :
  binary_normalize prec emax n 0 false = sf → valid_binary sf = true →
  Prim2SF (uint64_to_double n) = sf.
Proof. intros <- Hv. unfold uint64_to_double. by apply Prim2SF_SF2Prim. Qed.

Lemma pow2_lt_inv a b : (0 <= b)%Z → (2 ^ a < 2 ^ b)%Z → (a < b)%Z.
Proof. intros Hb H. by apply (Z.pow_lt_mono_r_iff 2). Qed.

Lemma digits2_pos_unique n d :
  (0 < d)%Z → (2 ^ (d - 1) <= Z.pos n < 2 ^ d)%Z → Z.pos (digits2_pos n) = d.
Proof.
  intros Hd Hn. pose proof (digits2_pos_bounds n) as Hb.
  assert (Z.pos (digits2_pos n) - 1 < d)%Z by (apply pow2_lt_inv; lia).
  assert (d - 1 < Z.pos (digits2_pos n))%Z by (apply pow2_lt_inv; lia).
  lia.
Qed.

Lemma uint_small_exact q0 :
  (Z.pos (digits2_pos q0) <= 53)%Z →
  ∃ q, binary_normalize prec emax (Z.pos q0) 0 false
       = S754_finite false q (Z.pos (digits2_pos q0) - 53) ∧
       Z.pos q = Z.pos q0 * 2 ^ (53 - Z.pos (digits2_pos q0)) ∧
       valid_binary (S754_finite false q (Z.pos (digits2_pos q0) - 53)) = true.
Proof.
  intros Hd.
  assert (SpecFloat.fexp prec emax (Z.pos (digits2_pos q0) + 0)
          = Z.pos (digits2_pos q0) - 53) as Hfe
    by (unfold SpecFloat.fexp, emin, prec, emax; lia).
  destruct (binary_round_exact false q0 0) as (q & Hq & Hqv & Hqval).
  - rewrite Hfe. lia.
  - rewrite Hfe. unfold emax, prec. lia.
  - rewrite Hfe in Hq, Hqv, Hqval. exists q. split; [exact Hq|].
    split; [|exact Hqval]. rewrite Hqv. f_equal. f_equal. lia.
Qed.

Lemma in_unit_zero x s : Prim2SF x = S754_zero s → in_unit x.
Proof.
  intros Hx. unfold in_unit. rewrite leb_spec, ltb_spec, Hx.
  split; reflexivity.
Qed.

Lemma in_unit_small x m e :
  Prim2SF x = S754_finite false m e → (e < -52)%Z → in_unit x.
Proof.
  intros Hx He. unfold in_unit. rewrite leb_spec, ltb_spec, Hx.
  split; [reflexivity|].
  change (Prim2SF 1) with (S754_finite false 4503599627370496 (-52)).
  unfold SFltb, SFcompare. by rewrite (proj2 (Z.compare_lt_iff _ _) He).
Qed.

Lemma frac_in_unit x :
  fits_uint64 x →
  in_unit (PrimFloat.sub x (uint64_to_double (double_to_uint64 x))).
Proof.
  intros [H0 H64]. rewrite leb_spec in H0. rewrite ltb_spec in H64.
  pose proof (Prim2SF_valid x) as Hv.
  unfold double_to_uint64.
  change (Prim2SF 0) with (S754_zero false) in H0.
  change (Prim2SF 0x1p+64) with (S754_finite false 4503599627370496 12) in H64.
  destruct (Prim2SF x) as [s|[|]| |[|] m e] eqn:Hx; try done.
  - (* zero *)
    apply (in_unit_zero _ (if s then true else false)).
    rewrite sub_spec, Hx.
    rewrite (Prim2SF_uint64_to_double 0 (S754_zero false)) by done.
    by destruct s.
  - (* positive and finite *)
    cbn [valid_binary] in Hv. apply bounded_cases in Hv as [Hmax Hcan].
    pose proof (digits2_pos_bounds m) as Hdig.
    assert (e < 12)%Z as He12.
    { unfold SFltb, SFcompare in H64.
      destruct (Z.compare_spec e 12) as [->| |]; [|done|done].
      destruct Hcan as [[Hd _]|[? _]]; [|done]. rewrite Hd in Hdig.
      change (2 ^ (53 - 1)) with 4503599627370496 in Hdig.
      rewrite Pos.compare_cont_spec in H64. cbn [Pos.switch_Eq] in H64.
      destruct (Pos.compare m _) eqn:Hc; [discriminate H64| |discriminate H64].
      assert (Z.pos m < 4503599627370496)%Z by exact Hc. lia. }
    destruct e as [|k|k].
    + (* an integer below 2^53 *)
      destruct Hcan as [[Hd _]|[? _]]; [|done].
      rewrite Hd in Hdig. change (Z.shiftl (Z.pos m) 0) with (Z.pos m).
      assert (wrap64 (Z.pos m) = Z.pos m) as ->
        by (unfold wrap64; apply Z.mod_small; lia).
      destruct (uint_small_exact m) as (q & Hq & Hqv & Hqval); [lia|].
      rewrite Hd in Hq, Hqv, Hqval. change (53 - 53) with 0 in Hq, Hqv, Hqval.
      assert (q = m) as -> by lia.
      apply (in_unit_zero _ false). rewrite sub_spec, Hx.
      rewrite (Prim2SF_uint64_to_double _ _ Hq Hqval).
      unfold SF64sub, SFsub. rewrite Z.min_id, shl_align_same.
      cbn [fst cond_Zopp]. by rewrite Z.sub_diag.
    + (* an integer from 2^53 on *)
      destruct Hcan as [[Hd _]|[? _]]; [|done].
      rewrite Hd in Hdig. rewrite shiftl_pos_iter.
      assert (wrap64 (Z.pos (Pos.iter xO m k)) = Z.pos (Pos.iter xO m k)) as ->.
      { unfold wrap64. apply Z.mod_small. rewrite iter_xO_val.
        assert (2 ^ Z.pos k <= 2 ^ 11)%Z by (apply Z.pow_le_mono_r; lia).
        change (2 ^ 53) with 9007199254740992 in Hdig. nia. }
      apply (in_unit_zero _ false). rewrite sub_spec, Hx.
      rewrite (Prim2SF_uint64_to_double _ (S754_finite false m (Z.pos k))).
      * unfold SF64sub, SFsub. rewrite Z.min_id, shl_align_same.
        cbn [fst cond_Zopp]. by rewrite Z.sub_diag.
      * apply binary_normalize_shifted; [done|lia].
      * cbn. unfold bounded, canonical_mantissa. rewrite Hd.
        rewrite fexp_normal by lia. rewrite Z.eqb_refl. cbn.
        apply Z.leb_le. unfold emax, prec. lia.
    + (* a fractional part *)
      rewrite Z.shiftl_div_pow2 by lia. change (- Z.neg k) with (Z.pos k).
      assert (0 < 2 ^ Z.pos k)%Z as Hpk by (apply Z.pow_pos_nonneg; lia).
      pose proof (Z.div_mod (Z.pos m) (2 ^ Z.pos k) ltac:(lia)) as Hdm.
      pose proof (Z.mod_pos_bound (Z.pos m) (2 ^ Z.pos k) Hpk) as Hmod.
      assert (Z.pos (digits2_pos m) <= 53)%Z as Hd53 by lia.
      assert (Z.pos m < 2 ^ 53)%Z as Hm53.
      { eapply Z.lt_le_trans; [apply Hdig|]. by apply Z.pow_le_mono_r. }
      assert (0 <= Z.pos m / 2 ^ Z.pos k <= Z.pos m)%Z as Hq0.
      { split; [apply Z.div_pos; lia|]. apply Z.div_le_upper_bound; nia. }
      assert (wrap64 (Z.pos m / 2 ^ Z.pos k) = Z.pos m / 2 ^ Z.pos k) as ->.
      { unfold wrap64. apply Z.mod_small.
        change (2 ^ 53) with 9007199254740992 in Hm53. lia. }
      destruct (Z.pos m / 2 ^ Z.pos k) as [|q0|q0] eqn:Hdiv; [| |lia].
      * (* below one: nothing is carried *)
        apply (in_unit_small _ m (Z.neg k)).
        -- rewrite sub_spec, Hx.
           by rewrite (Prim2SF_uint64_to_double 0 (S754_zero false)).
        -- destruct Hcan as [[Hd _]|[? _]]; [|lia].
           rewrite Hd in Hdig. assert (2 ^ 52 < 2 ^ Z.pos k)%Z by lia.
           assert (52 < Z.pos k)%Z by (apply pow2_lt_inv; lia). lia.
      * (* the whole part is carried, the rest stays *)
        assert (2 ^ Z.pos k <= Z.pos m)%Z as Hmk by nia.
        assert (Z.pos k < Z.pos (digits2_pos m))%Z as Hkd
          by (apply pow2_lt_inv; lia).
        destruct Hcan as [[Hd _]|[? _]]; [|lia]. rewrite Hd in Hdig, Hkd.
        assert (Z.pos (digits2_pos q0) = 53 - Z.pos k) as Hdq.
        { apply digits2_pos_unique; [lia|].
          assert (2 ^ 53 = 2 ^ (53 - Z.pos k) * 2 ^ Z.pos k)%Z as H53
            by (rewrite <- Z.pow_add_r by lia; f_equal; lia).
          assert (2 ^ (53 - 1) = 2 ^ (53 - Z.pos k - 1) * 2 ^ Z.pos k)%Z as H52
            by (rewrite <- Z.pow_add_r by lia; f_equal; lia).
          nia. }
        destruct (uint_small_exact q0) as (q & Hq & Hqv & Hqval); [lia|].
        rewrite Hdq in Hq, Hqv, Hqval.
        replace (53 - Z.pos k - 53) with (Z.neg k) in Hq, Hqval by lia.
        replace (53 - (53 - Z.pos k)) with (Z.pos k) in Hqv by lia.
        assert (Hy : Prim2SF (PrimFloat.sub x (uint64_to_double (Z.pos q0)))
                = binary_normalize prec emax (Z.pos m mod 2 ^ Z.pos k)
                    (Z.neg k) false).
        { rewrite sub_spec, Hx, (Prim2SF_uint64_to_double _ _ Hq Hqval).
          unfold SF64sub, SFsub. rewrite Z.min_id, !shl_align_same.
          cbn [fst cond_Zopp]. f_equal. lia. }
        destruct (Z.pos m mod 2 ^ Z.pos k) as [|r|r] eqn:Hr; [| |lia].
        -- by apply (in_unit_zero _ false).
        -- cbn [binary_normalize] in Hy.
           pose proof (digits2_pos_bounds r) as Hrd.
           assert (Z.pos (digits2_pos r) - 1 < Z.pos k)%Z
             by (apply pow2_lt_inv; lia).
           destruct (binary_round_exact false r (Z.neg k))
             as (q' & Hq' & _ & _).
           { unfold SpecFloat.fexp, emin, prec, emax. lia. }
           { unfold SpecFloat.fexp, emin, prec, emax. lia. }
           rewrite Hq' in Hy. apply (in_unit_small _ _ _ Hy).
           unfold SpecFloat.fexp, emin, prec, emax. lia.
Qed.

(** ** Reasoning about member functions *)

Section Properties.
Context `{codec : Codec}.

Lemma bind_Ok {A B} (m : M A) (k : A → M B) s a s' :
  m s = Ok a s' → bind m k s = k a s'.
Proof. unfold bind. by intros ->. Qed.

Lemma bind_Throw {A B} (m : M A) (k : A → M B) s e s' :
  m s = Throw e s' → bind m k s = Throw e s'.
Proof. unfold bind. by intros ->. Qed.

Lemma bind_Ok_inv {A B} (m : M A) (k : A → M B) s b s'' :
  bind m k s = Ok b s'' → ∃ a s', m s = Ok a s' ∧ k a s' = Ok b s''.
Proof. unfold bind. destruct (m s); [eauto | done]. Qed.

(** [do_update] never throws, and touches nothing but the streams and the
    [d_updated] flag. *)
Lemma do_update_Ok s : do_update s = Ok tt (final_state (do_update s)).
Proof.
  unfold do_update, bind, get_sink, modify, ret.
  destruct (d_updated s), (d_state s); reflexivity.
Qed.

Lemma do_update_frame s :
  let s' := final_state (do_update s) in
  d_itemsize s' = d_itemsize s ∧ d_samp_rate s' = d_samp_rate s ∧
  d_relative_rate s' = d_relative_rate s ∧
  d_max_seg_size s' = d_max_seg_size s ∧
  d_total_seg_size s' = d_total_seg_size s ∧
  d_header s' = d_header s ∧ d_extra s' = d_extra s ∧
  d_extra_size s' = d_extra_size s ∧ d_state s' = d_state s ∧
  history s' = history s.
Proof.
  unfold do_update, bind, get_sink, modify, ret.
  destruct (d_updated s), (d_state s) eqn:E; cbn; rewrite ?E; done.
Qed.

Lemma do_update_streams s f :
  f ∈ open_streams (final_state (do_update s)) → f ∈ open_streams s.
Proof.
  unfold do_update, bind, get_sink, modify, ret, open_streams.
  destruct (d_updated s), (d_state s); cbn;
    destruct (d_fp s), (d_new_fp s), (d_hdr_fp s), (d_new_hdr_fp s); cbn;
    rewrite ?elem_of_cons, ?elem_of_nil; tauto.
Qed.

(** C8 — a [work] call made while no active stream exists, the pending
    rotation taken into account, drops its input: it returns the full
    [noutput_items], throws nothing, writes no header and advances no
    timestamp, leaves the header, the extension and the segment counter as
    they were, and every stream still held is one that was held before, bytes
    and cursor unchanged. *)
Theorem work_without_stream_drops_input
    (noutput_items : Z) (input_items : list byte) (nitems_read : Z)
    (tags : list gr_tag_t) (os_accepts : list Z) (s : sink) :
  d_fp (final_state (do_update s)) = None →
  let s' := final_state (do_update s) in
  work noutput_items input_items nitems_read tags os_accepts s
    = Ok noutput_items s' ∧
  d_header s' = d_header s ∧ d_extra s' = d_extra s ∧
  d_extra_size s' = d_extra_size s ∧
  d_total_seg_size s' = d_total_seg_size s ∧
  d_samp_rate s' = d_samp_rate s ∧
  history s' = history s ∧
  (∀ f, f ∈ open_streams s' → f ∈ open_streams s).
Proof.
  intros Hnone s'. split.
  - unfold work. rewrite (bind_Ok _ _ _ _ _ (do_update_Ok s)).
    unfold bind, get_sink. fold s'. subst s'. by rewrite Hnone.
  - destruct (do_update_frame s) as (_ & ? & _ & _ & ? & ? & ? & ? & _ & ?).
    repeat split; try done. apply do_update_streams.
Qed.

(** *** [write_header] and [update_header], unfolded *)

Lemma write_header_unfold w h e s :
  write_header w h e s =
  if size_refused h e s
  then Throw (runtime_error "file_meta_sink: header or extras is wrong size.") s
  else match get_stream w s with
       | None => Throw null_stream s
       | Some f =>
         Ok tt (note (ev_write_header w h e)
                  (set_stream w (Some (file_put (file_put f (pmt_serialize_str h))
                                                (pmt_serialize_str e))) s))
       end.
Proof.
  unfold write_header, size_refused, bind, get_sink, throw, on_stream, modify.
  destruct (_ && _); [done|].
  destruct w; cbn; by destruct (d_fp s), (d_hdr_fp s).
Qed.

Lemma update_header_unfold key v s :
  update_header key v s =
  let store v s :=
    if pmt_dict_has_key (d_header s) key
    then Ok tt (set_header (pmt_dict_add (d_header s) key v) s)
    else let e := pmt_dict_add (d_extra s) key v in
         Ok tt (set_extra e (str_size (pmt_serialize_str e)) s) in
  if bool_decide (key = "rx_rate") then
    match pmt_to_double v with
    | None => Throw (pmt_wrong_type "pmt_to_double") s
    | Some r => store (pmt_double (PrimFloat.mul r (d_relative_rate s)))
                      (set_samp_rate r s)
    end
  else store v s.
Proof.
  unfold update_header, bind, get_sink, modify, ret, pmt_get, throw.
  case_bool_decide.
  - destruct (pmt_to_double v); cbn; [|done]. by destruct (pmt_dict_has_key _ _).
  - by destruct (pmt_dict_has_key _ _).
Qed.

(** *** The constructor *)

Lemma file_put_fresh (a b : list byte) :
  file_put (file_put fresh_FILE a) b = mk_FILE (a ++ b) (str_size (a ++ b)).
Proof.
  change fresh_FILE with (mk_FILE [] (str_size [])).
  by rewrite !file_put_end.
Qed.

(** The constructor, up to its call of [write_header]. *)
Lemma constructor_unfold
    (os : string → open_outcome) (itemsize : Z) (filename : string)
    (samp_rate relative_rate : float) (type : Z) (complex : bool)
    (max_segment_size : Z) (extra_dict : list byte) (detached_header : bool) :
  let e := initial_extra extra_dict in
  let esz := str_size (pmt_serialize_str e) in
  let h := initial_header samp_rate (wrap64 itemsize) type complex esz in
  let mode := if detached_header then STATE_DETACHED else STATE_INLINE in
  let st (fp hdr_fp : option FILE) (upd : bool) :=
    mk_sink (wrap64 itemsize) samp_rate relative_rate
            (wrap64 max_segment_size) 0 h e esz upd false
            fp None hdr_fp None mode [] in
  gr_file_meta_sink os itemsize filename samp_rate relative_rate type
                    complex max_segment_size extra_dict detached_header
  = if detached_header then
      match os (filename +:+ ".hdr") with
      | open_fails =>
        Throw (runtime_error "file_meta_sink: can't open file")
              (mk_sink (wrap64 itemsize) samp_rate relative_rate
                 (wrap64 max_segment_size) 0 pmt_make_dict pmt_make_dict 0
                 true false None None None None mode [])
      | o_hdr =>
        match os filename with
        | open_fails =>
          Throw (runtime_error "file_meta_sink: can't open file")
                (mk_sink (wrap64 itemsize) samp_rate relative_rate
                   (wrap64 max_segment_size) 0 pmt_make_dict pmt_make_dict 0
                   true false None None None (opened o_hdr) mode [])
        | o => write_header the_hdr_fp h e (st (opened o) (opened o_hdr) false)
        end
      end
    else
      match os filename with
      | open_fails =>
        Throw (runtime_error "file_meta_sink: can't open file")
              (mk_sink (wrap64 itemsize) samp_rate relative_rate
                 (wrap64 max_segment_size) 0 pmt_make_dict pmt_make_dict 0
                 true false None None None None mode [])
      | o => write_header the_fp h e (st (opened o) None false)
      end.
Proof.
  intros e esz h mode st. subst h esz st mode. unfold gr_file_meta_sink.
  fold e. generalize e. clear e. intros e.
  unfold open, _open, do_update.
  unfold bind at 1. unfold bind at 1. unfold get_sink at 1.
  destruct detached_header; cbn [d_state];
    [destruct (os (filename +:+ ".hdr"))|];
    destruct (os filename); cbn -[write_header]; reflexivity.
Qed.

Lemma write_header_same_extra w h e s f :
  d_extra_size s = str_size (pmt_serialize_str e) →
  get_stream w s = Some f →
  write_header w h e s
  = Ok tt (note (ev_write_header w h e)
             (set_stream w (Some (file_put (file_put f (pmt_serialize_str h))
                                           (pmt_serialize_str e))) s)).
Proof.
  intros Hsz Hf. rewrite write_header_unfold. unfold size_refused.
  rewrite Hsz, Z.eqb_refl, andb_false_r, Hf. reflexivity.
Qed.

Lemma write_header_null w h e s r :
  get_stream w s = None → write_header w h e s ≠ Ok tt r.
Proof.
  intros Hf. rewrite write_header_unfold. rewrite Hf.
  by destruct (size_refused h e s).
Qed.

Lemma constructor_Ok_inv
    os itemsize filename samp_rate relative_rate type complex
    max_segment_size extra_dict detached_header s :
  gr_file_meta_sink os itemsize filename samp_rate relative_rate type
                    complex max_segment_size extra_dict detached_header
    = Ok tt s →
  let e := initial_extra extra_dict in
  let esz := str_size (pmt_serialize_str e) in
  let h := initial_header samp_rate (wrap64 itemsize) type complex esz in
  let rec := mk_FILE (record_bytes h e) (str_size (record_bytes h e)) in
  s = mk_sink (wrap64 itemsize) samp_rate relative_rate
        (wrap64 max_segment_size) 0 h e esz false false
        (if detached_header then opened (os filename) else Some rec) None
        (if detached_header then Some rec else None) None
        (if detached_header then STATE_DETACHED else STATE_INLINE)
        [ev_write_header (if detached_header then the_hdr_fp else the_fp) h e].
Proof.
  rewrite constructor_unfold. intros Hnew e esz h rec.
  fold e esz h in Hnew. subst rec. unfold record_bytes.
  destruct detached_header;
    [destruct (os (filename +:+ ".hdr")); [done| |]|];
    (destruct (os filename); [done| |]);
    (try by apply write_header_null in Hnew);
    (rewrite (write_header_same_extra _ _ _ _ fresh_FILE) in Hnew by done);
    injection Hnew as <-; rewrite file_put_fresh; reflexivity.
Qed.

(** C10 — construction itself puts one complete header record on the header
    stream (the file in inline mode, the [.hdr] file in detached mode): a
    successfully constructed object holds a header stream whose whole content
    is that record, with the cursor behind it; the record's [bytes] field is
    0 and its [strt] field is [METADATA_HEADER_SIZE + d_extra_size] (in
    [size_t] arithmetic); no payload has been counted and exactly one record
    has been written. *)
Theorem constructor_writes_first_header
    os itemsize filename samp_rate relative_rate type complex
    max_segment_size extra_dict detached_header s :
  gr_file_meta_sink os itemsize filename samp_rate relative_rate type
                    complex max_segment_size extra_dict detached_header
    = Ok tt s →
  let rec := record_bytes (d_header s) (d_extra s) in
  header_stream s = (if detached_header then the_hdr_fp else the_fp) ∧
  get_stream (header_stream s) s = Some (mk_FILE rec (str_size rec)) ∧
  bytes_field (d_header s) = Some 0 ∧
  strt_field (d_header s)
    = Some (wrap64 (METADATA_HEADER_SIZE + d_extra_size s)) ∧
  d_extra_size s = str_size (pmt_serialize_str (d_extra s)) ∧
  d_total_seg_size s = 0 ∧
  history s = [ev_write_header (header_stream s) (d_header s) (d_extra s)].
Proof.
  intros Hnew. rewrite (constructor_Ok_inv _ _ _ _ _ _ _ _ _ _ _ Hnew).
  unfold header_stream, bytes_field, strt_field.
  cbn [d_state d_header d_extra d_extra_size d_total_seg_size history].
  assert (Hb : ∀ isz esz,
            initial_header samp_rate isz type complex esz !! "bytes"
            = Some (pmt_uint64 0))
    by (intros; apply lookup_insert_eq).
  assert (Hs : ∀ isz esz,
            initial_header samp_rate isz type complex esz !! "strt"
            = Some (pmt_uint64 (wrap64 (METADATA_HEADER_SIZE + esz)))).
  { intros. unfold initial_header, pmt_dict_add.
    rewrite lookup_insert_ne by done. apply lookup_insert_eq. }
  rewrite Hb, Hs. by destruct detached_header.
Qed.

(** *** Hoare triples *)

Lemma triple_ret {A} (a : A) (P : sink → Prop) Q E :
  (∀ s, P s → Q a s) → triple P (ret a) Q E.
Proof. intros H s Hs. by apply H. Qed.

Lemma triple_throw {A} e (P : sink → Prop) (Q : A → sink → Prop) (E : sink → Prop) :
  (∀ s, P s → E s) → triple P (throw e) Q E.
Proof. intros H s Hs. by apply H. Qed.

Lemma triple_bind {A B} (m : M A) (k : A → M B) P Q R E :
  triple P m Q E → (∀ a, triple (Q a) (k a) R E) → triple P (bind m k) R E.
Proof.
  intros Hm Hk s Hs. unfold bind. specialize (Hm s Hs).
  destruct (m s) as [a s'|e s']; [by apply Hk | done].
Qed.

Lemma triple_conseq {A} (m : M A) (P P' : sink → Prop) (Q Q' : A → sink → Prop)
    (E E' : sink → Prop) :
  triple P m Q E → (∀ s, P' s → P s) → (∀ a s, Q a s → Q' a s) →
  (∀ s, E s → E' s) → triple P' m Q' E'.
Proof.
  intros Hm HP HQ HE s Hs. specialize (Hm s (HP s Hs)).
  destruct (m s); eauto.
Qed.

Lemma triple_get P E : triple P get_sink (λ a s, a = s ∧ P s) E.
Proof. intros s Hs. by split. Qed.

Lemma triple_modify f (P : sink → Prop) (Q : unit → sink → Prop) E :
  (∀ s, P s → Q tt (f s)) → triple P (modify f) Q E.
Proof. intros H s Hs. by apply H. Qed.

Lemma triple_on_stream w f (P : sink → Prop) (Q : unit → sink → Prop) (E : sink → Prop) :
  (∀ s fl, P s → get_stream w s = Some fl → Q tt (set_stream w (Some (f fl)) s)) →
  (∀ s, P s → E s) → triple P (on_stream w f) Q E.
Proof.
  intros HQ HE s Hs. unfold on_stream.
  destruct (get_stream w s) eqn:Hw; [by eapply HQ | by apply HE].
Qed.

Lemma triple_pmt_get {A} fn (o : option A) (P : sink → Prop) (Q : A → sink → Prop) E :
  (∀ a s, o = Some a → P s → Q a s) → (∀ s, P s → E s) →
  triple P (pmt_get fn o) Q E.
Proof.
  intros HQ HE s Hs. unfold pmt_get. destruct o; [by apply HQ | by apply HE].
Qed.

Lemma triple_pre {A} (m : M A) (P P' : sink → Prop) Q E :
  (∀ s, P' s → P s) → triple P m Q E → triple P' m Q E.
Proof. intros HP Hm. eapply triple_conseq; eauto. Qed.

Lemma triple_get_bind {A} (k : sink → M A) (P : sink → Prop) Q E :
  (∀ a, P a → triple (λ s, s = a) (k a) Q E) →
  triple P (bind get_sink k) Q E.
Proof. intros Hk s Hs. unfold bind, get_sink. by apply (Hk s Hs). Qed.

Section SegmentInvariant.
Variables isz mx : Z.
Hypothesis isz_nonneg : 0 ≤ isz.
Hypothesis mx_range : 0 ≤ mx < 2 ^ 64.

Local Abbreviation I t := (seg_at isz mx t).
Local Abbreviation J t := (λ s, seg_at isz mx t s ∧ bytes_ready isz mx s).

(** Streams play no part in the segment invariant. *)
Lemma seg_at_set_stream t w f s : I t s → I t (set_stream w f s).
Proof. by destruct w. Qed.

Lemma bytes_ready_set_stream w f s :
  bytes_ready isz mx s → bytes_ready isz mx (set_stream w f s).
Proof. by destruct w. Qed.

Lemma seg_at_on_stream t w f :
  triple (I t) (on_stream w f) (λ _, I t) (I t).
Proof.
  apply triple_on_stream; [|done]. intros s fl Hs _.
  by apply seg_at_set_stream.
Qed.

Lemma ready_on_stream t w f :
  triple (J t) (on_stream w f) (λ _, J t) (I t).
Proof.
  apply triple_on_stream; [|by intros s [? _]]. intros s fl [Hs Hb] _.
  split; [by apply seg_at_set_stream | by apply bytes_ready_set_stream].
Qed.

Lemma update_header_store key v s :
  update_header key v s =
  if bool_decide (key = "rx_rate") then
    match pmt_to_double v with
    | None => Throw (pmt_wrong_type "pmt_to_double") s
    | Some r => Ok tt (store key (pmt_double (PrimFloat.mul r (d_relative_rate s)))
                         (set_samp_rate r s))
    end
  else Ok tt (store key v s).
Proof.
  rewrite update_header_unfold. unfold store. cbn zeta.
  case_bool_decide.
  - destruct (pmt_to_double v); [|done]. by destruct (pmt_dict_has_key _ _).
  - by destruct (pmt_dict_has_key _ _).
Qed.

Lemma seg_at_store t key v s : I t s → I t (store key v s).
Proof.
  intros (Hi & Hm & Ht & Hb & Hh). unfold store.
  destruct (pmt_dict_has_key _ _); repeat split; try done.
  cbn. unfold pmt_dict_add. destruct (decide (key = "bytes")) as [->|].
  - rewrite lookup_insert_eq. eauto.
  - by rewrite lookup_insert_ne.
Qed.

Lemma bytes_ready_store key v s :
  key ≠ "bytes" → bytes_ready isz mx s → bytes_ready isz mx (store key v s).
Proof.
  intros Hk (b & Hb & Hr). exists b. split; [|done]. unfold store.
  destruct (pmt_dict_has_key _ _); [|done].
  cbn. unfold bytes_field, pmt_dict_add in *. by rewrite lookup_insert_ne.
Qed.

Lemma bytes_ready_store_bytes b s :
  0 ≤ b ≤ isz * mx → is_Some (d_header s !! "bytes") →
  bytes_ready isz mx (store "bytes" (pmt_uint64 b) s).
Proof.
  intros Hb Hk. exists b. split; [|done]. unfold store, pmt_dict_has_key.
  rewrite bool_decide_eq_true_2 by done.
  cbn. unfold bytes_field, pmt_dict_add. by rewrite lookup_insert_eq.
Qed.

Lemma seg_at_update_header t key v :
  triple (I t) (update_header key v) (λ _, I t) (I t).
Proof.
  intros s Hs. rewrite update_header_store. case_bool_decide.
  - destruct (pmt_to_double v); [|done]. by apply seg_at_store.
  - by apply seg_at_store.
Qed.

Lemma ready_update_header t key v :
  key ≠ "bytes" →
  triple (J t) (update_header key v) (λ _, J t) (I t).
Proof.
  intros Hk s [Hs Hb]. rewrite update_header_store. case_bool_decide.
  - destruct (pmt_to_double v); [|done].
    split; [by apply seg_at_store | by apply bytes_ready_store].
  - split; [by apply seg_at_store | by apply bytes_ready_store].
Qed.

Lemma ready_update_header_bytes t b :
  0 ≤ b ≤ isz * mx →
  triple (I t) (update_header "bytes" (pmt_uint64 b)) (λ _, J t) (I t).
Proof.
  intros Hb s Hs. rewrite update_header_store.
  rewrite bool_decide_eq_false_2 by done.
  split; [by apply seg_at_store|].
  apply bytes_ready_store_bytes; [done|]. by destruct Hs as (_ & _ & _ & ? & _).
Qed.

Lemma ready_write_header t w a :
  J t a →
  triple (λ s, s = a) (write_header w (d_header a) (d_extra a))
         (λ _, J t) (I t).
Proof.
  intros [Ha Hb] s ->.
  rewrite write_header_unfold.
  destruct (size_refused _ _ _); [done|].
  destruct (get_stream w a) eqn:Hw; [|done].
  destruct Ha as (Hi & Hm & Ht & Hk & Hh).
  split; [|by destruct w].
  repeat split; try by destruct w.
  assert (history (note (ev_write_header w (d_header a) (d_extra a))
                     (set_stream w (Some (file_put (file_put f
                        (pmt_serialize_str (d_header a)))
                        (pmt_serialize_str (d_extra a)))) a))
          = history a ++ [ev_write_header w (d_header a) (d_extra a)]) as ->
    by (by destruct w).
  apply Forall_app. split; [done|]. by apply Forall_singleton.
Qed.

Lemma seg_bytes_bound t : 0 ≤ t ≤ mx → 0 ≤ wrap64 (isz * t) ≤ isz * mx.
Proof.
  intros Ht. split; [apply wrap64_range|].
  etrans; [apply wrap64_le; nia | nia].
Qed.

Lemma ready_update_last_header_inline t :
  0 ≤ t ≤ mx →
  triple (I t) update_last_header_inline (λ _, J t) (I t).
Proof.
  intros Ht. unfold update_last_header_inline.
  apply triple_get_bind. intros a Ha.
  eapply triple_bind.
  { apply triple_pmt_get with (Q := λ _ s, s = a); [by intros|by intros ? ?; subst]. }
  intros hdrlen. eapply triple_bind.
  { eapply triple_pre; [|apply (ready_update_header_bytes t)].
    - by intros ? ?; subst.
    - rewrite (proj1 Ha), (proj1 (proj2 (proj2 Ha))). by apply seg_bytes_bound. }
  intros ?. apply triple_get_bind. intros sa Hsa.
  eapply triple_bind.
  { eapply triple_pre; [|by apply (ready_update_header t "strt")]. by intros ? ?; subst. }
  intros ?. eapply triple_bind; [apply ready_on_stream|].
  intros ?. apply triple_get_bind. intros sb Hsb.
  eapply triple_bind; [by apply ready_write_header|].
  intros ?. exact (ready_on_stream t _ _).
Qed.

Lemma ready_update_last_header_detached t :
  0 ≤ t ≤ mx →
  triple (I t) update_last_header_detached (λ _, J t) (I t).
Proof.
  intros Ht. unfold update_last_header_detached.
  apply triple_get_bind. intros a Ha.
  eapply triple_bind.
  { apply triple_pmt_get with (Q := λ _ s, s = a); [by intros|by intros ? ?; subst]. }
  intros hdrlen. eapply triple_bind.
  { eapply triple_pre; [|apply (ready_update_header_bytes t)].
    - by intros ? ?; subst.
    - rewrite (proj1 Ha), (proj1 (proj2 (proj2 Ha))). by apply seg_bytes_bound. }
  intros ?. apply triple_get_bind. intros sa Hsa.
  eapply triple_bind.
  { eapply triple_pre; [|by apply (ready_update_header t "strt")]. by intros ? ?; subst. }
  intros ?. eapply triple_bind; [apply ready_on_stream|].
  intros ?. apply triple_get_bind. intros sb Hsb.
  by apply ready_write_header.
Qed.

Lemma seg_at_update_last_header t :
  0 ≤ t ≤ mx →
  triple (I t) update_last_header (λ _, I t) (I t).
Proof.
  intros Ht. unfold update_last_header.
  apply triple_get_bind. intros a Ha.
  destruct (d_state a).
  - eapply triple_conseq; [by apply ready_update_last_header_inline
                          |by intros ? ?; subst|by intros ?? []|done].
  - eapply triple_conseq; [by apply ready_update_last_header_detached
                          |by intros ? ?; subst|by intros ?? []|done].
Qed.

Lemma seg_at_write_and_update t :
  triple (I t) write_and_update (λ _, I t) (I t).
Proof.
  unfold write_and_update.
  eapply triple_bind; [apply (ready_update_header_bytes t 0); nia|].
  intros ?. apply triple_get_bind. intros sa Hsa.
  eapply triple_bind.
  { eapply triple_pre; [|by apply (ready_update_header t "strt")]. by intros ? ?; subst. }
  intros ?. apply triple_get_bind. intros sb Hsb.
  destruct (d_state sb);
    (eapply triple_conseq; [by apply ready_write_header|done|by intros ?? []|done]).
Qed.

Lemma seg_at_update_rx_time :
  triple (I mx) update_rx_time (λ _, I mx) (I mx).
Proof.
  unfold update_rx_time.
  apply triple_get_bind. intros a Ha.
  eapply triple_bind.
  { apply triple_pmt_get with (Q := λ _ s, s = a); [by intros|by intros ? ?; subst]. }
  intros r0. eapply triple_bind.
  { apply triple_pmt_get with (Q := λ _ s, s = a); [by intros|by intros ? ?; subst]. }
  intros secs. eapply triple_bind.
  { apply triple_pmt_get with (Q := λ _ s, s = a); [by intros|by intros ? ?; subst]. }
  intros r1. eapply triple_bind.
  { apply triple_pmt_get with (Q := λ _ s, s = a); [by intros|by intros ? ?; subst]. }
  intros fracs. eapply triple_bind.
  { apply triple_modify with (Q := λ _ s, I mx s ∧ d_total_seg_size a = mx).
    intros s ->. destruct Ha as (Hi & Hm & Ht & Hb & Hh).
    split; [|done]. repeat split; try done.
    cbn. unfold pmt_dict_add. rewrite lookup_insert_ne; done. }
  intros ?. apply triple_modify.
  intros s [(Hi & Hm & Ht & Hb & Hh) Hta]. repeat split; try done.
  cbn. apply Forall_app. split; [done|]. by apply Forall_singleton.
Qed.

Lemma seg_at_start_next_segment :
  triple (I mx) start_next_segment (λ _, I 0) (seg_inv isz mx).
Proof.
  assert (∀ s, I mx s → seg_inv isz mx s) as Hw
    by (intros s Hs; exists mx; split; [lia|done]).
  unfold start_next_segment.
  eapply triple_bind.
  { eapply triple_conseq; [apply (seg_at_update_last_header mx); lia|done|done|done]. }
  intros ?. eapply triple_bind.
  { eapply triple_conseq; [apply seg_at_update_rx_time|done|done|done]. }
  intros ?. eapply triple_bind.
  { eapply triple_conseq; [apply (seg_at_write_and_update mx)|done|done|done]. }
  intros ?. apply triple_modify. by intros s (? & ? & ? & ? & ?).
Qed.

Local Abbreviation Inv := (seg_inv isz mx).

Lemma seg_at_inv t s : 0 ≤ t ≤ mx → I t s → Inv s.
Proof. intros Ht Hs. by exists t. Qed.

Lemma triple_inv {A} (m : M A) :
  (∀ t, 0 ≤ t ≤ mx → triple (I t) m (λ _, I t) (I t)) →
  triple Inv m (λ _, Inv) Inv.
Proof.
  intros Hm s (t & Ht & Hs). specialize (Hm t Ht s Hs).
  destruct (m s); by exists t.
Qed.

Lemma fwrite_count_range towrite l :
  0 ≤ towrite → 0 ≤ fwrite_count towrite l ≤ towrite.
Proof. unfold fwrite_count. destruct (os_accepts l); lia. Qed.

Lemma seg_inv_payload_loop fuel before_tag limit l :
  triple Inv (payload_loop fuel before_tag limit l) (λ _, Inv) Inv.
Proof.
  revert l. induction fuel as [|fuel IH]; intros l; cbn [payload_loop].
  - destruct (nwritten l <? limit); [by apply triple_throw | by apply triple_ret].
  - destruct (nwritten l <? limit); [|by apply triple_ret].
    apply triple_get_bind. intros a (t & Ht & Ha).
    pose proof Ha as (Hi & Hm & Hta & _).
    set (towrite := Z.min _ _).
    assert (0 ≤ towrite ≤ mx - t) as Htw.
    { subst towrite. rewrite Hm, Hta.
      pose proof (wrap64_range (limit - nwritten l)).
      rewrite (wrap64_small (mx - t)) by lia. lia. }
    pose proof (fwrite_count_range towrite l (proj1 Htw)) as Hc.
    set (count := fwrite_count towrite l) in *.
    eapply triple_bind.
    { eapply triple_conseq;
        [apply (seg_at_on_stream t)|by intros ? ?; subst|done
        |by intros ? ?; exists t]. }
    intros ?. destruct (count =? 0).
    { apply triple_ret. intros s Hs. by exists t. }
    eapply triple_bind.
    { apply triple_modify with (Q := λ _, I (t + count)).
      intros s (? & ? & ? & ? & ?). repeat split; try done.
      cbn. rewrite Hta. apply wrap64_small. lia. }
    intros ?. apply triple_get_bind. intros sa Hsa.
    eapply triple_bind with (Q := λ _, Inv).
    { pose proof Hsa as (_ & Hm' & Hta' & _).
      destruct (_ && _) eqn:Hfull.
      - apply andb_prop in Hfull as [Hfull _].
        apply Z.eqb_eq in Hfull. rewrite Hm', Hta' in Hfull.
        eapply triple_conseq; [apply seg_at_start_next_segment| |
                               |done].
        + intros s' Hs'. rewrite Hs'. revert Hsa. by rewrite Hfull.
        + intros ? s Hs. exists 0. split; [lia|done].
      - apply triple_ret. intros s' Hs'. rewrite Hs'. exists (t + count).
        split; [lia|done]. }
    intros ?. apply IH.
Qed.

Lemma seg_inv_update_last_header :
  triple Inv update_last_header (λ _, Inv) Inv.
Proof. apply triple_inv. apply seg_at_update_last_header. Qed.

Lemma seg_inv_update_header key v :
  triple Inv (update_header key v) (λ _, Inv) Inv.
Proof. apply triple_inv. intros. apply seg_at_update_header. Qed.

Lemma seg_inv_write_and_update :
  triple Inv write_and_update (λ _, Inv) Inv.
Proof. apply triple_inv. intros. apply seg_at_write_and_update. Qed.

Lemma seg_inv_apply_tag tg :
  triple Inv (apply_tag tg) (λ _, Inv) Inv.
Proof.
  unfold apply_tag. apply triple_get_bind. intros a Ha.
  destruct (0 <? d_total_seg_size a).
  - eapply triple_bind.
    { eapply triple_pre; [|apply seg_inv_update_last_header]. by intros ? ?; subst. }
    intros ?. eapply triple_bind; [apply seg_inv_update_header|].
    intros ?. eapply triple_bind; [apply seg_inv_write_and_update|].
    intros ?. apply triple_modify.
    intros s (t & Ht & ? & ? & ? & ? & ?). exists 0.
    split; [lia|done].
  - eapply triple_bind.
    { eapply triple_pre; [|apply seg_inv_update_header]. by intros ? ?; subst. }
    intros ?. apply seg_inv_update_last_header.
Qed.

Lemma seg_inv_tag_loop abs_N ts l :
  triple Inv (tag_loop abs_N l ts) (λ _, Inv) Inv.
Proof.
  revert l. induction ts as [|tg ts IH]; intros l; cbn [tag_loop].
  - by apply triple_ret.
  - eapply triple_bind; [|intros ?; apply IH].
    unfold tag_round. eapply triple_bind; [apply seg_inv_payload_loop|].
    intros ?. eapply triple_bind; [apply seg_inv_apply_tag|].
    intros ?. by apply triple_ret.
Qed.

Lemma seg_inv_do_update : triple Inv do_update (λ _, Inv) Inv.
Proof.
  intros s (t & Ht & Hs). rewrite do_update_Ok.
  destruct (do_update_frame s) as (? & _ & _ & ? & ? & ? & _ & _ & _ & ?).
  exists t. split; [done|]. unfold seg_at in *. by repeat match goal with H : _ = _ |- _ => rewrite H end.
Qed.

Lemma seg_inv_work noutput_items input_items nitems_read tags os_accepts :
  triple Inv (work noutput_items input_items nitems_read tags os_accepts)
         (λ _, Inv) Inv.
Proof.
  unfold work. eapply triple_bind; [apply seg_inv_do_update|].
  intros ?. apply triple_get_bind. intros sa Hsa.
  destruct (d_fp sa).
  - eapply triple_bind.
    { eapply triple_pre; [|apply seg_inv_tag_loop]. by intros ? ?; subst. }
    intros ?. eapply triple_bind; [apply seg_inv_payload_loop|].
    intros ?. by apply triple_ret.
  - apply triple_ret. by intros ? ?; subst.
Qed.

Lemma seg_inv_close : triple Inv close (λ _, Inv) Inv.
Proof.
  unfold close. eapply triple_bind; [apply seg_inv_update_last_header|].
  intros ?. apply triple_get_bind. intros sa Hsa.
  eapply triple_bind with (Q := λ _, Inv).
  { destruct (d_state sa).
    - apply triple_ret. by intros ? ?; subst.
    - apply triple_modify. intros ? ?; subst. done. }
  intros ?. eapply triple_bind with (Q := λ _, Inv); [by apply triple_modify|].
  intros ?. by apply triple_modify.
Qed.

Lemma seg_inv_frame s s' :
  d_itemsize s' = d_itemsize s → d_max_seg_size s' = d_max_seg_size s →
  d_total_seg_size s' = d_total_seg_size s → d_header s' = d_header s →
  history s' = history s → Inv s → Inv s'.
Proof.
  intros H1 H2 H3 H4 H5 (t & Ht & Hs). exists t. split; [done|].
  unfold seg_at in *. by rewrite H1, H2, H3, H4, H5.
Qed.

Lemma open_frame os filename s :
  let s' := final_state (open os filename s) in
  d_itemsize s' = d_itemsize s ∧ d_max_seg_size s' = d_max_seg_size s ∧
  d_total_seg_size s' = d_total_seg_size s ∧ d_header s' = d_header s ∧
  history s' = history s.
Proof.
  unfold open, _open, bind, get_sink, modify, ret, throw.
  destruct (d_state s), (os filename), (os (filename +:+ ".hdr")),
    (d_new_fp s) eqn:E1, (d_new_hdr_fp s) eqn:E2; cbn;
    rewrite ?E1, ?E2; cbn; done.
Qed.

Lemma seg_inv_open os filename :
  triple Inv (open os filename) (λ _, Inv) Inv.
Proof.
  intros s Hs. destruct (open_frame os filename s) as (? & ? & ? & ? & ?).
  destruct (open os filename s); by eapply seg_inv_frame.
Qed.

End SegmentInvariant.



(** *** The segment invariant holds of every reachable object *)

Lemma initial_header_bytes samp_rate itemsize type complex esz :
  initial_header samp_rate itemsize type complex esz !! "bytes"
  = Some (pmt_uint64 0).
Proof. apply lookup_insert_eq. Qed.

Lemma initial_header_strt samp_rate itemsize type complex esz :
  initial_header samp_rate itemsize type complex esz !! "strt"
  = Some (pmt_uint64 (wrap64 (METADATA_HEADER_SIZE + esz))).
Proof.
  unfold initial_header, pmt_dict_add.
  rewrite lookup_insert_ne by done. apply lookup_insert_eq.
Qed.

Lemma triple_final {A} (P : sink → Prop) (m : M A) (Q : sink → Prop) s :
  triple P m (λ _, Q) Q → P s → Q (final_state (m s)).
Proof. intros Hm Hs. specialize (Hm s Hs). by destruct (m s). Qed.

Lemma seg_inv_fields isz mx s :
  seg_inv isz mx s → d_itemsize s = isz ∧ d_max_seg_size s = mx.
Proof. by intros (t & _ & ? & ? & _). Qed.

Lemma constructor_seg_inv
    os itemsize filename samp_rate relative_rate type complex
    max_segment_size extra_dict detached_header s :
  gr_file_meta_sink os itemsize filename samp_rate relative_rate type
                    complex max_segment_size extra_dict detached_header
    = Ok tt s →
  0 ≤ d_itemsize s ∧ 0 ≤ d_max_seg_size s < 2 ^ 64 ∧
  seg_inv (d_itemsize s) (d_max_seg_size s) s.
Proof.
  intros Hnew. rewrite (constructor_Ok_inv _ _ _ _ _ _ _ _ _ _ _ Hnew).
  cbn [d_itemsize d_max_seg_size].
  pose proof (wrap64_range itemsize). pose proof (wrap64_range max_segment_size).
  split; [lia|]. split; [lia|].
  exists 0. split; [lia|].
  unfold seg_at. cbn [d_itemsize d_max_seg_size d_total_seg_size d_header history].
  repeat split.
  - rewrite initial_header_bytes. eauto.
  - apply Forall_singleton. exists 0. unfold bytes_field.
    rewrite initial_header_bytes. split; [done|nia].
Qed.

Lemma reachable_seg_inv s :
  reachable s →
  0 ≤ d_itemsize s ∧ 0 ≤ d_max_seg_size s < 2 ^ 64 ∧
  seg_inv (d_itemsize s) (d_max_seg_size s) s.
Proof.
  assert (∀ s s',
            0 ≤ d_itemsize s ∧ 0 ≤ d_max_seg_size s < 2 ^ 64 ∧
            seg_inv (d_itemsize s) (d_max_seg_size s) s →
            seg_inv (d_itemsize s) (d_max_seg_size s) s' →
            0 ≤ d_itemsize s' ∧ 0 ≤ d_max_seg_size s' < 2 ^ 64 ∧
            seg_inv (d_itemsize s') (d_max_seg_size s') s') as Hstep.
  { intros s0 s' (Hi & Hm & _) Hs'.
    destruct (seg_inv_fields _ _ _ Hs') as [-> ->]. done. }
  induction 1 as [????????????Hnew|s ????? Hr IH|s Hr IH|s ?? Hr IH].
  - by eapply constructor_seg_inv.
  - apply (Hstep s _ IH). destruct IH as (Hi & Hm & IH).
    eapply triple_final; [|exact IH]. by apply seg_inv_work.
  - apply (Hstep s _ IH). destruct IH as (Hi & Hm & IH).
    eapply triple_final; [|exact IH]. by apply seg_inv_close.
  - apply (Hstep s _ IH). destruct IH as (Hi & Hm & IH).
    eapply triple_final; [|exact IH]. by apply seg_inv_open.
Qed.

(** C2 — whatever sequence of [work] calls (with whatever tags and whatever
    the file system answers), [close] and [open] an object has been through,
    its segment counter [d_total_seg_size] does not exceed [d_max_seg_size],
    and every header record it has ever written carries a [bytes] field of at
    most [d_itemsize * d_max_seg_size]. *)
Theorem segment_never_exceeds_cap (s : sink) :
  reachable s →
  0 ≤ d_total_seg_size s ≤ d_max_seg_size s ∧
  ∀ w header extra,
    ev_write_header w header extra ∈ history s →
    ∃ b, bytes_field header = Some b ∧
         0 ≤ b ≤ d_itemsize s * d_max_seg_size s.
Proof.
  intros Hr. destruct (reachable_seg_inv s Hr) as (_ & _ & t & Ht & Hs).
  destruct Hs as (_ & _ & Htot & _ & Hh). split; [lia|].
  intros w h e Hin. rewrite Forall_forall in Hh. exact (Hh _ Hin).
Qed.

(** *** The rate rule and the timestamp *)

Lemma update_rx_time_unfold s secs fracs :
  d_header s !! "rx_time" = Some (pmt_tuple [pmt_uint64 secs; pmt_double fracs]) →
  update_rx_time s =
  Ok tt (note (ev_update_rx_time (d_total_seg_size s))
           (set_header
              (<["rx_time" :=
                   rx_time_of (advanced secs fracs
                                 (elapsed (d_total_seg_size s) (d_samp_rate s)
                                          (d_relative_rate s)))]> (d_header s))
              s)).
Proof.
  intros Hrx. unfold update_rx_time, bind, get_sink, pmt_dict_ref.
  rewrite Hrx. reflexivity.
Qed.

(** C4 — an annotation with key [rx_rate] carrying the upstream rate [r]
    makes [update_header] store exactly [r * d_relative_rate] in the header's
    rate field (and [r] in [d_samp_rate]); the multiplier itself is left
    alone.  From then on, as long as the rate is not set again, every advance
    of the timestamp divides the segment's item count by
    [r * d_relative_rate]. *)
Theorem rate_tag_stores_effective_rate (s : sink) (v : pmt_t) (r : float) :
  pmt_to_double v = Some r →
  is_Some (d_header s !! "rx_rate") →
  ∃ s',
    update_header "rx_rate" v s = Ok tt s' ∧
    d_header s' !! "rx_rate"
      = Some (pmt_double (PrimFloat.mul r (d_relative_rate s))) ∧
    d_samp_rate s' = r ∧
    d_relative_rate s' = d_relative_rate s ∧
    ∀ u secs fracs,
      d_samp_rate u = r →
      d_relative_rate u = d_relative_rate s →
      d_header u !! "rx_time"
        = Some (pmt_tuple [pmt_uint64 secs; pmt_double fracs]) →
      ∃ u',
        update_rx_time u = Ok tt u' ∧
        d_header u' !! "rx_time"
          = Some (rx_time_of
                    (advanced secs fracs
                       (PrimFloat.div
                          (uint64_to_double (d_total_seg_size u))
                          (PrimFloat.mul r (d_relative_rate s))))).
Proof.
  intros Hv Hk. eexists. split; [|split; [|split; [|split]]].
  - rewrite update_header_store. rewrite bool_decide_eq_true_2 by done.
    rewrite Hv. reflexivity.
  - unfold store, pmt_dict_has_key. cbn [d_header set_samp_rate].
    rewrite bool_decide_eq_true_2 by done. cbn [d_header set_header].
    apply lookup_insert_eq.
  - unfold store. by destruct (pmt_dict_has_key _ _).
  - unfold store. by destruct (pmt_dict_has_key _ _).
  - intros u secs fracs Hr Hm Hrx. eexists. split.
    + by apply update_rx_time_unfold.
    + cbn [d_header note set_header]. rewrite lookup_insert_eq.
      unfold elapsed. by rewrite Hr, Hm.
Qed.

(** *** The size test of [write_header] *)

(** [write_header] refuses a record exactly when both lengths deviate. *)
Lemma write_header_refuses_iff w h e s :
  (∃ what, write_header w h e s = Throw (runtime_error what) s) ↔
  str_size (pmt_serialize_str h) ≠ METADATA_HEADER_SIZE ∧
  str_size (pmt_serialize_str e) ≠ d_extra_size s.
Proof.
  rewrite write_header_unfold. unfold size_refused.
  destruct (Z.eqb_spec (str_size (pmt_serialize_str h)) METADATA_HEADER_SIZE),
           (Z.eqb_spec (str_size (pmt_serialize_str e)) (d_extra_size s));
    cbn; split; try (intros [? ?]; done); try (intros [? H0]; revert H0);
    try (destruct (get_stream w s); done); eauto.
Qed.

End Properties.

(** ** Invariants of the object and the layout of its files *)

Section Invariance.
Context `{codec : Codec}.

Lemma preserves_bind {A B} Inv (m : M A) (k : A → M B) :
  preserves Inv m → (∀ a, preserves Inv (k a)) → preserves Inv (bind m k).
Proof. intros Hm Hk. eapply triple_bind; [exact Hm|exact Hk]. Qed.

Lemma preserves_get {A} Inv (k : sink → M A) :
  (∀ a, Inv a → preserves Inv (k a)) → preserves Inv (bind get_sink k).
Proof.
  intros Hk. apply triple_get_bind. intros a Ha.
  eapply triple_pre; [|exact (Hk a Ha)]. by intros ? ->.
Qed.

Lemma preserves_ret {A} Inv (a : A) : preserves Inv (ret a).
Proof. by apply triple_ret. Qed.

Lemma preserves_throw {A} Inv e : preserves Inv (throw (A := A) e).
Proof. by apply triple_throw. Qed.

Lemma preserves_pmt_get {A} Inv fn (o : option A) : preserves Inv (pmt_get fn o).
Proof. by apply triple_pmt_get. Qed.

Lemma preserves_modify (Inv : sink → Prop) f :
  (∀ s, Inv s → Inv (f s)) → preserves Inv (modify f).
Proof. intros Hf. by apply triple_modify. Qed.

Lemma preserves_final {A} Inv (m : M A) s :
  preserves Inv m → Inv s → Inv (final_state (m s)).
Proof. intros Hm Hs. specialize (Hm s Hs). by destruct (m s). Qed.

(** An invariant that the primitive steps keep is kept by every member
    function built from them. *)
Section Closure.
Variable Inv : sink → Prop.
Hypothesis Inv_bytes : ∀ v, preserves Inv (update_header "bytes" v).
Hypothesis Inv_strt : ∀ v, preserves Inv (update_header "strt" v).
Hypothesis Inv_on_stream : ∀ w f, preserves Inv (on_stream w f).
Hypothesis Inv_note : ∀ ev s, Inv s → Inv (note ev s).

Lemma closure_write_header w h e : preserves Inv (write_header w h e).
Proof.
  unfold write_header. apply preserves_get. intros sa Hsa.
  destruct (_ && _); [apply preserves_throw|].
  apply preserves_bind; [apply Inv_on_stream|]. intros ?.
  apply preserves_bind; [apply Inv_on_stream|]. intros ?.
  apply preserves_modify. apply Inv_note.
Qed.

Lemma closure_update_last_header : preserves Inv update_last_header.
Proof.
  unfold update_last_header. apply preserves_get. intros sa Hsa.
  destruct (d_state sa).
  - unfold update_last_header_inline.
    apply preserves_get. intros ? ?.
    apply preserves_bind; [apply preserves_pmt_get|]. intros ?.
    apply preserves_bind; [apply Inv_bytes|]. intros ?.
    apply preserves_get. intros ? ?.
    apply preserves_bind; [apply Inv_strt|]. intros ?.
    apply preserves_bind; [apply Inv_on_stream|]. intros ?.
    apply preserves_get. intros ? ?.
    apply preserves_bind; [apply closure_write_header|]. intros ?.
    apply Inv_on_stream.
  - unfold update_last_header_detached.
    apply preserves_get. intros ? ?.
    apply preserves_bind; [apply preserves_pmt_get|]. intros ?.
    apply preserves_bind; [apply Inv_bytes|]. intros ?.
    apply preserves_get. intros ? ?.
    apply preserves_bind; [apply Inv_strt|]. intros ?.
    apply preserves_bind; [apply Inv_on_stream|]. intros ?.
    apply preserves_get. intros ? ?.
    apply closure_write_header.
Qed.

Lemma closure_write_and_update : preserves Inv write_and_update.
Proof.
  unfold write_and_update.
  apply preserves_bind; [apply Inv_bytes|]. intros ?.
  apply preserves_get. intros ? ?.
  apply preserves_bind; [apply Inv_strt|]. intros ?.
  apply preserves_get. intros sa ?.
  destruct (d_state sa); apply closure_write_header.
Qed.

(** With the remaining steps kept as well, so is all of [work] and [close]. *)
Hypothesis Inv_update_header : ∀ k v, preserves Inv (update_header k v).
Hypothesis Inv_update_rx_time : preserves Inv update_rx_time.
Hypothesis Inv_total : ∀ n s, Inv s → Inv (set_total_seg_size n s).
Hypothesis Inv_do_update : preserves Inv do_update.
Hypothesis Inv_new_fp : ∀ s, Inv s → Inv (set_new_fp None s).
Hypothesis Inv_new_hdr_fp :
  ∀ s, Inv s → d_state s = STATE_DETACHED → Inv (set_new_hdr_fp None s).
Hypothesis Inv_updated : ∀ s, Inv s → Inv (set_updated true s).

Lemma closure_start_next_segment : preserves Inv start_next_segment.
Proof.
  unfold start_next_segment.
  apply preserves_bind; [apply closure_update_last_header|]. intros ?.
  apply preserves_bind; [apply Inv_update_rx_time|]. intros ?.
  apply preserves_bind; [apply closure_write_and_update|]. intros ?.
  apply preserves_modify. apply Inv_total.
Qed.

Lemma closure_payload_loop fuel before_tag limit l :
  preserves Inv (payload_loop fuel before_tag limit l).
Proof.
  revert l. induction fuel as [|fuel IH]; intros l; cbn [payload_loop];
    (destruct (nwritten l <? limit); [|apply preserves_ret]).
  - apply preserves_throw.
  - apply preserves_get. intros sa Hsa.
    apply preserves_bind; [apply Inv_on_stream|]. intros ?.
    destruct (_ =? 0); [apply preserves_ret|].
    apply preserves_bind; [apply preserves_modify, Inv_total|]. intros ?.
    apply preserves_get. intros sb Hsb.
    apply preserves_bind; [|intros ?; apply IH].
    destruct (_ && _); [apply closure_start_next_segment|apply preserves_ret].
Qed.

Lemma closure_apply_tag t : preserves Inv (apply_tag t).
Proof.
  unfold apply_tag. apply preserves_get. intros sa Hsa.
  destruct (0 <? d_total_seg_size sa).
  - apply preserves_bind; [apply closure_update_last_header|]. intros ?.
    apply preserves_bind; [apply Inv_update_header|]. intros ?.
    apply preserves_bind; [apply closure_write_and_update|]. intros ?.
    apply preserves_modify. apply Inv_total.
  - apply preserves_bind; [apply Inv_update_header|]. intros ?.
    apply closure_update_last_header.
Qed.

Lemma closure_tag_loop abs_N ts l : preserves Inv (tag_loop abs_N l ts).
Proof.
  revert l. induction ts as [|t ts IH]; intros l; cbn [tag_loop].
  - apply preserves_ret.
  - apply preserves_bind; [|intros ?; apply IH].
    unfold tag_round, write_payload.
    apply preserves_bind; [apply closure_payload_loop|]. intros ?.
    apply preserves_bind; [apply closure_apply_tag|]. intros ?.
    apply preserves_ret.
Qed.

Lemma closure_work noutput_items input_items nitems_read tags os_accepts :
  preserves Inv (work noutput_items input_items nitems_read tags os_accepts).
Proof.
  unfold work. apply preserves_bind; [apply Inv_do_update|]. intros ?.
  apply preserves_get. intros sa Hsa.
  destruct (d_fp sa); [|apply preserves_ret].
  apply preserves_bind; [apply closure_tag_loop|]. intros ?.
  apply preserves_bind; [apply closure_payload_loop|]. intros ?.
  apply preserves_ret.
Qed.

Lemma closure_close : preserves Inv close.
Proof.
  unfold close. apply preserves_bind; [apply closure_update_last_header|].
  intros ?. apply triple_get_bind. intros sa Hsa.
  apply triple_bind with (Q := λ _ s, Inv s ∧ d_state s = d_state sa).
  - destruct (d_state sa) eqn:Hst.
    + apply triple_ret. by intros ? ->.
    + apply triple_modify. intros ? ->. split; [by apply Inv_new_hdr_fp|done].
  - intros ?. eapply triple_pre with (P := Inv); [by intros ? [? _]|].
    apply preserves_bind; [apply preserves_modify, Inv_new_fp|]. intros ?.
    apply preserves_modify, Inv_updated.
Qed.

End Closure.

(** *** The shape of the object *)

Local Abbreviation K := shape_inv.

Lemma shape_store key v s : K s → K (store key v s).
Proof.
  intros (Hk & He & Hf). unfold store, pmt_dict_has_key.
  case_bool_decide as Hin.
  - split; [|done]. intros k. cbn [d_header set_header]. unfold pmt_dict_add.
    rewrite lookup_insert_is_Some. rewrite <- Hk.
    split; [intros [<-|[_ ?]]; done | intros ?].
    destruct (decide (key = k)); [by left | by right].
  - split; [done|]. split; [|done]. reflexivity.
Qed.

Lemma shape_update_header key v : preserves K (update_header key v).
Proof.
  intros s Hs. rewrite update_header_store.
  case_bool_decide; [|by apply shape_store].
  destruct (pmt_to_double v); [|done]. by apply shape_store.
Qed.

Lemma shape_on_stream w f : preserves K (on_stream w f).
Proof.
  apply triple_on_stream; [|done].
  intros s fl (Hk & He & Hf) Hw. split; [by destruct w|]. split; [by destruct w|].
  destruct w; [done|]. intros Hi. cbn in Hi. destruct (Hf Hi) as [Hn _].
  cbn in Hw. congruence.
Qed.

Lemma shape_insert_standard k v a s :
  k ∈ standard_fields → K a → K s → K (set_header (<[k := v]> (d_header a)) s).
Proof.
  intros Hin (Hk & _) (_ & He & Hf). split; [|done]. intros k'.
  cbn [d_header set_header].
  rewrite lookup_insert_is_Some, <- Hk.
  split; [intros [<-|[_ ?]]; [by apply Hk|done] | intros ?].
  destruct (decide (k = k')); [by left | by right].
Qed.

Lemma shape_update_rx_time : preserves K update_rx_time.
Proof.
  unfold update_rx_time. apply preserves_get. intros sa Hsa.
  apply preserves_bind; [apply preserves_pmt_get|]. intros ?.
  apply preserves_bind; [apply preserves_pmt_get|]. intros ?.
  apply preserves_bind; [apply preserves_pmt_get|]. intros ?.
  apply preserves_bind; [apply preserves_pmt_get|]. intros ?.
  apply preserves_bind; [|intros ?; by apply preserves_modify].
  apply preserves_modify. intros s Hs. apply shape_insert_standard; [|done..].
  unfold standard_fields. rewrite !elem_of_cons. tauto.
Qed.

Lemma shape_do_update : preserves K do_update.
Proof.
  intros s (Hk & He & Hf). rewrite do_update_Ok.
  destruct (do_update_frame s) as (_ & _ & _ & _ & _ & Hh & Hx & Hxs & Hst & _).
  split; [by rewrite Hh|]. split; [unfold extra_in_sync; by rewrite Hxs, Hx|].
  intros Hi. rewrite Hst in Hi. destruct (Hf Hi) as [H1 H2]. revert Hi H1 H2.
  unfold do_update, bind, get_sink, modify, ret.
  destruct (d_updated s), (d_state s); done.
Qed.

Lemma shape_open os filename : preserves K (open os filename).
Proof.
  intros s (Hk & He & Hf).
  destruct (open_frame os filename s) as (_ & _ & _ & Hh & _).
  assert (K (final_state (open os filename s))) as HK.
  { split; [by rewrite Hh|]. revert He Hf. unfold extra_in_sync, no_header_file.
    unfold open, _open, bind, get_sink, modify, ret, throw.
    destruct (d_state s) eqn:Hst, (os filename), (os (filename +:+ ".hdr")),
      (d_new_fp s) eqn:E1, (d_new_hdr_fp s) eqn:E2; cbn;
      rewrite ?E1, ?E2, ?Hst; cbn; rewrite ?Hst; done. }
  by destruct (open os filename s).
Qed.

Lemma shape_work noutput_items input_items nitems_read tags os_accepts :
  preserves K (work noutput_items input_items nitems_read tags os_accepts).
Proof.
  apply closure_work; try done.
  - intros; apply shape_update_header.
  - intros; apply shape_update_header.
  - apply shape_on_stream.
  - apply shape_update_header.
  - apply shape_update_rx_time.
  - apply shape_do_update.
Qed.

Lemma shape_close : preserves K close.
Proof.
  apply closure_close; try done.
  - intros; apply shape_update_header.
  - intros; apply shape_update_header.
  - apply shape_on_stream.
  - intros s (Hk & He & Hf) Hd. split; [done|]. split; [done|].
    intros Hi. cbn in Hi. congruence.
Qed.

Lemma initial_header_fields samp_rate itemsize type complex esz k :
  is_Some (initial_header samp_rate itemsize type complex esz !! k)
  ↔ k ∈ standard_fields.
Proof.
  unfold initial_header, pmt_dict_add, pmt_make_dict, standard_fields.
  rewrite !lookup_insert_is_Some, lookup_empty, is_Some_alt, !elem_of_cons,
    elem_of_nil.
  split.
  - intros H. repeat (destruct H as [<-|[_ H]]; [tauto|]). done.
  - intros H.
    destruct (decide ("bytes" = k)); [tauto|right; split; [done|]].
    destruct (decide ("strt" = k)); [tauto|right; split; [done|]].
    destruct (decide ("cplx" = k)); [tauto|right; split; [done|]].
    destruct (decide ("type" = k)); [tauto|right; split; [done|]].
    destruct (decide ("size" = k)); [tauto|right; split; [done|]].
    destruct (decide ("rx_time" = k)); [tauto|right; split; [done|]].
    destruct (decide ("rx_rate" = k)); [tauto|right; split; [done|]].
    destruct (decide ("version" = k)); [tauto|].
    exfalso. intuition congruence.
Qed.

Lemma constructor_shape
    os itemsize filename samp_rate relative_rate type complex
    max_segment_size extra_dict detached_header s :
  gr_file_meta_sink os itemsize filename samp_rate relative_rate type
                    complex max_segment_size extra_dict detached_header
    = Ok tt s →
  K s.
Proof.
  intros Hnew. rewrite (constructor_Ok_inv _ _ _ _ _ _ _ _ _ _ _ Hnew).
  split; [|split].
  - intros k. cbn [d_header]. apply initial_header_fields.
  - reflexivity.
  - intros Hi. cbn in Hi. by destruct detached_header.
Qed.

Lemma reachable_shape s : reachable s → K s.
Proof.
  induction 1 as [????????????Hnew|s ????? Hr IH|s Hr IH|s ?? Hr IH].
  - by eapply constructor_shape.
  - by apply preserves_final; [apply shape_work|].
  - by apply preserves_final; [apply shape_close|].
  - by apply preserves_final; [apply shape_open|].
Qed.

(** X1 — whatever calls an object has been through, its header holds the
    eight fields the constructor gave it and no others: a tag can overwrite a
    field, but neither add one nor take one away. *)
Theorem header_keeps_standard_fields (s : sink) (k : string) :
  reachable s →
  pmt_dict_has_key (d_header s) k = true ↔ k ∈ standard_fields.
Proof.
  intros Hr. destruct (reachable_shape s Hr) as (Hk & _).
  unfold pmt_dict_has_key. rewrite bool_decide_eq_true. apply Hk.
Qed.


(** *** The destructor *)

Lemma dtor_unfold s :
  gr_file_meta_sink_dtor s =
  match close s with
  | Ok _ s1 =>
    Ok tt (match d_state s1 with
           | STATE_DETACHED => set_hdr_fp None (set_fp None s1)
           | STATE_INLINE => set_fp None s1
           end)
  | Throw e s1 => Throw e s1
  end.
Proof.
  unfold gr_file_meta_sink_dtor, bind, modify, get_sink, ret.
  destruct (close s) as [[] s1|]; [|done]. cbn. by destruct (d_state s1).
Qed.

Lemma close_Ok_streams s s1 :
  close s = Ok tt s1 → d_new_fp s1 = None ∧ d_updated s1 = true ∧
  (d_state s1 = STATE_DETACHED → d_new_hdr_fp s1 = None).
Proof.
  unfold close. intros H.
  apply bind_Ok_inv in H as (? & sa & _ & H).
  revert H. unfold bind, get_sink, modify, ret.
  destruct (d_state sa) eqn:Hst; cbn; intros [= <-]; cbn; rewrite ?Hst; done.
Qed.

(** X3 — the destructor finishes exactly when its [close] does, and then the
    object holds no stream at all, active or pending, in either mode. *)
Theorem destructor_releases_streams (s : sink) :
  reachable s →
  (∀ s1, close s = Ok tt s1 →
     ∃ s', gr_file_meta_sink_dtor s = Ok tt s' ∧ open_streams s' = []) ∧
  (∀ e s1, close s = Throw e s1 → gr_file_meta_sink_dtor s = Throw e s1).
Proof.
  intros Hr. split.
  - intros s1 Hc. rewrite dtor_unfold, Hc. eexists. split; [reflexivity|].
    destruct (close_Ok_streams _ _ Hc) as (Hn & _ & Hd).
    assert (shape_inv s1) as (_ & _ & Hf).
    { rewrite <- (f_equal final_state Hc : final_state (close s) = s1).
      apply preserves_final; [apply shape_close|by apply reachable_shape]. }
    unfold open_streams. destruct (d_state s1) eqn:Hst.
    + destruct (Hf Hst) as [H1 H2]. cbn. by rewrite Hn, H1, H2.
    + cbn. by rewrite Hn, (Hd eq_refl).
  - intros e s1 Hc. by rewrite dtor_unfold, Hc.
Qed.

(** *** [open] with a file already pending *)

(** X4 — [_open] clears its own pointer instead of the object's when a
    pending stream is already there, and then stores through it.  In inline
    mode a first [open] succeeds and leaves its file pending; a second [open]
    before any [work] has installed that file is a null dereference, unless
    the second file cannot be created at all. *)
Theorem open_twice_dereferences_null (s : sink)
    (os os' : string → open_outcome) (filename filename' : string) :
  d_state s = STATE_INLINE →
  d_new_fp s = None →
  os filename = opens →
  os' filename' ≠ open_fails →
  ∃ s1, open os filename s = Ok true s1 ∧
        d_new_fp s1 = Some fresh_FILE ∧ d_fp s1 = d_fp s ∧
        open os' filename' s1 = Throw null_stream s1.
Proof.
  intros Hst Hf Hos Hos'. eexists. split; [|split; [|split]].
  - unfold open, _open, bind, get_sink, throw, ret, modify.
    rewrite Hst, Hos. cbn. rewrite Hf. reflexivity.
  - reflexivity.
  - reflexivity.
  - unfold open, _open, bind, get_sink, throw, ret, modify. cbn.
    rewrite Hst. cbn. by destruct (os' filename').
Qed.

Lemma keeps_bind {A B} (R : sink → sink → Prop) `{!PreOrder R}
    (m : M A) (k : A → M B) :
  keeps R m → (∀ a, keeps R (k a)) → keeps R (bind m k).
Proof.
  intros Hm Hk s. unfold bind. specialize (Hm s).
  destruct (m s) as [a s'|e s']; [|done].
  etrans; [exact Hm|]. apply Hk.
Qed.

Lemma keeps_ret {A} (R : sink → sink → Prop) `{!Reflexive R} (a : A) :
  keeps R (ret a).
Proof. intros s. reflexivity. Qed.

Lemma keeps_get_bind {A} (R : sink → sink → Prop) (k : sink → M A) :
  (∀ a, keeps R (k a)) → keeps R (bind get_sink k).
Proof. intros Hk s. apply Hk. Qed.

Lemma keeps_pmt_get {A} (R : sink → sink → Prop) `{!Reflexive R} fn (o : option A) :
  keeps R (pmt_get fn o).
Proof. intros s. destruct o; reflexivity. Qed.

#[local] Instance no_advance_preorder key : PreOrder (no_advance key).
Proof.
  split.
  - by intros s.
  - intros s1 s2 s3 [H1 H1'] [H2 H2']. split; [congruence|].
    intros Hk. rewrite H2', H1'; done.
Qed.

Lemma no_advance_on_stream key w f : keeps (no_advance key) (on_stream w f).
Proof.
  intros s. unfold on_stream. destruct (get_stream w s); [|done].
  by destruct w.
Qed.

Lemma no_advance_update_header key k v :
  (key ≠ "rx_time" → k ≠ "rx_time") →
  keeps (no_advance key) (update_header k v).
Proof.
  intros Hk s. rewrite update_header_store.
  assert (∀ v' s', no_advance key s' (store k v' s')) as Hstore.
  { intros v' s'. unfold store. destruct (pmt_dict_has_key _ _); [|done].
    split; [done|]. intros Hkey. cbn. unfold pmt_dict_add.
    rewrite lookup_insert_ne; [done|]. by apply Hk. }
  case_bool_decide; [|apply Hstore].
  destruct (pmt_to_double v); [|done]. cbn.
  etrans; [|apply Hstore]. done.
Qed.

Lemma no_advance_write_header key w h e :
  keeps (no_advance key) (write_header w h e).
Proof.
  intros s. rewrite write_header_unfold.
  destruct (size_refused _ _ _); [done|].
  destruct (get_stream w s); [|done]. cbn.
  split; [|by destruct w].
  unfold advances.
  replace (history (note _ _)) with (history s ++ [ev_write_header w h e])
    by (by destruct w).
  rewrite filter_app.
  replace (filter is_advance [ev_write_header w h e]) with (@nil event)
    by reflexivity.
  by rewrite app_nil_r.
Qed.

Lemma no_advance_update_last_header key :
  keeps (no_advance key) update_last_header.
Proof.
  unfold update_last_header. apply keeps_get_bind. intros sa.
  destruct (d_state sa).
  - unfold update_last_header_inline.
    apply keeps_get_bind. intros ?. apply keeps_bind; [apply _|apply keeps_pmt_get; apply _|].
    intros ?. apply keeps_bind; [apply _|by apply no_advance_update_header|].
    intros ?. apply keeps_get_bind. intros ?.
    apply keeps_bind; [apply _|by apply no_advance_update_header|].
    intros ?. apply keeps_bind; [apply _|apply no_advance_on_stream|].
    intros ?. apply keeps_get_bind. intros ?.
    apply keeps_bind; [apply _|apply no_advance_write_header|].
    intros ?. apply no_advance_on_stream.
  - unfold update_last_header_detached.
    apply keeps_get_bind. intros ?. apply keeps_bind; [apply _|apply keeps_pmt_get; apply _|].
    intros ?. apply keeps_bind; [apply _|by apply no_advance_update_header|].
    intros ?. apply keeps_get_bind. intros ?.
    apply keeps_bind; [apply _|by apply no_advance_update_header|].
    intros ?. apply keeps_bind; [apply _|apply no_advance_on_stream|].
    intros ?. apply keeps_get_bind. intros ?.
    apply no_advance_write_header.
Qed.

Lemma no_advance_write_and_update key :
  keeps (no_advance key) write_and_update.
Proof.
  unfold write_and_update.
  apply keeps_bind; [apply _|by apply no_advance_update_header|].
  intros ?. apply keeps_get_bind. intros ?.
  apply keeps_bind; [apply _|by apply no_advance_update_header|].
  intros ?. apply keeps_get_bind. intros sa.
  destruct (d_state sa); apply no_advance_write_header.
Qed.

Lemma no_advance_apply_tag t : keeps (no_advance (key t)) (apply_tag t).
Proof.
  unfold apply_tag. apply keeps_get_bind. intros sa.
  destruct (0 <? d_total_seg_size sa).
  - apply keeps_bind; [apply _|apply no_advance_update_last_header|].
    intros ?. apply keeps_bind; [apply _|by apply no_advance_update_header|].
    intros ?. apply keeps_bind; [apply _|apply no_advance_write_and_update|].
    intros ? s. done.
  - apply keeps_bind; [apply _|by apply no_advance_update_header|].
    intros ?. apply no_advance_update_last_header.
Qed.


(** X5 — while a tag is being processed the timestamp is never advanced, and
    the header's [rx_time] field keeps its value unless the tag itself is
    keyed [rx_time]. *)
Theorem tags_never_advance_timestamp (t : gr_tag_t) (s : sink) :
  let s' := final_state (apply_tag t s) in
  advances s' = advances s ∧
  (key t ≠ "rx_time" → d_header s' !! "rx_time" = d_header s !! "rx_time").
Proof. apply no_advance_apply_tag. Qed.

(** X6 — every advance of the timestamp an object has ever made was computed
    from a segment that had just reached the size limit. *)
Theorem timestamp_advances_by_full_segments (s : sink) (n : Z) :
  reachable s →
  ev_update_rx_time n ∈ history s →
  n = d_max_seg_size s.
Proof.
  intros Hr Hin. destruct (reachable_seg_inv s Hr) as (_ & _ & t & Ht & Hs).
  destruct Hs as (_ & _ & _ & _ & Hh). rewrite Forall_forall in Hh.
  exact (Hh _ Hin).
Qed.

(** X7 — [update_rx_time] splits the elapsed time into whole seconds and a
    remainder: when the old fraction plus the segment's duration is a
    non-negative double below 2^64, the new fraction lies in [[0, 1)], the
    whole part is added to the seconds modulo 2^64, and the subtraction that
    yields the fraction is exact. *)
Theorem update_rx_time_fraction_in_unit (s : sink) (secs : Z) (fracs : float) :
  d_header s !! "rx_time" = Some (pmt_tuple [pmt_uint64 secs; pmt_double fracs]) →
  fits_uint64 (PrimFloat.add fracs
                 (elapsed (d_total_seg_size s) (d_samp_rate s)
                          (d_relative_rate s))) →
  ∃ s' secs' fracs',
    update_rx_time s = Ok tt s' ∧
    d_header s' !! "rx_time"
      = Some (pmt_tuple [pmt_uint64 secs'; pmt_double fracs']) ∧
    0 ≤ secs' < 2 ^ 64 ∧ in_unit fracs' ∧
    (∀ k, k ≠ "rx_time" → d_header s' !! k = d_header s !! k).
Proof.
  intros Hrx Hfit. eexists _, _, _. split; [by apply update_rx_time_unfold|].
  cbn [d_header note set_header]. split; [|split; [|split]].
  - rewrite lookup_insert_eq. reflexivity.
  - apply wrap64_range.
  - cbn [snd advanced]. by apply frac_in_unit.
  - intros k Hk. by rewrite lookup_insert_ne.
Qed.

(** *** Streams: consecutive writes, and writes in the middle *)

Lemma file_put_app (f : FILE) (a b : list byte) :
  0 ≤ f_pos f → file_put (file_put f a) b = file_put f (a ++ b).
Proof.
  intros Hpos. destruct a as [|x a]; [done|].
  destruct b as [|y b]; [by rewrite app_nil_r|].
  unfold file_put at 1 3. cbn [app]. unfold file_put.
  cbn [f_pos f_data].
  set (p := Z.to_nat (f_pos f)). set (old := f_data f).
  set (a' := x :: a). set (b' := y :: b).
  assert (Hp : Z.to_nat (f_pos f + Z.of_nat (length a')) = (p + length a')%nat)
    by (subst p; rewrite Z2Nat.inj_add, Nat2Z.id; lia).
  rewrite Hp.
  assert (Hlen : length (take p old ++ replicate (p - length old) x00) = p).
  { rewrite length_app, length_take, length_replicate. lia. }
  f_equal.
  - rewrite (app_assoc (take p old)).
    rewrite (app_assoc (take p old ++ _) a').
    rewrite take_app_length' by (rewrite length_app; lia).
    replace (p + length a' - length _)%nat with 0%nat
      by (rewrite !length_app, length_take, length_replicate; lia).
    cbn [replicate app]. rewrite <- !app_assoc. do 3 f_equal.
    assert (Hd : drop (p + length a' + length b')
                   (take p old ++ replicate (p - length old) x00 ++ a'
                      ++ drop (p + length a') old)
                 = drop (p + length (a' ++ b')) old).
    { rewrite <- drop_drop.
      rewrite (app_assoc (take p old)), (app_assoc (take p old ++ _) a').
      rewrite drop_app_length' by (rewrite length_app; lia).
      rewrite drop_drop, length_app. f_equal. lia. }
    rewrite Hd. reflexivity.
  - subst a' b'. cbn [length]. rewrite length_app. cbn [length]. lia.
Qed.

(** Writing [b'] in place of [b], with [r] behind it: when the lengths agree
    [r] stays where it is, and when [r] is empty a longer [b'] extends the
    file. *)
Lemma file_put_replace (a b b' r : list byte) :
  length b' = length b ∨ (r = [] ∧ (length b ≤ length b')%nat) →
  file_put (mk_FILE (a ++ b ++ r) (str_size a)) b'
  = mk_FILE (a ++ b' ++ r) (str_size a + str_size b').
Proof.
  intros [Hlen|[-> Hlen]]; [by apply file_put_over|].
  unfold file_put. destruct b' as [|x b'].
  - destruct b; [|simpl in Hlen; lia]. simpl. f_equal. unfold str_size. simpl. lia.
  - cbn [f_pos f_data]. unfold str_size. rewrite Nat2Z.id.
    rewrite take_app_length.
    replace (length a - length (a ++ b ++ []))%nat with 0%nat
      by (rewrite !length_app; lia).
    rewrite drop_ge by (rewrite !length_app; simpl in *; lia).
    reflexivity.
Qed.

(** *** [update_last_header_inline], step by step *)

Lemma update_last_header_inline_run (s : sink) (pre old pay : list byte) (hdrlen : Z) :
  let rec := record_bytes (finalised_header s) (d_extra s) in
  d_fp s = Some (at_end (pre ++ old ++ pay)) →
  strt_field (d_header s) = Some hdrlen →
  is_Some (d_header s !! "bytes") →
  str_size old = hdrlen →
  str_size pay = d_itemsize s * d_total_seg_size s →
  hdrlen + str_size pay < 2 ^ 63 →
  extra_in_sync s →
  str_size rec = hdrlen ∨ (pay = [] ∧ hdrlen ≤ str_size rec) →
  update_last_header_inline s
  = Ok tt (note (ev_write_header the_fp (finalised_header s) (d_extra s))
             (set_fp (Some (at_end (pre ++ rec ++ pay)))
                     (set_header (finalised_header s) s))).
Proof.
  intros rec Hfp Hstrt Hbytes Hold Hpay Hbound Hsync Hrec.
  pose proof (str_size_nonneg old). pose proof (str_size_nonneg pay).
  pose proof (str_size_nonneg pre).
  assert (Hseg : wrap64 (d_itemsize s * d_total_seg_size s) = str_size pay).
  { rewrite <- Hpay. apply wrap64_small. lia. }
  assert (Hk : d_header s !! "strt" = Some (pmt_uint64 hdrlen)).
  { revert Hstrt. unfold strt_field.
    destruct (d_header s !! "strt") as [[]|]; try done. by intros [= ->]. }
  unfold update_last_header_inline, bind at 1, get_sink at 1.
  unfold pmt_dict_ref. rewrite Hk. cbn [default from_option id pmt_to_uint64 pmt_get].
  unfold bind at 1, ret at 1.
  rewrite (bind_Ok _ _ _ tt
             (set_header (<["bytes" := pmt_uint64 (wrap64 (d_itemsize s * d_total_seg_size s))]>
                            (d_header s)) s)).
  2:{ rewrite update_header_store. rewrite bool_decide_eq_false_2 by done.
      unfold store, pmt_dict_has_key. by rewrite bool_decide_eq_true_2. }
  unfold bind at 1, get_sink at 1.
  rewrite (bind_Ok _ _ _ tt (set_header (finalised_header s) s)).
  2:{ rewrite update_header_store. rewrite bool_decide_eq_false_2 by done.
      unfold store, pmt_dict_has_key. cbn [d_header set_header].
      rewrite bool_decide_eq_true_2
        by (rewrite lookup_insert_ne by done; rewrite Hk; eauto).
      reflexivity. }
  rewrite Hseg.
  rewrite (bind_Ok _ _ _ tt
             (set_fp (Some (mk_FILE (pre ++ old ++ pay) (str_size pre)))
                     (set_header (finalised_header s) s))).
  2:{ unfold on_stream. cbn [get_stream d_fp set_header]. rewrite Hfp.
      cbn [set_stream]. do 3 f_equal.
      replace (- str_size pay - hdrlen) with (- (str_size pay + hdrlen)) by lia.
      rewrite to_long_opp by lia.
      unfold file_seek_cur, at_end. cbn [f_pos f_data].
      rewrite !str_size_app.
      destruct (Z.ltb_spec (str_size pre + (str_size old + str_size pay)
                            + - (str_size pay + hdrlen)) 0); [lia|].
      f_equal. lia. }
  unfold bind at 1, get_sink at 1. cbn [d_header d_extra set_fp set_header].
  rewrite (bind_Ok _ _ _ tt
             (note (ev_write_header the_fp (finalised_header s) (d_extra s))
                (set_fp (Some (mk_FILE (pre ++ rec ++ pay)
                                       (str_size pre + str_size rec)))
                        (set_header (finalised_header s) s)))).
  2:{ rewrite (write_header_same_extra _ _ _ _
                 (mk_FILE (pre ++ old ++ pay) (str_size pre))) by done.
      unfold set_stream, note, set_fp, set_header. cbn. do 3 f_equal.
      rewrite file_put_app by (cbn; lia).
      apply file_put_replace. fold rec. unfold str_size in *.
      destruct Hrec as [Hrec|[-> Hrec]]; [left|right; split; [done|]]; lia. }
  unfold on_stream. cbn [get_stream d_fp note set_fp set_stream].
  unfold note, set_fp, set_header. cbn. do 3 f_equal. rewrite to_long_small by lia.
  unfold file_seek_cur, at_end. cbn [f_pos f_data].
  destruct (Z.ltb_spec (str_size pre + str_size rec + str_size pay) 0); [lia|].
  f_equal. rewrite !str_size_app. lia.
Qed.

Lemma finalised_header_bytes s :
  bytes_field (finalised_header s)
  = Some (wrap64 (d_itemsize s * d_total_seg_size s)).
Proof.
  unfold bytes_field, finalised_header.
  rewrite lookup_insert_ne by done. by rewrite lookup_insert_eq.
Qed.

Lemma finalised_header_strt s :
  strt_field (finalised_header s)
  = Some (wrap64 (METADATA_HEADER_SIZE + d_extra_size s)).
Proof. unfold strt_field, finalised_header. by rewrite lookup_insert_eq. Qed.


(** *** [update_last_header_detached], step by step *)

Lemma update_last_header_detached_run (s : sink) (pre old : list byte) (hdrlen : Z) :
  let rec := record_bytes (finalised_header s) (d_extra s) in
  d_hdr_fp s = Some (at_end (pre ++ old)) →
  strt_field (d_header s) = Some hdrlen →
  is_Some (d_header s !! "bytes") →
  str_size old = hdrlen →
  hdrlen < 2 ^ 63 →
  extra_in_sync s →
  hdrlen ≤ str_size rec →
  update_last_header_detached s
  = Ok tt (note (ev_write_header the_hdr_fp (finalised_header s) (d_extra s))
             (set_hdr_fp (Some (at_end (pre ++ rec)))
                         (set_header (finalised_header s) s))).
Proof.
  intros rec Hfp Hstrt Hbytes Hold Hbound Hsync Hrec.
  pose proof (str_size_nonneg old). pose proof (str_size_nonneg pre).
  assert (Hk : d_header s !! "strt" = Some (pmt_uint64 hdrlen)).
  { revert Hstrt. unfold strt_field.
    destruct (d_header s !! "strt") as [[]|]; try done. by intros [= ->]. }
  unfold update_last_header_detached, bind at 1, get_sink at 1.
  unfold pmt_dict_ref. rewrite Hk. cbn [default from_option id pmt_to_uint64 pmt_get].
  unfold bind at 1, ret at 1.
  rewrite (bind_Ok _ _ _ tt
             (set_header (<["bytes" := pmt_uint64 (wrap64 (d_itemsize s * d_total_seg_size s))]>
                            (d_header s)) s)).
  2:{ rewrite update_header_store. rewrite bool_decide_eq_false_2 by done.
      unfold store, pmt_dict_has_key. by rewrite bool_decide_eq_true_2. }
  unfold bind at 1, get_sink at 1.
  rewrite (bind_Ok _ _ _ tt (set_header (finalised_header s) s)).
  2:{ rewrite update_header_store. rewrite bool_decide_eq_false_2 by done.
      unfold store, pmt_dict_has_key. cbn [d_header set_header].
      rewrite bool_decide_eq_true_2
        by (rewrite lookup_insert_ne by done; rewrite Hk; eauto).
      reflexivity. }
  rewrite (bind_Ok _ _ _ tt
             (set_hdr_fp (Some (mk_FILE (pre ++ old ++ []) (str_size pre)))
                         (set_header (finalised_header s) s))).
  2:{ unfold on_stream. cbn [get_stream d_hdr_fp set_header]. rewrite Hfp.
      cbn [set_stream]. do 3 f_equal.
      rewrite to_long_opp by lia.
      unfold file_seek_cur, at_end. cbn [f_pos f_data].
      rewrite !str_size_app.
      destruct (Z.ltb_spec (str_size pre + str_size old + - hdrlen) 0); [lia|].
      rewrite app_nil_r. f_equal. lia. }
  unfold bind at 1, get_sink at 1. cbn [d_header d_extra set_hdr_fp set_header].
  rewrite (write_header_same_extra _ _ _ _
             (mk_FILE (pre ++ old ++ []) (str_size pre))) by done.
  unfold set_stream, note, set_hdr_fp, set_header. cbn. do 3 f_equal.
  rewrite file_put_app by (cbn; lia).
  rewrite (file_put_replace pre old _ []).
  - unfold at_end. rewrite app_nil_r. f_equal. subst rec. unfold record_bytes.
    rewrite !str_size_app. lia.
  - right. split; [done|]. subst rec. unfold record_bytes, str_size in *. lia.
Qed.


(** An invariant that fixes the mode and is kept by the primitive steps on
    the header stream of that mode is kept by everything that maintains the
    header. *)
Section HeaderSide.
Variable Inv : sink → Prop.
Variable mode : layout_mode.
Hypothesis Inv_mode : ∀ s, Inv s → d_state s = mode.
Hypothesis Inv_update_header : ∀ k v, preserves Inv (update_header k v).
Hypothesis Inv_header_stream : ∀ f, preserves Inv (on_stream (stream_of mode) f).
Hypothesis Inv_note : ∀ ev s, Inv s → Inv (note ev s).
Hypothesis Inv_update_rx_time : preserves Inv update_rx_time.
Hypothesis Inv_total : ∀ n s, Inv s → Inv (set_total_seg_size n s).

Lemma header_side_write_header h e :
  preserves Inv (write_header (stream_of mode) h e).
Proof.
  unfold write_header. apply preserves_get. intros sa Hsa.
  destruct (_ && _); [apply preserves_throw|].
  apply preserves_bind; [apply Inv_header_stream|]. intros ?.
  apply preserves_bind; [apply Inv_header_stream|]. intros ?.
  apply preserves_modify. apply Inv_note.
Qed.

Lemma header_side_update_last_header : preserves Inv update_last_header.
Proof.
  unfold update_last_header. apply preserves_get. intros sa Hsa.
  rewrite (Inv_mode sa Hsa). pose proof Inv_header_stream as Hst.
  pose proof header_side_write_header as Hwh.
  destruct mode; cbn [stream_of] in Hst, Hwh.
  - unfold update_last_header_inline.
    apply preserves_get. intros ? ?.
    apply preserves_bind; [apply preserves_pmt_get|]. intros ?.
    apply preserves_bind; [apply Inv_update_header|]. intros ?.
    apply preserves_get. intros ? ?.
    apply preserves_bind; [apply Inv_update_header|]. intros ?.
    apply preserves_bind; [apply Hst|]. intros ?.
    apply preserves_get. intros ? ?.
    apply preserves_bind; [apply Hwh|]. intros ?.
    apply Hst.
  - unfold update_last_header_detached.
    apply preserves_get. intros ? ?.
    apply preserves_bind; [apply preserves_pmt_get|]. intros ?.
    apply preserves_bind; [apply Inv_update_header|]. intros ?.
    apply preserves_get. intros ? ?.
    apply preserves_bind; [apply Inv_update_header|]. intros ?.
    apply preserves_bind; [apply Hst|]. intros ?.
    apply preserves_get. intros ? ?.
    apply Hwh.
Qed.

Lemma header_side_write_and_update : preserves Inv write_and_update.
Proof.
  unfold write_and_update.
  apply preserves_bind; [apply Inv_update_header|]. intros ?.
  apply preserves_get. intros ? ?.
  apply preserves_bind; [apply Inv_update_header|]. intros ?.
  apply preserves_get. intros sa Hsa.
  rewrite (Inv_mode sa Hsa). pose proof header_side_write_header as Hwh.
  destruct mode; apply Hwh.
Qed.

Lemma header_side_start_next_segment : preserves Inv start_next_segment.
Proof.
  unfold start_next_segment.
  apply preserves_bind; [apply header_side_update_last_header|]. intros ?.
  apply preserves_bind; [apply Inv_update_rx_time|]. intros ?.
  apply preserves_bind; [apply header_side_write_and_update|]. intros ?.
  apply preserves_modify. apply Inv_total.
Qed.

Lemma header_side_apply_tag t : preserves Inv (apply_tag t).
Proof.
  unfold apply_tag. apply preserves_get. intros sa Hsa.
  destruct (0 <? d_total_seg_size sa).
  - apply preserves_bind; [apply header_side_update_last_header|]. intros ?.
    apply preserves_bind; [apply Inv_update_header|]. intros ?.
    apply preserves_bind; [apply header_side_write_and_update|]. intros ?.
    apply preserves_modify. apply Inv_total.
  - apply preserves_bind; [apply Inv_update_header|]. intros ?.
    apply header_side_update_last_header.
Qed.

End HeaderSide.

(** *** Detached mode: the data file holds payload only *)

Lemma items_app isz n c input :
  0 ≤ isz → 0 ≤ n → 0 ≤ c →
  items isz n input ++ take (Z.to_nat (c * isz)) (drop (Z.to_nat (n * isz)) input)
  = items isz (n + c) input.
Proof.
  intros. unfold items.
  replace (Z.to_nat ((n + c) * isz))
    with (Z.to_nat (n * isz) + Z.to_nat (c * isz))%nat by nia.
  by rewrite take_take_drop.
Qed.

Section Detached.
Variables (isz : Z) (d input : list byte).
Hypothesis isz_nonneg : 0 ≤ isz.

Local Abbreviation P n := (payload_at isz d input n).

Lemma payload_at_store n k v s : P n s → P n (store k v s).
Proof. unfold store. by destruct (pmt_dict_has_key _ _). Qed.

Lemma payload_at_update_header n k v : preserves (P n) (update_header k v).
Proof.
  intros s Hs. rewrite update_header_store.
  case_bool_decide; [|by apply payload_at_store].
  destruct (pmt_to_double v); [|done]. by apply payload_at_store.
Qed.

Lemma payload_at_update_rx_time n : preserves (P n) update_rx_time.
Proof.
  unfold update_rx_time. apply preserves_get. intros sa Hsa.
  apply preserves_bind; [apply preserves_pmt_get|]. intros ?.
  apply preserves_bind; [apply preserves_pmt_get|]. intros ?.
  apply preserves_bind; [apply preserves_pmt_get|]. intros ?.
  apply preserves_bind; [apply preserves_pmt_get|]. intros ?.
  apply preserves_bind; [|intros ?]; by apply preserves_modify.
Qed.

Lemma payload_at_header_stream n f :
  preserves (P n) (on_stream (stream_of STATE_DETACHED) f).
Proof. apply triple_on_stream; [|done]. by intros s fl Hs _. Qed.

Lemma payload_at_start_next_segment n : preserves (P n) start_next_segment.
Proof.
  apply (header_side_start_next_segment _ STATE_DETACHED); try done.
  - by intros s (? & _).
  - apply payload_at_update_header.
  - apply payload_at_header_stream.
  - apply payload_at_update_rx_time.
Qed.

Lemma payload_at_apply_tag n t : preserves (P n) (apply_tag t).
Proof.
  apply (header_side_apply_tag _ STATE_DETACHED); try done.
  - by intros s (? & _).
  - apply payload_at_update_header.
  - apply payload_at_header_stream.
Qed.

(** The data file after a payload loop: the input up to the loop's
    [nwritten] when it returns, up to some item when it throws. *)
Local Abbreviation ahead l :=
  (inbuf l = drop (Z.to_nat (nwritten l * isz)) input ∧ 0 ≤ nwritten l).

Lemma payload_at_payload_loop fuel before_tag limit l :
  ahead l →
  triple (P (nwritten l)) (payload_loop fuel before_tag limit l)
         (λ l' s, P (nwritten l') s ∧ ahead l')
         (λ s, ∃ n, P n s).
Proof.
  revert l. induction fuel as [|fuel IH]; intros l Hl; cbn [payload_loop];
    destruct (nwritten l <? limit).
  - apply triple_throw. eauto.
  - by apply triple_ret.
  - apply triple_get_bind. intros sa Hsa.
    set (count := fwrite_count _ l).
    assert (0 ≤ count) as Hc.
    { subst count. unfold fwrite_count. destruct (os_accepts l); [|lia].
      pose proof (wrap64_range (d_max_seg_size sa - d_total_seg_size sa)).
      pose proof (wrap64_range (limit - nwritten l)). lia. }
    destruct Hl as [Hbuf Hn].
    eapply triple_bind with (Q := λ _ s, P (nwritten l + count) s).
    { apply triple_on_stream; [|intros ? ->; eauto].
      intros s fl -> Hfl. destruct Hsa as (Hst & Hi & Hfp).
      split; [done|]. split; [done|]. cbn [d_fp set_stream set_fp].
      cbn [get_stream] in Hfl. rewrite Hfp in Hfl. injection Hfl as <-.
      f_equal. unfold at_end. rewrite file_put_end. rewrite <- app_assoc.
      rewrite Hi, Hbuf, items_app by done. reflexivity. }
    intros ?. destruct (Z.eqb_spec count 0) as [Hz|Hz].
    + apply triple_ret. intros s Hs. rewrite Hz, Z.add_0_r in Hs.
      cbn [nwritten inbuf]. by split.
    + set (l' := mk_locals _ _ _).
      assert (ahead l') as Hl'.
      { subst l'. cbn [inbuf nwritten]. split; [|lia].
        destruct Hsa as (_ & Hi & _). rewrite Hi, Hbuf, drop_drop. f_equal. nia. }
      eapply triple_bind with (Q := λ _ s, P (nwritten l') s).
      { apply triple_modify. by intros s (? & ? & ?). }
      intros ?. apply triple_get_bind. intros sb Hsb.
      eapply triple_bind with (Q := λ _ s, P (nwritten l') s).
      { eapply triple_pre with (P := P (nwritten l')); [by intros ? ->|].
        destruct (_ && _).
        - eapply triple_conseq;
            [apply (payload_at_start_next_segment (nwritten l'))|done|done|].
          cbn. eauto.
        - by apply triple_ret. }
      intros ?. by apply IH.
  - by apply triple_ret.
Qed.

Lemma payload_at_tag_loop abs_N ts l :
  ahead l →
  triple (P (nwritten l)) (tag_loop abs_N l ts)
         (λ l' s, P (nwritten l') s ∧ ahead l')
         (λ s, ∃ n, P n s).
Proof.
  revert l. induction ts as [|t ts IH]; intros l Hl; cbn [tag_loop].
  - by apply triple_ret.
  - eapply triple_bind with (Q := λ l' s, P (nwritten l') s ∧ ahead l');
      [|intros l'; apply triple_pre with (P := λ s, P (nwritten l') s ∧ ahead l')].
    + unfold tag_round, write_payload.
      eapply triple_bind; [by apply payload_at_payload_loop|].
      intros l'. cbn beta.
      eapply triple_bind with (Q := λ _ s, P (nwritten l') s ∧ ahead l').
      * intros s [Hs Hl']. pose proof (payload_at_apply_tag (nwritten l') t s Hs).
        destruct (apply_tag t s); eauto.
      * intros ?. by apply triple_ret.
    + done.
    + intros s [Hs Hl']. by apply IH.
Qed.
End Detached.

Lemma do_update_idle s : d_updated s = false → do_update s = Ok tt s.
Proof. intros H. unfold do_update, bind, get_sink. by rewrite H. Qed.

(** X10 — in detached mode the data file receives payload and nothing else.
    With the cursor at the end of the data file, a [work] call that returns
    [r] has appended exactly the first [r] items of its input buffer,
    whatever tags it processed, however many segments it closed and whatever
    the file system accepted; a call that throws has appended some whole
    number of items of the input. *)
Theorem detached_data_file_is_payload (s : sink) (d : list byte)
    (noutput_items : Z) (input_items : list byte) (nitems_read : Z)
    (tags : list gr_tag_t) (os_accepts : list Z) :
  d_state s = STATE_DETACHED →
  d_updated s = false →
  d_fp s = Some (at_end d) →
  0 ≤ d_itemsize s →
  (∀ r s',
     work noutput_items input_items nitems_read tags os_accepts s = Ok r s' →
     0 ≤ r ∧
     d_fp s' = Some (at_end (d ++ items (d_itemsize s) r input_items))) ∧
  (∀ e s',
     work noutput_items input_items nitems_read tags os_accepts s = Throw e s' →
     ∃ k, d_fp s' = Some (at_end (d ++ items (d_itemsize s) k input_items))).
Proof.
  intros Hst Hup Hfp Hisz.
  assert (triple (λ x, x = s)
            (work noutput_items input_items nitems_read tags os_accepts)
            (λ r s', 0 ≤ r ∧ payload_at (d_itemsize s) d input_items r s')
            (λ s', ∃ k, payload_at (d_itemsize s) d input_items k s')) as Hw.
  { unfold work. eapply triple_bind with (Q := λ _ x, x = s).
    { intros ? ->. by rewrite do_update_idle. }
    intros ?. apply triple_get_bind. intros ? ->. rewrite Hfp.
    set (l0 := mk_locals 0 input_items os_accepts).
    assert (payload_at (d_itemsize s) d input_items (nwritten l0) s) as H0.
    { split; [done|]. split; [done|]. rewrite Hfp. unfold items. cbn.
      by rewrite app_nil_r. }
    eapply triple_bind.
    { eapply triple_pre;
        [|apply (payload_at_tag_loop (d_itemsize s) d input_items Hisz)].
      - by intros ? ->.
      - done. }
    intros l. cbn beta. eapply triple_bind.
    { intros x [Hx Hl].
      exact (payload_at_payload_loop (d_itemsize s) d input_items Hisz _ _ _ l
               Hl x Hx). }
    intros l'. apply triple_ret. by intros x [Hx [_ Hl']]. }
  specialize (Hw s eq_refl). split.
  - intros r s' Hr. rewrite Hr in Hw. destruct Hw as [Hr0 (_ & _ & Hd)]. done.
  - intros e s' He. rewrite He in Hw. destruct Hw as [k (_ & _ & Hd)]. eauto.
Qed.

(** *** How far a call of [work] gets *)

Lemma to_int_small z : 0 ≤ z < 2 ^ 31 → to_int z = z.
Proof.
  intros. unfold to_int. rewrite Z.mod_small by lia.
  destruct (Z.ltb_spec z (2 ^ 31)); lia.
Qed.

(** A payload loop moves [nwritten] forward, and not beyond its limit. *)
Lemma payload_loop_progress fuel before_tag limit l :
  0 ≤ nwritten l → limit < 2 ^ 64 →
  triple (λ _, True) (payload_loop fuel before_tag limit l)
         (λ l' _, nwritten l ≤ nwritten l' ≤ Z.max (nwritten l) limit)
         (λ _, True).
Proof.
  revert l. induction fuel as [|fuel IH]; intros l Hn Hlim; cbn [payload_loop];
    destruct (Z.ltb_spec (nwritten l) limit) as [Hlt|Hge];
    try (apply triple_ret; intros; lia).
  - by apply triple_throw.
  - apply triple_get_bind. intros sa _.
    set (towrite := Z.min _ _). set (count := fwrite_count towrite l).
    assert (0 ≤ count ≤ limit - nwritten l) as Hc.
    { pose proof (wrap64_range (d_max_seg_size sa - d_total_seg_size sa)).
      pose proof (wrap64_small (limit - nwritten l)).
      pose proof (fwrite_count_range towrite l). subst count towrite. lia. }
    eapply triple_bind with (Q := λ _ _, True).
    { by apply triple_on_stream. }
    intros ?. destruct (count =? 0).
    + apply triple_ret. intros. cbn. lia.
    + eapply triple_bind with (Q := λ _ _, True); [by apply triple_modify|].
      intros ?. apply triple_get_bind. intros sb _.
      eapply triple_bind with (Q := λ _ _, True).
      { intros s _. by destruct (_ s). }
      intros ?. eapply triple_conseq; [apply IH| | |]; cbn; try done; try lia.
Qed.

Lemma tag_loop_progress abs_N n ts l :
  0 ≤ nwritten l ≤ n → 0 ≤ n < 2 ^ 31 →
  Forall (λ t, abs_N ≤ offset t < abs_N + n) ts →
  triple (λ _, True) (tag_loop abs_N l ts)
         (λ l' _, 0 ≤ nwritten l' ≤ n) (λ _, True).
Proof.
  intros Hl Hn Hts. revert l Hl.
  induction Hts as [|t ts Ht Hts IH]; intros l Hl; cbn [tag_loop].
  - by apply triple_ret.
  - eapply triple_bind with (Q := λ l' _, 0 ≤ nwritten l' ≤ n).
    + unfold tag_round, write_payload.
      eapply triple_bind.
      { apply payload_loop_progress; [lia|].
        rewrite wrap64_small, to_int_small by lia. lia. }
      intros l'. cbn beta. rewrite wrap64_small, to_int_small by lia.
      eapply triple_bind with (Q := λ _ _, nwritten l ≤ nwritten l'
                                     ≤ Z.max (nwritten l) (offset t - abs_N)).
      { intros s Hs. by destruct (apply_tag t s). }
      intros ?. apply triple_ret. intros; lia.
    + intros l'. intros s Hs. by apply IH.
Qed.

(** X11 — [work] never reports more items than it was offered, nor a
    negative number, whatever the tags and whatever the file system does
    (for a call within the range of [int] and of the 64-bit item counter). *)
Theorem work_consumes_at_most_offered (s s' : sink)
    (noutput_items : Z) (input_items : list byte) (nitems_read : Z)
    (tags : list gr_tag_t) (os_accepts : list Z) (r : Z) :
  0 ≤ noutput_items < 2 ^ 31 →
  0 ≤ nitems_read →
  nitems_read + noutput_items < 2 ^ 64 →
  work noutput_items input_items nitems_read tags os_accepts s = Ok r s' →
  0 ≤ r ≤ noutput_items.
Proof.
  intros Hn Habs Hend Hw.
  assert (triple (λ _, True)
            (work noutput_items input_items nitems_read tags os_accepts)
            (λ r _, 0 ≤ r ≤ noutput_items) (λ _, True)) as Ht.
  { unfold work. eapply triple_bind with (Q := λ _ _, True).
    { intros x _. by rewrite do_update_Ok. }
    intros ?. apply triple_get_bind. intros sa _.
    destruct (d_fp sa); [|apply triple_ret; intros; lia].
    eapply triple_bind.
    { eapply triple_pre; [|apply (tag_loop_progress _ noutput_items)];
        [done|cbn; lia|done|].
      unfold get_tags_in_range. rewrite wrap64_small by lia.
      apply Forall_forall. intros t Ht. by apply list_elem_of_filter in Ht as [? _]. }
    intros l x Hx. cbn beta in Hx.
    pose proof (payload_loop_progress (Z.to_nat (noutput_items - nwritten l))
                  false noutput_items l ltac:(lia) ltac:(lia) x I) as Hp.
    unfold bind, write_payload, ret.
    destruct (payload_loop _ _ _ _ x); [lia|done]. }
  specialize (Ht s I). rewrite Hw in Ht. exact Ht.
Qed.

(** *** Inline mode without tags: the layout of the file *)

Lemma fixed_width_insert (h : pmt_dict) k v v' :
  fixed_width → h !! k = Some v → pmt_shape v' = pmt_shape v →
  str_size (pmt_serialize_str (<[k := v']> h)) = str_size (pmt_serialize_str h).
Proof.
  intros Hfw Hk Hv. apply Hfw. rewrite fmap_insert, Hv.
  apply insert_id. by rewrite lookup_fmap, Hk.
Qed.

Lemma file_of_snoc gs g : file_of (gs ++ [g]) = file_of gs ++ segment_bytes g.
Proof.
  unfold file_of. rewrite fmap_app, concat_app. cbn. by rewrite app_nil_r.
Qed.

Lemma payload_of_snoc gs g : payload_of (gs ++ [g]) = payload_of gs ++ seg_payload g.
Proof.
  unfold payload_of. rewrite fmap_app, concat_app. cbn. by rewrite app_nil_r.
Qed.

Lemma header_fit_record_size s :
  header_fit s →
  str_size (record_bytes (d_header s) (d_extra s))
  = METADATA_HEADER_SIZE + d_extra_size s.
Proof.
  intros (Hh & He & _). unfold record_bytes. rewrite str_size_app, Hh.
  unfold extra_in_sync in He. lia.
Qed.

Lemma header_fit_finalised s :
  fixed_width → header_fit s →
  0 ≤ d_total_seg_size s ≤ d_max_seg_size s →
  finalised_header s
  = <["strt" := pmt_uint64 (METADATA_HEADER_SIZE + d_extra_size s)]>
      (<["bytes" := pmt_uint64 (d_itemsize s * d_total_seg_size s)]> (d_header s)) ∧
  str_size (pmt_serialize_str (finalised_header s)) = METADATA_HEADER_SIZE.
Proof.
  intros Hfw Hfit Ht. pose proof (header_fit_record_size s Hfit) as Hrec.
  destruct Hfit as (Hh & He & Hstrt & [b Hb] & _ & Hi & Hm & Hbound).
  pose proof (str_size_nonneg (record_bytes (d_header s) (d_extra s))).
  unfold finalised_header.
  rewrite (wrap64_small (_ + _)) by lia.
  rewrite (wrap64_small (_ * _)) by nia.
  split; [done|].
  rewrite (fixed_width_insert _ _ (pmt_uint64 (METADATA_HEADER_SIZE + d_extra_size s)))
    by (done || by rewrite lookup_insert_ne).
  by rewrite (fixed_width_insert _ _ (pmt_uint64 b)).
Qed.

Lemma write_and_update_inline_run (s : sink) (x : list byte) :
  d_state s = STATE_INLINE →
  d_fp s = Some (at_end x) →
  extra_in_sync s →
  is_Some (d_header s !! "bytes") → is_Some (d_header s !! "strt") →
  write_and_update s
  = Ok tt (note (ev_write_header the_fp (fresh_header s) (d_extra s))
             (set_fp (Some (at_end (x ++ record_bytes (fresh_header s) (d_extra s))))
                     (set_header (fresh_header s) s))).
Proof.
  intros Hst Hfp Hsync Hb Hs.
  unfold write_and_update.
  rewrite (bind_Ok _ _ _ tt (set_header (<["bytes" := pmt_uint64 0]> (d_header s)) s)).
  2:{ rewrite update_header_store. rewrite bool_decide_eq_false_2 by done.
      unfold store, pmt_dict_has_key. by rewrite bool_decide_eq_true_2. }
  unfold bind at 1, get_sink at 1.
  rewrite (bind_Ok _ _ _ tt (set_header (fresh_header s) s)).
  2:{ rewrite update_header_store. rewrite bool_decide_eq_false_2 by done.
      unfold store, pmt_dict_has_key. cbn [d_header set_header].
      rewrite bool_decide_eq_true_2 by (by rewrite lookup_insert_ne).
      reflexivity. }
  unfold bind at 1, get_sink at 1. cbn [d_state set_header]. rewrite Hst.
  cbn [d_header d_extra set_header].
  rewrite (write_header_same_extra _ _ _ _ (at_end x)) by done.
  unfold set_stream, note, set_fp, set_header. cbn. do 3 f_equal.
  unfold at_end. rewrite !file_put_end. unfold record_bytes.
  by rewrite <- !app_assoc.
Qed.

(** The kinds of the header's fields, and what depends on them only. *)

Lemma kinds_insert (h : pmt_dict) k v old :
  h !! k = Some old → pmt_shape v = pmt_shape old →
  pmt_shape <$> <[k := v]> h = pmt_shape <$> h.
Proof.
  intros Hk Hv. rewrite fmap_insert, Hv. apply insert_id.
  by rewrite lookup_fmap, Hk.
Qed.

Lemma kinds_lookup (h h' : pmt_dict) k v :
  pmt_shape <$> h' = pmt_shape <$> h → h !! k = Some v →
  ∃ v', h' !! k = Some v' ∧ pmt_shape v' = pmt_shape v.
Proof.
  intros Hk Hv.
  assert (H : (pmt_shape <$> h') !! k = Some (pmt_shape v))
    by (by rewrite Hk, lookup_fmap, Hv).
  rewrite lookup_fmap in H. destruct (h' !! k) as [v'|]; [|done].
  exists v'. split; [done|]. by injection H.
Qed.

Lemma shape_uint64 v z :
  pmt_shape v = pmt_shape (pmt_uint64 z) → ∃ z', v = pmt_uint64 z'.
Proof. destruct v; try done. eauto. Qed.

Lemma shape_pair v a b :
  pmt_shape v = pmt_shape (pmt_tuple [pmt_uint64 a; pmt_double b]) →
  ∃ a' b', v = pmt_tuple [pmt_uint64 a'; pmt_double b'].
Proof.
  destruct v as [| | | | | | |elts]; try done. cbn. intros [= H].
  destruct elts as [|x [|y [|? ?]]]; try done. cbn in H.
  injection H as Hx Hy. destruct x; try done. destruct y; try done. eauto.
Qed.

(** Whether the header in memory can be rewritten in place depends on the
    kinds of its fields and on its [strt] field only. *)
Lemma header_fit_kinds s s' :
  fixed_width → header_fit s →
  pmt_shape <$> d_header s' = pmt_shape <$> d_header s →
  d_header s' !! "strt"
    = Some (pmt_uint64 (METADATA_HEADER_SIZE + d_extra_size s)) →
  d_extra s' = d_extra s → d_extra_size s' = d_extra_size s →
  d_itemsize s' = d_itemsize s → d_max_seg_size s' = d_max_seg_size s →
  header_fit s'.
Proof.
  intros Hfw (Hh & He & Hstrt & [b Hb] & (secs & fracs & Hrx) & Hi & Hm & Hbound)
    Hk Hs' Hex Hes Hit Hmx.
  unfold header_fit, extra_in_sync in *. rewrite Hex, Hes, Hit, Hmx.
  split; [by rewrite (Hfw _ _ Hk)|]. split; [done|]. split; [done|].
  split; [|split; [|done]].
  - destruct (kinds_lookup _ _ _ _ Hk Hb) as (v & Hv & Hsh).
    destruct (shape_uint64 _ _ Hsh) as [z ->]. eauto.
  - destruct (kinds_lookup _ _ _ _ Hk Hrx) as (v & Hv & Hsh).
    destruct (shape_pair _ _ _ Hsh) as (a & b' & ->). eauto.
Qed.

Lemma finalised_kinds s :
  header_fit s → pmt_shape <$> finalised_header s = pmt_shape <$> d_header s.
Proof.
  intros (_ & _ & Hstrt & [b Hb] & _). unfold finalised_header.
  rewrite (kinds_insert _ _ _ (pmt_uint64 (METADATA_HEADER_SIZE + d_extra_size s)))
    by (done || by rewrite lookup_insert_ne).
  by rewrite (kinds_insert _ _ _ (pmt_uint64 b)).
Qed.

Lemma fresh_kinds s :
  header_fit s → pmt_shape <$> fresh_header s = pmt_shape <$> d_header s.
Proof.
  intros (_ & _ & Hstrt & [b Hb] & _). unfold fresh_header.
  rewrite (kinds_insert _ _ _ (pmt_uint64 (METADATA_HEADER_SIZE + d_extra_size s)))
    by (done || by rewrite lookup_insert_ne).
  by rewrite (kinds_insert _ _ _ (pmt_uint64 b)).
Qed.
(** [update_last_header] over a record [old] of the right length, the header
    in memory possibly newer than the one on disk. *)
Lemma finalise_inline gs pay old s :
  fixed_width → d_state s = STATE_INLINE → header_fit s →
  d_fp s = Some (at_end (file_of gs ++ old ++ pay)) →
  str_size old = METADATA_HEADER_SIZE + d_extra_size s →
  Forall counted gs →
  str_size pay = d_itemsize s * d_total_seg_size s →
  0 ≤ d_total_seg_size s ≤ d_max_seg_size s →
  let s' := note (ev_write_header the_fp (finalised_header s) (d_extra s))
              (set_fp (Some (at_end (file_of gs
                                     ++ record_bytes (finalised_header s) (d_extra s)
                                     ++ pay)))
                      (set_header (finalised_header s) s)) in
  update_last_header s = Ok tt s' ∧ inline_layout gs pay s' ∧
  bytes_field (d_header s') = Some (str_size pay).
Proof.
  intros Hfw Hst Hfit Hfp Hold Hgs Hpay Ht s'.
  destruct (header_fit_finalised s Hfw Hfit Ht) as [Hfin Hfinsz].
  pose proof Hfit as (Hh & He & Hstrt & [b Hb] & _ & Hi & Hm & Hbound).
  pose proof (str_size_nonneg old).
  split; [|split].
  - unfold update_last_header, bind, get_sink. rewrite Hst.
    apply (update_last_header_inline_run s (file_of gs) old pay
             (METADATA_HEADER_SIZE + d_extra_size s)).
    + exact Hfp.
    + unfold strt_field. by rewrite Hstrt.
    + by rewrite Hb.
    + exact Hold.
    + exact Hpay.
    + nia.
    + exact He.
    + left. unfold record_bytes. rewrite str_size_app, Hfinsz.
      unfold extra_in_sync in He. lia.
  - split; [exact Hst|]. split; [|split; [reflexivity|done]].
    apply (header_fit_kinds s); try done.
    + by apply finalised_kinds.
    + cbn [s' d_header note set_fp set_header]. rewrite Hfin.
      by rewrite lookup_insert_eq.
  - cbn [s' d_header note set_fp set_header].
    rewrite finalised_header_bytes, wrap64_small by nia. by rewrite Hpay.
Qed.

(** [write_and_update] at the end of a file of whole segments opens an empty
    one. *)
Lemma write_and_update_inline_layout gs s :
  fixed_width → d_state s = STATE_INLINE → header_fit s →
  d_fp s = Some (at_end (file_of gs)) → Forall counted gs →
  0 ≤ d_total_seg_size s ≤ d_max_seg_size s →
  ∃ s', write_and_update s = Ok tt s' ∧
        inline_layout gs [] (set_total_seg_size 0 s') ∧
        pmt_shape <$> d_header s' = pmt_shape <$> d_header s ∧
        d_updated s' = d_updated s ∧ d_itemsize s' = d_itemsize s ∧
        d_max_seg_size s' = d_max_seg_size s.
Proof.
  intros Hfw Hst Hfit Hfp Hgs Ht.
  pose proof Hfit as (Hh & He & Hstrt & [b Hb] & _ & Hi & Hm & Hbound).
  pose proof (str_size_nonneg (pmt_serialize_str (d_extra s))).
  assert (H3 := write_and_update_inline_run s (file_of gs) Hst Hfp He
                  ltac:(rewrite Hb; eauto) ltac:(rewrite Hstrt; eauto)).
  eexists. split; [exact H3|]. split; [|split; [|done]].
  - split; [exact Hst|]. split; [|split; [|split; [done|split]]].
    + apply (header_fit_kinds s); try done.
      * by apply fresh_kinds.
      * cbn. unfold fresh_header. rewrite lookup_insert_eq.
        rewrite wrap64_small; [done|]. unfold extra_in_sync in He.
        pose proof (str_size_nonneg (pmt_serialize_str (d_header s))).
        cbn [d_extra_size set_header]. nia.
    + cbn. by rewrite app_nil_r.
    + cbn. unfold str_size. cbn. lia.
    + cbn. lia.
  - cbn. by apply fresh_kinds.
Qed.

Lemma inline_layout_whole gs pay s :
  inline_layout gs pay s → bytes_field (d_header s) = Some (str_size pay) →
  let g := mk_segment (d_header s) (d_extra s) pay in
  d_fp s = Some (at_end (file_of (gs ++ [g]))) ∧ Forall counted (gs ++ [g]).
Proof.
  intros (Hst & Hfit & Hfp & Hgs & Hpay & Ht) Hb g. split.
  - rewrite Hfp, file_of_snoc. reflexivity.
  - apply Forall_app. split; [done|]. by apply Forall_singleton.
Qed.

Lemma start_next_segment_inline_kinds gs pay s :
  fixed_width → inline_layout gs pay s →
  ∃ s', start_next_segment s = Ok tt s' ∧
        inline_layout (gs ++ [mk_segment (finalised_header s) (d_extra s) pay]) [] s' ∧
        pmt_shape <$> d_header s' = pmt_shape <$> d_header s ∧
        d_total_seg_size s' = 0 ∧
        d_updated s' = d_updated s ∧ d_itemsize s' = d_itemsize s ∧
        d_max_seg_size s' = d_max_seg_size s.
Proof.
  intros Hfw Hlay. pose proof Hlay as (Hst & Hfit & Hfp & Hgs & Hpay & Ht).
  destruct (finalise_inline gs pay _ s Hfw Hst Hfit Hfp
              (header_fit_record_size s Hfit) Hgs Hpay Ht) as (H1 & Hlay1 & Hb1).
  set (s1 := note _ _) in H1, Hlay1, Hb1.
  destruct (inline_layout_whole gs pay s1 Hlay1 Hb1) as [Hfp1 Hgs1].
  pose proof Hlay1 as (_ & Hfit1 & _).
  pose proof Hfit1 as (_ & _ & Hstrt1 & _ & (secs & fracs & Hrx1) & _).
  pose proof (update_rx_time_unfold s1 secs fracs Hrx1) as H2.
  set (s2 := note _ _) in H2.
  assert (Hk2 : pmt_shape <$> d_header s2 = pmt_shape <$> d_header s1).
  { cbn [s2 d_header note set_header].
    by apply (kinds_insert _ _ _ (pmt_tuple [pmt_uint64 secs; pmt_double fracs])). }
  assert (Hfit2 : header_fit s2).
  { apply (header_fit_kinds s1); try done.
    cbn [s2 d_header note set_header]. by rewrite lookup_insert_ne. }
  destruct (write_and_update_inline_layout _ s2 Hfw Hst Hfit2 Hfp1 Hgs1 Ht)
    as (s3 & H3 & Hlay3 & Hk3 & Hu3 & Hi3 & Hm3).
  exists (set_total_seg_size 0 s3). split.
  - unfold start_next_segment.
    rewrite (bind_Ok _ _ _ _ _ H1), (bind_Ok _ _ _ _ _ H2), (bind_Ok _ _ _ _ _ H3).
    reflexivity.
  - split; [exact Hlay3|]. split; [|done].
    cbn [d_header set_total_seg_size]. rewrite Hk3, Hk2.
    by apply finalised_kinds.
Qed.

Lemma start_next_segment_inline (gs : list segment) (pay : list byte) (s : sink) :
  fixed_width → inline_layout gs pay s →
  ∃ s', start_next_segment s = Ok tt s' ∧
        inline_layout (gs ++ [mk_segment (finalised_header s) (d_extra s) pay]) [] s' ∧
        d_total_seg_size s' = 0 ∧
        d_updated s' = d_updated s ∧ d_itemsize s' = d_itemsize s ∧
        d_max_seg_size s' = d_max_seg_size s.
Proof.
  intros Hfw Hlay.
  destruct (start_next_segment_inline_kinds gs pay s Hfw Hlay)
    as (s' & Hr & Hlay' & _ & Hrest).
  by exists s'.
Qed.

(** A payload write at the end of the file lengthens the segment being
    filled. *)
Lemma inline_layout_put gs pay chunk c s :
  inline_layout gs pay s →
  str_size chunk = c * d_itemsize s → 0 ≤ c →
  d_total_seg_size s + c ≤ d_max_seg_size s →
  inline_layout gs (pay ++ chunk)
    (set_total_seg_size (d_total_seg_size s + c)
       (set_fp (Some (file_put (at_end (file_of gs
                                        ++ record_bytes (d_header s) (d_extra s)
                                        ++ pay)) chunk)) s)).
Proof.
  intros (Hst & Hfit & Hfp & Hgs & Hpay & Ht) Hchunk Hc Hmax.
  split; [exact Hst|]. split; [exact Hfit|]. split; [|split; [done|split]].
  - cbn. unfold at_end. rewrite file_put_end. by rewrite <- !app_assoc.
  - cbn. rewrite str_size_app, Hpay, Hchunk. lia.
  - cbn. lia.
Qed.

Lemma payload_loop_done fuel before_tag limit l s :
  limit ≤ nwritten l → payload_loop fuel before_tag limit l s = Ok l s.
Proof.
  intros Hn. destruct fuel; cbn [payload_loop];
    (destruct (Z.ltb_spec (nwritten l) limit); [lia|reflexivity]).
Qed.

(** The payload loops and the tag-free [work], for any layout [L] of segments
    over the streams that a payload write extends and a change of segment
    carries on. *)
Section LayoutRun.
Variable L : list segment → list byte → sink → Prop.
Hypothesis L_sizes : ∀ gs pay s, L gs pay s →
  0 ≤ d_itemsize s ∧ 0 < d_max_seg_size s < 2 ^ 64 ∧
  0 ≤ d_total_seg_size s ≤ d_max_seg_size s ∧
  str_size pay = d_itemsize s * d_total_seg_size s.
Hypothesis L_put : ∀ gs pay s chunk c,
  L gs pay s → str_size chunk = c * d_itemsize s → 0 ≤ c →
  d_total_seg_size s + c ≤ d_max_seg_size s →
  ∃ f, d_fp s = Some f ∧
       L gs (pay ++ chunk)
         (set_total_seg_size (d_total_seg_size s + c)
            (set_fp (Some (file_put f chunk)) s)).
Hypothesis L_next : ∀ gs pay s,
  L gs pay s →
  ∃ s', start_next_segment s = Ok tt s' ∧
        L (gs ++ [mk_segment (finalised_header s) (d_extra s) pay]) [] s' ∧
        d_total_seg_size s' = 0 ∧
        d_updated s' = d_updated s ∧ d_itemsize s' = d_itemsize s ∧
        d_max_seg_size s' = d_max_seg_size s.

Lemma payload_loop_layout fuel before_tag limit l gs pay s :
  L gs pay s →
  d_total_seg_size s < d_max_seg_size s →
  os_accepts l = [] →
  0 ≤ nwritten l ≤ limit → limit < 2 ^ 64 →
  (limit - nwritten l) * d_itemsize s ≤ str_size (inbuf l) →
  limit - nwritten l ≤ Z.of_nat fuel →
  ∃ l' s' new pay',
    payload_loop fuel before_tag limit l s = Ok l' s' ∧
    nwritten l' = limit ∧ os_accepts l' = [] ∧
    inbuf l' = drop (Z.to_nat ((limit - nwritten l) * d_itemsize s)) (inbuf l) ∧
    L (gs ++ new) pay' s' ∧
    Forall (holds_items (d_itemsize s) (d_max_seg_size s)) new ∧
    (before_tag = false → d_total_seg_size s' < d_max_seg_size s') ∧
    payload_of (gs ++ new) ++ pay'
    = payload_of gs ++ pay
      ++ take (Z.to_nat ((limit - nwritten l) * d_itemsize s)) (inbuf l) ∧
    d_updated s' = d_updated s ∧ d_itemsize s' = d_itemsize s ∧
    d_max_seg_size s' = d_max_seg_size s.
Proof.
  revert l gs pay s.
  induction fuel as [|fuel IH];
    intros l gs pay s Hlay Hlt Hos Hn Hlim Hbuf Hfuel;
    cbn [payload_loop]; destruct (Z.ltb_spec (nwritten l) limit) as [Hnl|Hnl];
    try lia;
    try (exists l, s, [], pay; replace (limit - nwritten l) with 0 by lia;
         rewrite Z.mul_0_l; cbn [Z.to_nat]; rewrite drop_0, take_0, !app_nil_r;
         split; [reflexivity|]; split; [lia|]; done).
  destruct (L_sizes _ _ _ Hlay) as (Hi & Hm & Ht & Hpay).
  unfold bind at 1, get_sink at 1.
  rewrite (wrap64_small (d_max_seg_size s - d_total_seg_size s)) by lia.
  rewrite (wrap64_small (limit - nwritten l)) by lia.
  unfold fwrite_count. rewrite Hos. cbn [tail].
  set (c := Z.min (d_max_seg_size s - d_total_seg_size s) (limit - nwritten l)).
  assert (0 < c ≤ limit - nwritten l) as Hc by lia.
  set (chunk := take (Z.to_nat (c * d_itemsize s)) (inbuf l)).
  assert (Hchunk : str_size chunk = c * d_itemsize s).
  { subst chunk. unfold str_size in *. rewrite length_take. nia. }
  destruct (L_put gs pay s chunk c Hlay Hchunk ltac:(lia) ltac:(lia))
    as (f & Hfp & Hlay2).
  set (s1 := set_fp (Some (file_put f chunk)) s) in *.
  rewrite (bind_Ok _ _ _ tt s1) by (unfold on_stream; cbn; by rewrite Hfp).
  destruct (Z.eqb_spec c 0) as [?|_]; [lia|].
  unfold bind at 1, modify at 1. unfold bind at 1, get_sink at 1.
  change (d_total_seg_size s1) with (d_total_seg_size s).
  rewrite (wrap64_small (d_total_seg_size s + c)) by lia.
  set (s2 := set_total_seg_size _ s1) in *.
  set (l' := mk_locals _ _ _).
  change (d_total_seg_size s2) with (d_total_seg_size s + c).
  change (d_max_seg_size s2) with (d_max_seg_size s).
  assert (Htake : chunk ++ take (Z.to_nat ((limit - nwritten l') * d_itemsize s))
                                (inbuf l')
                  = take (Z.to_nat ((limit - nwritten l) * d_itemsize s)) (inbuf l)).
  { subst chunk l'. cbn [nwritten inbuf]. rewrite take_take_drop. f_equal. nia. }
  assert (Hdrop : drop (Z.to_nat ((limit - nwritten l') * d_itemsize s)) (inbuf l')
                  = drop (Z.to_nat ((limit - nwritten l) * d_itemsize s)) (inbuf l)).
  { subst l'. cbn [nwritten inbuf]. rewrite drop_drop. f_equal. nia. }
  assert (Hbuf' : (limit - nwritten l') * d_itemsize s ≤ str_size (inbuf l')).
  { subst l'. cbn [nwritten inbuf]. unfold str_size in *. rewrite length_drop. nia. }
  assert (Hnw' : nwritten l' = nwritten l + c) by reflexivity.
  destruct (Z.eqb_spec (d_total_seg_size s + c) (d_max_seg_size s)) as [Hfull|Hnot];
    [destruct (negb before_tag || (nwritten l' <? limit)) eqn:Hgo|]; cbn [andb].
  - (* the segment is full and the loop goes on: a new segment *)
    destruct (L_next gs (pay ++ chunk) s2 Hlay2)
      as (s3 & H3 & Hlay3 & Ht3 & Hu3 & Hi3 & Hm3).
    rewrite (bind_Ok _ _ _ _ _ H3).
    destruct (IH l' _ [] s3 Hlay3)
      as (l'' & s'' & new & pay'' & Hrun & Hnw & Hos'' & Hin'' & Hlay'' & Hfl''
          & Hlt'' & Hp'' & Hu'' & Hi'' & Hm'').
    + rewrite Ht3, Hm3. cbn. lia.
    + done.
    + lia.
    + done.
    + by rewrite Hi3.
    + lia.
    + exists l'', s'', (mk_segment (finalised_header s2) (d_extra s2) (pay ++ chunk) :: new), pay''.
      rewrite Hi3 in *. change (d_itemsize s2) with (d_itemsize s) in *.
      rewrite Hm3 in *. change (d_max_seg_size s2) with (d_max_seg_size s) in *.
      rewrite <- app_assoc in Hlay'', Hp''. cbn [app] in Hlay'', Hp''.
      split; [exact Hrun|]. split; [exact Hnw|]. split; [exact Hos''|].
      split; [by rewrite Hin''|]. split; [exact Hlay''|].
      split; [|split; [exact Hlt''|split; [|by rewrite Hu'', Hu3, Hi'', Hm'']]].
      * apply Forall_cons. split; [|done]. unfold holds_items. cbn [seg_payload].
        destruct (L_sizes _ _ _ Hlay2) as (_ & _ & _ & Hsz2). rewrite Hsz2.
        change (d_itemsize s2) with (d_itemsize s).
        change (d_total_seg_size s2) with (d_total_seg_size s + c). by rewrite Hfull.
      * rewrite Hp'', payload_of_snoc. cbn [seg_payload app].
        rewrite <- !app_assoc. by rewrite Htake.
  - (* the segment is full at the position of the tag: the loop ends *)
    apply orb_false_elim in Hgo as [Hbt Hend].
    apply negb_false_iff in Hbt. apply Z.ltb_ge in Hend.
    unfold bind at 1, ret at 1. rewrite payload_loop_done by done.
    exists l', s2, [], (pay ++ chunk). rewrite !app_nil_r.
    replace ((limit - nwritten l) * d_itemsize s) with (c * d_itemsize s)
      by (f_equal; lia).
    split; [reflexivity|]. split; [lia|]. split; [done|]. split; [done|].
    split; [done|]. split; [done|]. split; [by rewrite Hbt|].
    split; [by rewrite <- ?app_assoc|done].
  - unfold bind at 1, ret at 1.
    destruct (IH l' gs (pay ++ chunk) s2 Hlay2)
      as (l'' & s'' & new & pay'' & Hrun & Hnw & Hos'' & Hin'' & Hlay'' & Hfl''
          & Hlt'' & Hp'' & Hu'' & Hi'' & Hm'').
    + cbn. lia.
    + done.
    + lia.
    + done.
    + done.
    + lia.
    + exists l'', s'', new, pay''.
      change (d_itemsize s2) with (d_itemsize s) in *.
      change (d_max_seg_size s2) with (d_max_seg_size s) in *.
      split; [exact Hrun|]. split; [exact Hnw|]. split; [exact Hos''|].
      split; [by rewrite Hin''|]. split; [exact Hlay''|].
      split; [exact Hfl''|]. split; [exact Hlt''|].
      split; [|by rewrite Hu'', Hi'', Hm''].
      rewrite Hp'', <- !app_assoc. by rewrite Htake.
Qed.

Lemma work_layout_run (gs : list segment) (pay : list byte) (s : sink)
    (n : Z) (input : list byte) (nitems_read : Z) :
  L gs pay s →
  d_total_seg_size s < d_max_seg_size s → d_updated s = false →
  0 ≤ n < 2 ^ 64 → str_size input = n * d_itemsize s →
  ∃ s' new pay',
    work n input nitems_read [] [] s = Ok n s' ∧
    L (gs ++ new) pay' s' ∧
    Forall (holds_items (d_itemsize s) (d_max_seg_size s)) new ∧
    d_total_seg_size s' < d_max_seg_size s' ∧ d_updated s' = false ∧
    d_itemsize s' = d_itemsize s ∧ d_max_seg_size s' = d_max_seg_size s ∧
    payload_of (gs ++ new) ++ pay' = payload_of gs ++ pay ++ input.
Proof.
  intros Hlay Hlt Hup Hn Hin.
  destruct (L_sizes _ _ _ Hlay) as (Hi & _).
  destruct (L_put gs pay s [] 0 Hlay ltac:(unfold str_size; cbn; lia)
              ltac:(lia) ltac:(lia)) as (f & Hfp & _).
  set (l0 := mk_locals 0 input []).
  destruct (payload_loop_layout (Z.to_nat (n - nwritten l0)) false n l0 gs pay s)
    as (l' & s' & new & pay' & Hrun & Hnw & _ & _ & Hlay' & Hfl' & Hlt' & Hp'
        & Hu' & Hi' & Hm');
    try done; cbn [l0 nwritten inbuf]; try lia.
  exists s', new, pay'.
  split; [|split; [done|split; [done|split; [by apply Hlt'|split; [congruence|split; [done|split; [done|]]]]]]].
  - unfold work. rewrite (bind_Ok _ _ _ _ _ (do_update_idle s Hup)).
    unfold bind at 1, get_sink at 1. rewrite Hfp.
    unfold get_tags_in_range. cbn [filter tag_loop list_filter].
    unfold bind at 1, ret at 1. unfold write_payload.
    rewrite (bind_Ok _ _ _ _ _ Hrun). unfold ret. by rewrite Hnw.
  - rewrite Hp'. cbn [l0 nwritten inbuf]. rewrite Z.sub_0_r, take_ge; [done|].
    unfold str_size in Hin. lia.
Qed.

Lemma works_layout_run (calls : list (Z * list byte)) (nitems_read : Z)
    (gs : list segment) (pay : list byte) (s : sink) :
  L gs pay s →
  d_total_seg_size s < d_max_seg_size s → d_updated s = false →
  Forall (λ c, 0 ≤ c.1 < 2 ^ 64 ∧ str_size c.2 = c.1 * d_itemsize s) calls →
  ∃ s' new pay',
    works calls nitems_read s = Ok tt s' ∧
    L (gs ++ new) pay' s' ∧
    Forall (holds_items (d_itemsize s) (d_max_seg_size s)) new ∧
    d_total_seg_size s' < d_max_seg_size s' ∧
    d_itemsize s' = d_itemsize s ∧ d_max_seg_size s' = d_max_seg_size s ∧
    payload_of (gs ++ new) ++ pay'
    = payload_of gs ++ pay ++ concat (snd <$> calls).
Proof.
  intros Hlay Hlt Hup Hcalls.
  revert nitems_read gs pay s Hlay Hlt Hup Hcalls.
  induction calls as [|[n buf] calls IH];
    intros abs gs pay s Hlay Hlt Hup Hcalls.
  - exists s, [], pay. cbn. by rewrite !app_nil_r.
  - apply Forall_cons in Hcalls as [[Hn Hbuf] Hcalls]. cbn [fst snd] in Hn, Hbuf.
    destruct (work_layout_run gs pay s n buf abs Hlay Hlt Hup Hn Hbuf)
      as (s1 & new1 & pay1 & Hw & Hlay1 & Hfl1 & Hlt1 & Hup1 & Hi1 & Hm1 & Hp1).
    destruct (IH (wrap64 (abs + n)) (gs ++ new1) pay1 s1 Hlay1 Hlt1 Hup1)
      as (s' & new' & pay' & Hws & Hlay' & Hfl' & Hlt' & Hi' & Hm' & Hp');
      [by rewrite Hi1|].
    rewrite <- app_assoc in Hlay', Hp'.
    exists s', (new1 ++ new'), pay'.
    split; [|split; [done|split; [|split; [done|split; [congruence|split; [congruence|]]]]]].
    + cbn [works]. by rewrite (bind_Ok _ _ _ _ _ Hw).
    + apply Forall_app. split; [done|]. by rewrite Hi1, Hm1 in Hfl'.
    + rewrite Hp', app_assoc, Hp1. cbn [fmap list_fmap snd concat].
      by rewrite <- !app_assoc.
Qed.
End LayoutRun.

(** *** The inline layout is one *)

Lemma inline_layout_sizes gs pay s :
  inline_layout gs pay s →
  0 ≤ d_itemsize s ∧ 0 < d_max_seg_size s < 2 ^ 64 ∧
  0 ≤ d_total_seg_size s ≤ d_max_seg_size s ∧
  str_size pay = d_itemsize s * d_total_seg_size s.
Proof. by intros (_ & (_ & _ & _ & _ & _ & ? & ? & _) & _ & _ & ? & ?). Qed.

Lemma inline_layout_put_stream gs pay s chunk c :
  inline_layout gs pay s → str_size chunk = c * d_itemsize s → 0 ≤ c →
  d_total_seg_size s + c ≤ d_max_seg_size s →
  ∃ f, d_fp s = Some f ∧
       inline_layout gs (pay ++ chunk)
         (set_total_seg_size (d_total_seg_size s + c)
            (set_fp (Some (file_put f chunk)) s)).
Proof.
  intros Hlay Hchunk Hc Hmax. pose proof Hlay as (_ & _ & Hfp & _).
  eexists. split; [exact Hfp|]. by apply inline_layout_put.
Qed.

Lemma work_inline_run (gs : list segment) (pay : list byte) (s : sink)
    (n : Z) (input : list byte) (nitems_read : Z) :
  fixed_width → inline_layout gs pay s →
  Forall (holds_items (d_itemsize s) (d_max_seg_size s)) gs →
  d_total_seg_size s < d_max_seg_size s → d_updated s = false →
  0 ≤ n < 2 ^ 64 → str_size input = n * d_itemsize s →
  ∃ s' gs' pay',
    work n input nitems_read [] [] s = Ok n s' ∧
    inline_layout gs' pay' s' ∧
    Forall (holds_items (d_itemsize s) (d_max_seg_size s)) gs' ∧
    d_total_seg_size s' < d_max_seg_size s' ∧ d_updated s' = false ∧
    d_itemsize s' = d_itemsize s ∧ d_max_seg_size s' = d_max_seg_size s ∧
    payload_of gs' ++ pay' = payload_of gs ++ pay ++ input.
Proof.
  intros Hfw Hlay Hfl Hlt Hup Hn Hin.
  destruct (work_layout_run inline_layout inline_layout_sizes
              inline_layout_put_stream
              (λ gs pay s, start_next_segment_inline gs pay s Hfw)
              gs pay s n input nitems_read Hlay Hlt Hup Hn Hin)
    as (s' & new & pay' & Hw & Hlay' & Hfl' & Hrest).
  exists s', (gs ++ new), pay'. split; [done|]. split; [done|].
  split; [by apply Forall_app|done].
Qed.

Lemma close_inline_run (gs : list segment) (pay : list byte) (s : sink) :
  fixed_width → inline_layout gs pay s →
  ∃ s', close s = Ok tt s' ∧
        d_fp s' = Some (at_end (file_of (gs ++ [mk_segment (d_header s')
                                                           (d_extra s') pay]))) ∧
        bytes_field (d_header s') = Some (str_size pay) ∧
        d_updated s' = true.
Proof.
  intros Hfw (Hst & Hfit & Hfp & Hgs & Hpay & Ht).
  pose proof (header_fit_record_size s Hfit) as Hrec.
  destruct (header_fit_finalised s Hfw Hfit Ht) as [Hfin Hfinsz].
  pose proof Hfit as (Hh & He & Hstrt & [b Hb] & _ & Hi & Hm & Hbound).
  pose proof (str_size_nonneg (record_bytes (d_header s) (d_extra s))).
  assert (H1 := update_last_header_inline_run s (file_of gs)
                  (record_bytes (d_header s) (d_extra s)) pay
                  (METADATA_HEADER_SIZE + d_extra_size s) Hfp
                  ltac:(unfold strt_field; by rewrite Hstrt)
                  ltac:(by rewrite Hb) Hrec Hpay ltac:(nia) He
                  ltac:(left; unfold record_bytes;
                        rewrite str_size_app, Hfinsz;
                        unfold extra_in_sync in He; lia)).
  assert (Hul : update_last_header s = update_last_header_inline s)
    by (unfold update_last_header, bind, get_sink; by rewrite Hst).
  rewrite <- Hul in H1. clear Hul.
  eexists. split.
  - unfold close. rewrite (bind_Ok _ _ _ _ _ H1).
    unfold bind, get_sink, modify, ret. cbn [d_state note set_fp set_header].
    rewrite Hst. reflexivity.
  - cbn. split; [|split; [|done]].
    + rewrite file_of_snoc. unfold segment_bytes. by cbn.
    + rewrite finalised_header_bytes, wrap64_small by nia. by rewrite Hpay.
Qed.

Lemma constructor_inline_layout
    os itemsize filename samp_rate relative_rate type complex
    max_segment_size extra_dict s :
  gr_file_meta_sink os itemsize filename samp_rate relative_rate type
                    complex max_segment_size extra_dict false
    = Ok tt s →
  str_size (pmt_serialize_str (d_header s)) = METADATA_HEADER_SIZE →
  0 < d_max_seg_size s →
  METADATA_HEADER_SIZE + d_extra_size s + d_itemsize s * d_max_seg_size s
    < 2 ^ 63 →
  inline_layout [] [] s ∧ d_total_seg_size s = 0 ∧ d_updated s = false.
Proof.
  intros Hnew. rewrite (constructor_Ok_inv _ _ _ _ _ _ _ _ _ _ _ Hnew).
  cbn [d_header d_extra d_extra_size d_itemsize d_max_seg_size].
  intros Hsz Hmax Hbound.
  pose proof (wrap64_range itemsize). pose proof (wrap64_range max_segment_size).
  set (e := initial_extra extra_dict) in *.
  set (esz := str_size (pmt_serialize_str e)) in *.
  assert (0 ≤ METADATA_HEADER_SIZE + esz).
  { rewrite <- Hsz. subst esz. pose proof (str_size_nonneg (pmt_serialize_str e)).
    pose proof (str_size_nonneg (pmt_serialize_str
      (initial_header samp_rate (wrap64 itemsize) type complex
         (str_size (pmt_serialize_str e))))). lia. }
  split; [|done].
  split; [done|]. split; [|split; [|split; [done|split]]].
  - split; [exact Hsz|]. split; [reflexivity|]. cbn [d_header d_extra_size d_itemsize d_max_seg_size].
    split; [|split; [|split; [|split; [lia|split; [lia|exact Hbound]]]]].
    + rewrite initial_header_strt, wrap64_small; [done|]. nia.
    + exists 0. apply initial_header_bytes.
    + exists 0, 0%float. unfold initial_header, pmt_dict_add.
      do 5 (rewrite lookup_insert_ne by done). by rewrite lookup_insert_eq.
  - cbn. unfold at_end, file_of, record_bytes. cbn. by rewrite app_nil_r.
  - cbn. unfold str_size. cbn. lia.
  - cbn. lia.
Qed.

Lemma works_inline_run (calls : list (Z * list byte)) (nitems_read : Z)
    (gs : list segment) (pay : list byte) (s : sink) :
  fixed_width → inline_layout gs pay s →
  Forall (holds_items (d_itemsize s) (d_max_seg_size s)) gs →
  d_total_seg_size s < d_max_seg_size s → d_updated s = false →
  Forall (λ c, 0 ≤ c.1 < 2 ^ 64 ∧ str_size c.2 = c.1 * d_itemsize s) calls →
  ∃ s' gs' pay',
    works calls nitems_read s = Ok tt s' ∧
    inline_layout gs' pay' s' ∧
    Forall (holds_items (d_itemsize s) (d_max_seg_size s)) gs' ∧
    d_total_seg_size s' < d_max_seg_size s' ∧
    d_itemsize s' = d_itemsize s ∧ d_max_seg_size s' = d_max_seg_size s ∧
    payload_of gs' ++ pay' = payload_of gs ++ pay ++ concat (snd <$> calls).
Proof.
  intros Hfw Hlay Hfl Hlt Hup Hcalls.
  destruct (works_layout_run inline_layout inline_layout_sizes
              inline_layout_put_stream
              (λ gs pay s, start_next_segment_inline gs pay s Hfw)
              calls nitems_read gs pay s Hlay Hlt Hup Hcalls)
    as (s' & new & pay' & Hw & Hlay' & Hfl' & Hrest).
  exists s', (gs ++ new), pay'. split; [done|]. split; [done|].
  split; [by apply Forall_app|done].
Qed.

Lemma counted_claimed_bytes gs :
  Forall counted gs → claimed_bytes gs = str_size (payload_of gs).
Proof.
  induction 1 as [|g gs Hg _ IH]; [done|].
  cbn [claimed_bytes foldr]. fold (claimed_bytes gs). rewrite IH.
  unfold counted in Hg. rewrite Hg. cbn [default from_option id].
  unfold payload_of. cbn [fmap list_fmap concat]. by rewrite str_size_app.
Qed.

Lemma offered_items_size isz calls :
  Forall (λ c : Z * list byte, 0 ≤ c.1 < 2 ^ 64 ∧ str_size c.2 = c.1 * isz) calls →
  str_size (concat (snd <$> calls)) = isz * offered_items calls.
Proof.
  induction 1 as [|c calls [_ Hc] _ IH].
  { unfold offered_items, str_size. cbn. lia. }
  cbn [fmap list_fmap concat offered_items foldr]. fold (offered_items calls).
  rewrite str_size_app, Hc, IH. lia.
Qed.



(** X14 — the whole life of an inline file written without tags: built by
    the constructor, filled by any number of [work] calls on a file system
    that takes every write, finished by [close].  Nothing throws, every call
    consumes its whole buffer, and the file is a sequence of segments, each a
    header record followed by the payload whose size its [bytes] field
    states; every segment but the last holds exactly [d_max_seg_size] items
    and the last one fewer; the payloads in order are the buffers in order,
    so the [bytes] fields add up to the item size times the number of items
    handed over. *)
Theorem inline_file_accounts_for_every_item
    os itemsize filename samp_rate relative_rate type complex
    max_segment_size extra_dict (s0 : sink) (calls : list (Z * list byte)) :
  fixed_width →
  gr_file_meta_sink os itemsize filename samp_rate relative_rate type
                    complex max_segment_size extra_dict false
    = Ok tt s0 →
  str_size (pmt_serialize_str (d_header s0)) = METADATA_HEADER_SIZE →
  0 < d_max_seg_size s0 →
  METADATA_HEADER_SIZE + d_extra_size s0 + d_itemsize s0 * d_max_seg_size s0
    < 2 ^ 63 →
  Forall (λ c, 0 ≤ c.1 < 2 ^ 64 ∧ str_size c.2 = c.1 * d_itemsize s0) calls →
  ∃ s gs g,
    (works calls 0 >> close) s0 = Ok tt s ∧
    d_fp s = Some (at_end (file_of (gs ++ [g]))) ∧
    Forall counted (gs ++ [g]) ∧
    Forall (holds_items (d_itemsize s0) (d_max_seg_size s0)) gs ∧
    (∃ n, 0 ≤ n < d_max_seg_size s0 ∧ holds_items (d_itemsize s0) n g) ∧
    payload_of (gs ++ [g]) = concat (snd <$> calls) ∧
    claimed_bytes (gs ++ [g]) = d_itemsize s0 * offered_items calls.
Proof.
  intros Hfw Hnew Hsz Hmax Hbound Hcalls.
  destruct (constructor_inline_layout _ _ _ _ _ _ _ _ _ _ Hnew Hsz Hmax Hbound)
    as (Hlay0 & Ht0 & Hup0).
  destruct (works_inline_run calls 0 [] [] s0 Hfw Hlay0 ltac:(done) ltac:(lia)
              Hup0 Hcalls)
    as (s1 & gs1 & pay1 & Hws & Hlay1 & Hfl1 & Hlt1 & Hi1 & Hm1 & Hp1).
  destruct (close_inline_run gs1 pay1 s1 Hfw Hlay1) as (s & Hc & Hfp & Hb & _).
  set (g := mk_segment (d_header s) (d_extra s) pay1) in *.
  assert (Hgs : Forall counted (gs1 ++ [g])).
  { apply Forall_app. split; [by destruct Hlay1 as (_ & _ & _ & ? & _)|].
    by apply Forall_singleton. }
  assert (Hp : payload_of (gs1 ++ [g]) = concat (snd <$> calls)).
  { rewrite payload_of_snoc. cbn [g seg_payload]. by rewrite Hp1. }
  exists s, gs1, g.
  split; [|split; [exact Hfp|split; [exact Hgs|split; [exact Hfl1|split; [|split; [exact Hp|]]]]]].
  - by rewrite (bind_Ok _ _ _ _ _ Hws).
  - exists (d_total_seg_size s1). unfold holds_items. cbn [g seg_payload].
    destruct Hlay1 as (_ & _ & _ & _ & Hsz1 & Ht1).
    rewrite Hsz1, <- Hi1, <- Hm1. split; [lia|done].
  - rewrite (counted_claimed_bytes _ Hgs), Hp. by apply offered_items_size.
Qed.

(** *** After [close]; after [open] *)

Lemma work_idle_without_stream s noutput_items input_items nitems_read tags
    os_accepts :
  d_updated s = false → d_fp s = None →
  work noutput_items input_items nitems_read tags os_accepts s
  = Ok noutput_items s.
Proof.
  intros Hup Hfp. unfold work. rewrite (bind_Ok _ _ _ _ _ (do_update_idle s Hup)).
  unfold bind, get_sink. by rewrite Hfp.
Qed.

(** X15 — [close] releases the pending streams and raises [d_updated], so the
    next [work] call installs a null [d_fp]: it returns [noutput_items]
    having written nothing, and so does every [work] call after it, on an
    object that no longer changes, until [open] provides a new file. *)
Theorem closed_sink_drops_input (s s1 : sink)
    (noutput_items : Z) (input_items : list byte) (nitems_read : Z)
    (tags : list gr_tag_t) (os_accepts : list Z) :
  close s = Ok tt s1 →
  ∃ s2,
    work noutput_items input_items nitems_read tags os_accepts s1
      = Ok noutput_items s2 ∧
    d_fp s2 = None ∧ d_new_fp s2 = None ∧
    d_header s2 = d_header s1 ∧ d_extra s2 = d_extra s1 ∧
    history s2 = history s1 ∧
    ∀ n buf abs ts oracle, work n buf abs ts oracle s2 = Ok n s2.
Proof.
  intros Hc. destruct (close_Ok_streams _ _ Hc) as (Hn & Hu & _).
  set (s2 := final_state (do_update s1)).
  assert (Hfp2 : d_fp s2 = None ∧ d_new_fp s2 = None ∧ d_updated s2 = false).
  { subst s2. unfold do_update, bind, get_sink, modify, ret. rewrite Hu.
    destruct (d_state s1); cbn; by rewrite Hn. }
  destruct Hfp2 as (Hfp2 & Hnfp2 & Hu2).
  destruct (do_update_frame s1) as (_ & _ & _ & _ & _ & Hh & He & _ & _ & Hhist).
  exists s2. split; [|split; [done|split; [done|split; [done|split; [done|split; [done|]]]]]].
  - unfold work. rewrite (bind_Ok _ _ _ _ _ (do_update_Ok s1)).
    unfold bind, get_sink. fold s2. by rewrite Hfp2.
  - intros. by apply work_idle_without_stream.
Qed.

(** A payload loop that has room for all it is asked to write does so in
    one [fwrite] and starts no segment. *)
Lemma payload_loop_one_round fuel before_tag limit l x f :
  os_accepts l = [] → 0 ≤ nwritten l < limit → limit < 2 ^ 64 →
  d_fp x = Some f →
  0 ≤ d_total_seg_size x → d_max_seg_size x < 2 ^ 64 →
  d_total_seg_size x + (limit - nwritten l) < d_max_seg_size x →
  let c := limit - nwritten l in
  payload_loop (S fuel) before_tag limit l x
  = Ok (mk_locals limit (drop (Z.to_nat (c * d_itemsize x)) (inbuf l)) [])
       (set_total_seg_size (d_total_seg_size x + c)
          (set_fp (Some (file_put f (take (Z.to_nat (c * d_itemsize x)) (inbuf l))))
                  x)).
Proof.
  intros Hos Hn Hlim Hfp Ht Hmax Hroom c.
  cbn [payload_loop]. destruct (Z.ltb_spec (nwritten l) limit) as [_|?]; [|lia].
  unfold bind at 1, get_sink at 1.
  rewrite (wrap64_small (d_max_seg_size x - d_total_seg_size x)) by lia.
  rewrite (wrap64_small (limit - nwritten l)) by lia.
  rewrite Z.min_r by lia. unfold fwrite_count. rewrite Hos. cbn [tail]. fold c.
  rewrite (bind_Ok _ _ _ tt
             (set_fp (Some (file_put f (take (Z.to_nat (c * d_itemsize x)) (inbuf l))))
                     x))
    by (unfold on_stream; cbn [get_stream]; by rewrite Hfp).
  destruct (Z.eqb_spec c 0) as [?|_]; [lia|].
  unfold bind at 1, modify at 1. unfold bind at 1, get_sink at 1.
  change (d_total_seg_size (set_fp _ x)) with (d_total_seg_size x).
  rewrite (wrap64_small (d_total_seg_size x + c)) by lia.
  cbn [d_total_seg_size d_max_seg_size set_total_seg_size set_fp].
  destruct (Z.eqb_spec (d_total_seg_size x + c) (d_max_seg_size x)) as [?|_];
    [lia|].
  cbn [andb]. unfold bind at 1, ret at 1.
  replace (nwritten l + c) with limit by lia.
  destruct fuel; cbn [payload_loop nwritten]; rewrite Z.ltb_irrefl; reflexivity.
Qed.


(** *** A segment limit of zero *)

(** A payload loop that finds its segment full asks [fwrite] for nothing
    and breaks. *)
Lemma payload_loop_no_room fuel before_tag limit l x f :
  nwritten l < limit → d_fp x = Some f →
  d_total_seg_size x = d_max_seg_size x →
  payload_loop (S fuel) before_tag limit l x
  = Ok (mk_locals (nwritten l) (inbuf l) (tail (os_accepts l)))
       (set_fp (Some f) x).
Proof.
  intros Hn Hfp Ht. cbn [payload_loop].
  destruct (Z.ltb_spec (nwritten l) limit) as [_|?]; [|lia].
  unfold bind at 1, get_sink at 1. rewrite Ht, Z.sub_diag.
  change (wrap64 0) with 0.
  pose proof (wrap64_range (limit - nwritten l)).
  rewrite Z.min_l by lia.
  assert (fwrite_count 0 l = 0) as ->
    by (unfold fwrite_count; destruct (os_accepts l); lia).
  rewrite Z.mul_0_l. cbn [Z.to_nat take Z.eqb].
  unfold on_stream, bind. cbn [get_stream]. rewrite Hfp. reflexivity.
Qed.

(** X17 — with [d_max_seg_size] at 0 the payload loop asks [fwrite] for
    [min(0, ...)] items, gets 0 back and breaks: a [work] call without tags
    returns 0 whatever it is offered and whatever the file system would
    take, and leaves file, header and history as they were. *)
Theorem zero_cap_consumes_nothing (s : sink) (f : FILE)
    (noutput_items : Z) (input_items : list byte) (nitems_read : Z)
    (os_accepts : list Z) :
  d_updated s = false →
  d_fp s = Some f →
  d_max_seg_size s = 0 →
  d_total_seg_size s = 0 →
  0 < noutput_items →
  ∃ s', work noutput_items input_items nitems_read [] os_accepts s = Ok 0 s' ∧
        d_fp s' = Some f ∧ d_header s' = d_header s ∧
        d_total_seg_size s' = 0 ∧ history s' = history s.
Proof.
  intros Hup Hfp Hmax Ht Hn.
  exists (set_fp (Some f) s). split; [|done].
  unfold work. rewrite (bind_Ok _ _ _ _ _ (do_update_idle s Hup)).
  unfold bind at 1, get_sink at 1. rewrite Hfp.
  unfold get_tags_in_range. cbn [filter list_filter tag_loop].
  unfold bind at 1, ret at 1. unfold write_payload. cbn [nwritten].
  rewrite Z.sub_0_r.
  destruct (Z.to_nat noutput_items) as [|fuel] eqn:Hfuel; [lia|].
  rewrite (bind_Ok _ _ _ _ _
             (payload_loop_no_room fuel false noutput_items
                (mk_locals 0 input_items os_accepts) s f
                ltac:(cbn; lia) Hfp ltac:(lia))).
  reflexivity.
Qed.

(** *** A [strt] tag of the wrong kind *)

(** X18 — a tag keyed [strt] that arrives on an empty segment is stored in the
    header before [update_last_header] reads the [strt] field back.  When its
    value is not an integer, the read throws, out of [work], and the value
    stays: from then on [close] and every change of segment throw at the same
    place, leaving the object as it is. *)
Theorem strt_tag_of_wrong_kind_breaks_finalisation (s : sink) (o : Z) (v : pmt_t) :
  d_total_seg_size s = 0 →
  is_Some (d_header s !! "strt") →
  pmt_to_uint64 v = None →
  let s1 := set_header (<["strt" := v]> (d_header s)) s in
  apply_tag (mk_tag o "strt" v) s = Throw (pmt_wrong_type "pmt_to_uint64") s1 ∧
  close s1 = Throw (pmt_wrong_type "pmt_to_uint64") s1 ∧
  start_next_segment s1 = Throw (pmt_wrong_type "pmt_to_uint64") s1.
Proof.
  intros Ht Hk Hv s1.
  assert (Hul : update_last_header s1 = Throw (pmt_wrong_type "pmt_to_uint64") s1).
  { unfold update_last_header, update_last_header_inline,
      update_last_header_detached, bind, get_sink, pmt_dict_ref.
    assert (Hl : d_header s1 !! "strt" = Some v) by apply lookup_insert_eq.
    destruct (d_state s1); rewrite Hl; cbn [default from_option id];
      by rewrite Hv. }
  split; [|split].
  - unfold apply_tag. unfold bind at 1, get_sink at 1. rewrite Ht. cbn [Z.ltb Z.compare key value].
    rewrite (bind_Ok _ _ _ tt s1); [exact Hul|].
    rewrite update_header_store. rewrite bool_decide_eq_false_2 by done.
    unfold store, pmt_dict_has_key. by rewrite bool_decide_eq_true_2.
  - unfold close. by rewrite (bind_Throw _ _ _ _ _ Hul).
  - unfold start_next_segment. by rewrite (bind_Throw _ _ _ _ _ Hul).
Qed.

(** *** What a tag leaves behind *)

Lemma triple_and {A} (P P' : sink → Prop) (m : M A) Q Q' E E' :
  triple P m Q E → triple P' m Q' E' →
  triple (λ s, P s ∧ P' s) m (λ a s, Q a s ∧ Q' a s) (λ s, E s ∧ E' s).
Proof.
  intros H H' s [Hs Hs']. specialize (H s Hs). specialize (H' s Hs').
  by destruct (m s).
Qed.

Lemma stored_update_header b k v k' v' :
  k' ≠ k → preserves (stored b k v) (update_header k' v').
Proof.
  intros Hne.
  assert (∀ x s, stored b k v s → stored b k v (store k' x s)) as Hst.
  { intros x s Hs. unfold store, stored in *.
    destruct (pmt_dict_has_key _ _), b; cbn; unfold pmt_dict_add;
      rewrite ?lookup_insert_ne by done; done. }
  intros s Hs. rewrite update_header_store. case_bool_decide; [|by apply Hst].
  destruct (pmt_to_double v'); [|done]. by apply Hst.
Qed.

Lemma has_key_update_header b k k' v' :
  k' ≠ k →
  preserves (λ s, pmt_dict_has_key (d_header s) k = b) (update_header k' v').
Proof.
  intros Hne.
  assert (∀ x s, pmt_dict_has_key (d_header s) k = b →
                 pmt_dict_has_key (d_header (store k' x s)) k = b) as Hst.
  { intros x s Hs. unfold store. destruct (pmt_dict_has_key (d_header s) k');
      [|done]. cbn. unfold pmt_dict_has_key, pmt_dict_add in *.
    by rewrite lookup_insert_ne. }
  intros s Hs. rewrite update_header_store. case_bool_decide; [|by apply Hst].
  destruct (pmt_to_double v'); [|done]. by apply Hst.
Qed.

Lemma stored_on_stream b k v w f : preserves (stored b k v) (on_stream w f).
Proof. apply triple_on_stream; [|done]. intros s fl Hs _. by destruct w. Qed.

Lemma has_key_on_stream b k w f :
  preserves (λ s, pmt_dict_has_key (d_header s) k = b) (on_stream w f).
Proof. apply triple_on_stream; [|done]. intros s fl Hs _. by destruct w. Qed.

Lemma stored_update_last_header b k v :
  k ≠ "bytes" → k ≠ "strt" → preserves (stored b k v) update_last_header.
Proof.
  intros Hb Hs. apply closure_update_last_header.
  - intros. by apply stored_update_header.
  - intros. by apply stored_update_header.
  - apply stored_on_stream.
  - done.
Qed.

Lemma has_key_update_last_header b k :
  k ≠ "bytes" → k ≠ "strt" →
  preserves (λ s, pmt_dict_has_key (d_header s) k = b) update_last_header.
Proof.
  intros Hb Hs. apply closure_update_last_header.
  - intros. by apply has_key_update_header.
  - intros. by apply has_key_update_header.
  - apply has_key_on_stream.
  - done.
Qed.

Lemma stored_write_and_update b k v :
  k ≠ "bytes" → k ≠ "strt" → preserves (stored b k v) write_and_update.
Proof.
  intros Hb Hs. apply closure_write_and_update.
  - intros. by apply stored_update_header.
  - intros. by apply stored_update_header.
  - apply stored_on_stream.
  - done.
Qed.

Lemma update_header_stored b k v :
  k ≠ "rx_rate" →
  triple (λ s, pmt_dict_has_key (d_header s) k = b) (update_header k v)
         (λ _, stored b k v) (λ _, True).
Proof.
  intros Hr s Hs. rewrite update_header_store.
  rewrite bool_decide_eq_false_2 by done. unfold store, stored.
  rewrite Hs. destruct b; cbn; unfold pmt_dict_add; by rewrite lookup_insert_eq.
Qed.

Lemma on_disk_write_header w a :
  triple (λ s, s = a) (write_header w (d_header a) (d_extra a))
         (λ _, on_disk) (λ _, True).
Proof.
  intros s ->. rewrite write_header_unfold.
  destruct (size_refused _ _ _); [done|]. destruct (get_stream w a); [|done].
  exists w. destruct w; cbn; by rewrite last_snoc.
Qed.

Lemma on_disk_on_stream w f : preserves on_disk (on_stream w f).
Proof. apply triple_on_stream; [|done]. intros s fl Hs _. by destruct w. Qed.

Lemma on_disk_update_last_header :
  triple (λ _, True) update_last_header (λ _, on_disk) (λ _, True).
Proof.
  unfold update_last_header. apply triple_get_bind. intros sa _.
  destruct (d_state sa).
  - unfold update_last_header_inline.
    apply triple_get_bind. intros ? _.
    eapply triple_bind with (Q := λ _ _, True); [by apply triple_pmt_get|]. intros ?.
    eapply triple_bind with (Q := λ _ _, True).
    { intros x _. by destruct (update_header _ _ x). }
    intros ?. apply triple_get_bind. intros ? _.
    eapply triple_bind with (Q := λ _ _, True).
    { intros x _. by destruct (update_header _ _ x). }
    intros ?. eapply triple_bind with (Q := λ _ _, True).
    { intros x _. by destruct (on_stream _ _ x). }
    intros ?. apply triple_get_bind. intros sb _.
    eapply triple_bind; [apply on_disk_write_header|]. intros ?.
    eapply triple_conseq; [apply on_disk_on_stream|done..].
  - unfold update_last_header_detached.
    apply triple_get_bind. intros ? _.
    eapply triple_bind with (Q := λ _ _, True); [by apply triple_pmt_get|]. intros ?.
    eapply triple_bind with (Q := λ _ _, True).
    { intros x _. by destruct (update_header _ _ x). }
    intros ?. apply triple_get_bind. intros ? _.
    eapply triple_bind with (Q := λ _ _, True).
    { intros x _. by destruct (update_header _ _ x). }
    intros ?. eapply triple_bind with (Q := λ _ _, True).
    { intros x _. by destruct (on_stream _ _ x). }
    intros ?. apply triple_get_bind. intros sb _.
    apply on_disk_write_header.
Qed.

Lemma on_disk_write_and_update :
  triple (λ _, True) write_and_update (λ _, on_disk) (λ _, True).
Proof.
  unfold write_and_update.
  eapply triple_bind with (Q := λ _ _, True).
  { intros x _. by destruct (update_header _ _ x). }
  intros ?. apply triple_get_bind. intros ? _.
  eapply triple_bind with (Q := λ _ _, True).
  { intros x _. by destruct (update_header _ _ x). }
  intros ?. apply triple_get_bind. intros sb _.
  destruct (d_state sb); apply on_disk_write_header.
Qed.

(** X19 — when the processing of a tag returns, the tag has reached the
    disk: its value is stored under its key, in the header if the key was one
    of the header's and in the extension otherwise, and the record written
    last is the header and extension in memory.  (Keys [bytes] and [strt]
    are rewritten by the sink itself, and [rx_rate] is scaled.) *)
Theorem applied_tag_is_on_disk (t : gr_tag_t) (s s' : sink) :
  key t ≠ "bytes" → key t ≠ "strt" → key t ≠ "rx_rate" →
  apply_tag t s = Ok tt s' →
  stored (pmt_dict_has_key (d_header s) (key t)) (key t) (value t) s' ∧
  on_disk s'.
Proof.
  intros Hb Hs Hr Hrun.
  set (b := pmt_dict_has_key (d_header s) (key t)).
  assert (triple (λ x, x = s) (apply_tag t)
            (λ _ x, stored b (key t) (value t) x ∧ on_disk x) (λ _, True)) as Ht.
  { unfold apply_tag. apply triple_get_bind. intros ? ->.
    destruct (0 <? d_total_seg_size s).
    - eapply triple_bind with (Q := λ _ x, pmt_dict_has_key (d_header x) (key t) = b).
      { eapply triple_conseq; [by apply (has_key_update_last_header b (key t))|..];
          [by intros ? ->|done|done]. }
      intros ?. eapply triple_bind; [by apply update_header_stored|].
      intros ?. cbn beta.
      eapply triple_bind with (Q := λ _ x, stored b (key t) (value t) x ∧ on_disk x).
      { eapply triple_conseq;
          [apply (triple_and _ _ _ _ _ _ _
                    (stored_write_and_update b (key t) (value t) Hb Hs)
                    on_disk_write_and_update)|..]; cbn; tauto. }
      intros ?. apply triple_modify. by intros x [? [w ?]]; split; [|exists w].
    - eapply triple_bind.
      { eapply triple_pre; [|by apply (update_header_stored b)]. by intros ? ->. }
      intros ?. cbn beta.
      eapply triple_conseq;
        [apply (triple_and _ _ _ _ _ _ _
                  (stored_update_last_header b (key t) (value t) Hb Hs)
                  on_disk_update_last_header)|..]; cbn; tauto. }
  specialize (Ht s eq_refl). by rewrite Hrun in Ht.
Qed.

(** *** The constructor and the file system *)



(** *** A failed [open] *)

(** X22 — [open] raises [d_updated] even when it fails.  On a file system
    that refuses the file, with nothing pending, [open] returns false and
    changes nothing else; but the next [work] call then installs the null
    pending pointers in place of the streams in use, and returns
    [noutput_items] without writing: the sink has dropped the file it had. *)
Theorem failed_open_drops_current_file (s : sink)
    (os : string → open_outcome) (filename : string)
    (noutput_items : Z) (input_items : list byte) (nitems_read : Z)
    (tags : list gr_tag_t) (os_accepts : list Z) :
  (∀ name, os name = open_fails) →
  d_new_fp s = None → d_new_hdr_fp s = None →
  ∃ s2,
    open os filename s = Ok false (set_updated true s) ∧
    work noutput_items input_items nitems_read tags os_accepts
         (set_updated true s) = Ok noutput_items s2 ∧
    d_fp s2 = None ∧ d_updated s2 = false ∧
    (d_state s = STATE_DETACHED → d_hdr_fp s2 = None) ∧
    history s2 = history s.
Proof.
  intros Hos Hn Hnh.
  set (s1 := set_updated true s).
  set (s2 := final_state (do_update s1)).
  assert (H2 : d_fp s2 = None ∧ d_updated s2 = false ∧
               (d_state s = STATE_DETACHED → d_hdr_fp s2 = None) ∧
               history s2 = history s).
  { subst s2 s1. unfold do_update, bind, get_sink, modify, ret.
    cbn. destruct (d_state s); cbn; rewrite ?Hn, ?Hnh; done. }
  exists s2. split; [|split; [|exact H2]].
  - unfold open, _open, bind, get_sink, ret, modify.
    rewrite !Hos. by destruct (d_state s).
  - unfold work. rewrite (bind_Ok _ _ _ _ _ (do_update_Ok s1)).
    unfold bind, get_sink. fold s2. by rewrite (proj1 H2).
Qed.

(** *** Detached mode without tags: the layout of the two files *)

Lemma records_of_snoc gs g :
  records_of (gs ++ [g]) = records_of gs ++ record_bytes (seg_header g) (seg_extra g).
Proof.
  unfold records_of. rewrite fmap_app, concat_app. cbn. by rewrite app_nil_r.
Qed.

Lemma write_and_update_detached_run (s : sink) (x : list byte) :
  d_state s = STATE_DETACHED →
  d_hdr_fp s = Some (at_end x) →
  extra_in_sync s →
  is_Some (d_header s !! "bytes") → is_Some (d_header s !! "strt") →
  write_and_update s
  = Ok tt (note (ev_write_header the_hdr_fp (fresh_header s) (d_extra s))
             (set_hdr_fp (Some (at_end (x ++ record_bytes (fresh_header s) (d_extra s))))
                         (set_header (fresh_header s) s))).
Proof.
  intros Hst Hfp Hsync Hb Hs.
  unfold write_and_update.
  rewrite (bind_Ok _ _ _ tt (set_header (<["bytes" := pmt_uint64 0]> (d_header s)) s)).
  2:{ rewrite update_header_store. rewrite bool_decide_eq_false_2 by done.
      unfold store, pmt_dict_has_key. by rewrite bool_decide_eq_true_2. }
  unfold bind at 1, get_sink at 1.
  rewrite (bind_Ok _ _ _ tt (set_header (fresh_header s) s)).
  2:{ rewrite update_header_store. rewrite bool_decide_eq_false_2 by done.
      unfold store, pmt_dict_has_key. cbn [d_header set_header].
      rewrite bool_decide_eq_true_2 by (by rewrite lookup_insert_ne).
      reflexivity. }
  unfold bind at 1, get_sink at 1. cbn [d_state set_header]. rewrite Hst.
  cbn [d_header d_extra set_header].
  rewrite (write_header_same_extra _ _ _ _ (at_end x)) by done.
  unfold set_stream, note, set_hdr_fp, set_header. cbn. do 3 f_equal.
  unfold at_end. rewrite !file_put_end. unfold record_bytes.
  by rewrite <- !app_assoc.
Qed.

Lemma start_next_segment_detached (gs : list segment) (pay : list byte) (s : sink) :
  fixed_width → detached_layout gs pay s →
  ∃ s', start_next_segment s = Ok tt s' ∧
        detached_layout (gs ++ [mk_segment (finalised_header s) (d_extra s) pay]) [] s' ∧
        d_total_seg_size s' = 0 ∧
        d_updated s' = d_updated s ∧ d_itemsize s' = d_itemsize s ∧
        d_max_seg_size s' = d_max_seg_size s.
Proof.
  intros Hfw (Hst & Hfit & Hhfp & Hfp & Hgs & Hpay & Ht).
  pose proof (header_fit_record_size s Hfit) as Hrec.
  destruct (header_fit_finalised s Hfw Hfit Ht) as [Hfin Hfinsz].
  pose proof Hfit as (Hh & He & Hstrt & [b Hb] & (secs & fracs & Hrx) & Hi & Hm & Hbound).
  pose proof (str_size_nonneg (record_bytes (d_header s) (d_extra s))).
  pose proof (str_size_nonneg pay).
  set (hf := finalised_header s) in *.
  set (rec := record_bytes hf (d_extra s)).
  set (s1 := note (ev_write_header the_hdr_fp hf (d_extra s))
               (set_hdr_fp (Some (at_end (records_of gs ++ rec)))
                           (set_header hf s))).
  assert (H1 : update_last_header s = Ok tt s1).
  { unfold update_last_header, bind, get_sink. rewrite Hst.
    apply (update_last_header_detached_run s (records_of gs)
             (record_bytes (d_header s) (d_extra s))
             (METADATA_HEADER_SIZE + d_extra_size s)).
    - exact Hhfp.
    - unfold strt_field. by rewrite Hstrt.
    - by rewrite Hb.
    - exact Hrec.
    - nia.
    - exact He.
    - fold hf rec. subst rec. unfold record_bytes.
      rewrite str_size_app, Hfinsz. unfold extra_in_sync in He. lia. }
  assert (Hrx1 : d_header s1 !! "rx_time"
                 = Some (pmt_tuple [pmt_uint64 secs; pmt_double fracs])).
  { cbn [s1 d_header note set_hdr_fp set_header]. subst hf. unfold finalised_header.
    by rewrite !lookup_insert_ne. }
  pose proof (update_rx_time_unfold s1 secs fracs Hrx1) as H2.
  set (s2 := note _ _) in H2.
  assert (Hh2 : d_header s2
                = <["rx_time" := rx_time_of
                      (advanced secs fracs
                         (elapsed (d_total_seg_size s1) (d_samp_rate s1)
                                  (d_relative_rate s1)))]> hf) by reflexivity.
  assert (Hb2 : d_header s2 !! "bytes"
                = Some (pmt_uint64 (d_itemsize s * d_total_seg_size s))).
  { rewrite Hh2, Hfin. rewrite lookup_insert_ne by done.
    rewrite lookup_insert_ne by done. by rewrite lookup_insert_eq. }
  assert (Hs2 : d_header s2 !! "strt"
                = Some (pmt_uint64 (METADATA_HEADER_SIZE + d_extra_size s))).
  { rewrite Hh2, Hfin. rewrite lookup_insert_ne by done.
    by rewrite lookup_insert_eq. }
  assert (H3 := write_and_update_detached_run s2 (records_of gs ++ rec)
                  Hst eq_refl He ltac:(rewrite Hb2; eauto)
                  ltac:(rewrite Hs2; eauto)).
  unfold start_next_segment.
  rewrite (bind_Ok _ _ _ _ _ H1), (bind_Ok _ _ _ _ _ H2), (bind_Ok _ _ _ _ _ H3).
  eexists. split; [reflexivity|].
  split; [|done].
  assert (Hsz : str_size (pmt_serialize_str (fresh_header s2)) = METADATA_HEADER_SIZE).
  { unfold fresh_header.
    rewrite (fixed_width_insert _ _ (pmt_uint64 (METADATA_HEADER_SIZE + d_extra_size s)))
      by (done || by rewrite lookup_insert_ne).
    rewrite (fixed_width_insert _ _ (pmt_uint64 (d_itemsize s * d_total_seg_size s)))
      by done.
    rewrite Hh2.
    by rewrite (fixed_width_insert _ _ (pmt_tuple [pmt_uint64 secs; pmt_double fracs])). }
  split; [exact Hst|]. split; [|split; [|split; [|split; [|split]]]].
  - split; [exact Hsz|]. split; [exact He|]. split; [|split; [|split]].
    + cbn. unfold fresh_header. rewrite lookup_insert_eq.
      cbn [d_extra_size]. change (d_extra_size s2) with (d_extra_size s).
      rewrite wrap64_small; [done|]. unfold extra_in_sync in He. lia.
    + exists 0. cbn. unfold fresh_header. rewrite lookup_insert_ne by done.
      by rewrite lookup_insert_eq.
    + eexists _, _. cbn. unfold fresh_header. rewrite lookup_insert_ne by done.
      rewrite lookup_insert_ne by done. rewrite Hh2.
      rewrite lookup_insert_eq. reflexivity.
    + done.
  - cbn. do 2 f_equal. rewrite records_of_snoc. cbn. fold rec.
    by rewrite <- !app_assoc.
  - cbn. rewrite Hfp. do 2 f_equal. rewrite payload_of_snoc. cbn.
    by rewrite app_nil_r.
  - apply Forall_app. split; [done|]. apply Forall_singleton.
    unfold counted. cbn. subst hf. rewrite finalised_header_bytes.
    rewrite wrap64_small by nia. by rewrite Hpay.
  - cbn. unfold str_size. cbn. lia.
  - cbn. lia.
Qed.

Lemma detached_layout_sizes gs pay s :
  detached_layout gs pay s →
  0 ≤ d_itemsize s ∧ 0 < d_max_seg_size s < 2 ^ 64 ∧
  0 ≤ d_total_seg_size s ≤ d_max_seg_size s ∧
  str_size pay = d_itemsize s * d_total_seg_size s.
Proof. by intros (_ & (_ & _ & _ & _ & _ & ? & ? & _) & _ & _ & _ & ? & ?). Qed.

Lemma detached_layout_put_stream gs pay s chunk c :
  detached_layout gs pay s → str_size chunk = c * d_itemsize s → 0 ≤ c →
  d_total_seg_size s + c ≤ d_max_seg_size s →
  ∃ f, d_fp s = Some f ∧
       detached_layout gs (pay ++ chunk)
         (set_total_seg_size (d_total_seg_size s + c)
            (set_fp (Some (file_put f chunk)) s)).
Proof.
  intros (Hst & Hfit & Hhfp & Hfp & Hgs & Hpay & Ht) Hchunk Hc Hmax.
  eexists. split; [exact Hfp|].
  split; [exact Hst|]. split; [exact Hfit|]. split; [exact Hhfp|].
  split; [|split; [done|split]].
  - cbn. unfold at_end. rewrite file_put_end. by rewrite <- !app_assoc.
  - cbn. rewrite str_size_app, Hpay, Hchunk. lia.
  - cbn. lia.
Qed.

Lemma close_detached_run (gs : list segment) (pay : list byte) (s : sink) :
  fixed_width → detached_layout gs pay s →
  ∃ s', close s = Ok tt s' ∧
        d_hdr_fp s' = Some (at_end (records_of (gs ++ [mk_segment (d_header s')
                                                                  (d_extra s') pay]))) ∧
        d_fp s' = Some (at_end (payload_of (gs ++ [mk_segment (d_header s')
                                                              (d_extra s') pay]))) ∧
        bytes_field (d_header s') = Some (str_size pay) ∧
        d_updated s' = true.
Proof.
  intros Hfw (Hst & Hfit & Hhfp & Hfp & Hgs & Hpay & Ht).
  pose proof (header_fit_record_size s Hfit) as Hrec.
  destruct (header_fit_finalised s Hfw Hfit Ht) as [Hfin Hfinsz].
  pose proof Hfit as (Hh & He & Hstrt & [b Hb] & _ & Hi & Hm & Hbound).
  pose proof (str_size_nonneg (record_bytes (d_header s) (d_extra s))).
  pose proof (str_size_nonneg pay).
  assert (H1 := update_last_header_detached_run s (records_of gs)
                  (record_bytes (d_header s) (d_extra s))
                  (METADATA_HEADER_SIZE + d_extra_size s) Hhfp
                  ltac:(unfold strt_field; by rewrite Hstrt)
                  ltac:(by rewrite Hb) Hrec ltac:(nia) He
                  ltac:(unfold record_bytes;
                        rewrite str_size_app, Hfinsz;
                        unfold extra_in_sync in He; lia)).
  assert (Hul : update_last_header s = update_last_header_detached s)
    by (unfold update_last_header, bind, get_sink; by rewrite Hst).
  rewrite <- Hul in H1. clear Hul.
  eexists. split.
  - unfold close. rewrite (bind_Ok _ _ _ _ _ H1).
    unfold bind, get_sink, modify, ret. cbn [d_state note set_hdr_fp set_header].
    rewrite Hst. reflexivity.
  - cbn. split; [|split; [|split; [|done]]].
    + rewrite records_of_snoc. by cbn.
    + rewrite Hfp, payload_of_snoc. by cbn.
    + rewrite finalised_header_bytes, wrap64_small by nia. by rewrite Hpay.
Qed.

Lemma constructor_detached_layout
    os itemsize filename samp_rate relative_rate type complex
    max_segment_size extra_dict s :
  gr_file_meta_sink os itemsize filename samp_rate relative_rate type
                    complex max_segment_size extra_dict true
    = Ok tt s →
  os filename = opens →
  str_size (pmt_serialize_str (d_header s)) = METADATA_HEADER_SIZE →
  0 < d_max_seg_size s →
  METADATA_HEADER_SIZE + d_extra_size s + d_itemsize s * d_max_seg_size s
    < 2 ^ 63 →
  detached_layout [] [] s ∧ d_total_seg_size s = 0 ∧ d_updated s = false.
Proof.
  intros Hnew Hos. rewrite (constructor_Ok_inv _ _ _ _ _ _ _ _ _ _ _ Hnew).
  cbn [d_header d_extra d_extra_size d_itemsize d_max_seg_size].
  intros Hsz Hmax Hbound.
  pose proof (wrap64_range itemsize). pose proof (wrap64_range max_segment_size).
  set (e := initial_extra extra_dict) in *.
  set (esz := str_size (pmt_serialize_str e)) in *.
  assert (0 ≤ METADATA_HEADER_SIZE + esz).
  { rewrite <- Hsz. subst esz. pose proof (str_size_nonneg (pmt_serialize_str e)).
    pose proof (str_size_nonneg (pmt_serialize_str
      (initial_header samp_rate (wrap64 itemsize) type complex
         (str_size (pmt_serialize_str e))))). lia. }
  split; [|done].
  split; [done|]. split; [|split; [|split; [|split; [done|split]]]].
  - split; [exact Hsz|]. split; [reflexivity|]. cbn [d_header d_extra_size d_itemsize d_max_seg_size].
    split; [|split; [|split; [|split; [lia|split; [lia|exact Hbound]]]]].
    + rewrite initial_header_strt, wrap64_small; [done|]. nia.
    + exists 0. apply initial_header_bytes.
    + exists 0, 0%float. unfold initial_header, pmt_dict_add.
      do 5 (rewrite lookup_insert_ne by done). by rewrite lookup_insert_eq.
  - cbn. unfold at_end, records_of, record_bytes. by cbn.
  - cbn. rewrite Hos. by cbn.
  - cbn. unfold str_size. cbn. lia.
  - cbn. lia.
Qed.

(** X23 — the whole life of a detached pair of files written without tags:
    built by the constructor, filled by any number of [work] calls on a file
    system that takes every write, finished by [close].  Nothing throws and
    every call consumes its whole buffer; the data file is the buffers in
    order and nothing else; the header file is one record per segment, in
    order, each with the size of its segment's payload in its [bytes] field;
    every segment but the last holds exactly [d_max_seg_size] items, so the
    [bytes] fields add up to the size of the data file. *)
Theorem detached_files_account_for_every_item
    os itemsize filename samp_rate relative_rate type complex
    max_segment_size extra_dict (s0 : sink) (calls : list (Z * list byte)) :
  fixed_width →
  gr_file_meta_sink os itemsize filename samp_rate relative_rate type
                    complex max_segment_size extra_dict true
    = Ok tt s0 →
  os filename = opens →
  str_size (pmt_serialize_str (d_header s0)) = METADATA_HEADER_SIZE →
  0 < d_max_seg_size s0 →
  METADATA_HEADER_SIZE + d_extra_size s0 + d_itemsize s0 * d_max_seg_size s0
    < 2 ^ 63 →
  Forall (λ c, 0 ≤ c.1 < 2 ^ 64 ∧ str_size c.2 = c.1 * d_itemsize s0) calls →
  ∃ s gs g,
    (works calls 0 >> close) s0 = Ok tt s ∧
    d_hdr_fp s = Some (at_end (records_of (gs ++ [g]))) ∧
    d_fp s = Some (at_end (concat (snd <$> calls))) ∧
    payload_of (gs ++ [g]) = concat (snd <$> calls) ∧
    Forall counted (gs ++ [g]) ∧
    Forall (holds_items (d_itemsize s0) (d_max_seg_size s0)) gs ∧
    (∃ n, 0 ≤ n < d_max_seg_size s0 ∧ holds_items (d_itemsize s0) n g) ∧
    claimed_bytes (gs ++ [g]) = d_itemsize s0 * offered_items calls.
Proof.
  intros Hfw Hnew Hos Hsz Hmax Hbound Hcalls.
  destruct (constructor_detached_layout _ _ _ _ _ _ _ _ _ _ Hnew Hos Hsz Hmax
              Hbound) as (Hlay0 & Ht0 & Hup0).
  destruct (works_layout_run detached_layout detached_layout_sizes
              detached_layout_put_stream
              (λ gs pay s, start_next_segment_detached gs pay s Hfw)
              calls 0 [] [] s0 Hlay0 ltac:(lia) Hup0 Hcalls)
    as (s1 & gs1 & pay1 & Hws & Hlay1 & Hfl1 & Hlt1 & Hi1 & Hm1 & Hp1).
  cbn [app] in Hlay1, Hp1.
  destruct (close_detached_run gs1 pay1 s1 Hfw Hlay1)
    as (s & Hc & Hhfp & Hfp & Hb & _).
  set (g := mk_segment (d_header s) (d_extra s) pay1) in *.
  assert (Hgs : Forall counted (gs1 ++ [g])).
  { apply Forall_app. split; [by destruct Hlay1 as (_ & _ & _ & _ & ? & _)|].
    by apply Forall_singleton. }
  assert (Hp : payload_of (gs1 ++ [g]) = concat (snd <$> calls)).
  { rewrite payload_of_snoc. cbn [g seg_payload]. by rewrite Hp1. }
  exists s, gs1, g.
  split; [|split; [exact Hhfp|split; [by rewrite Hfp, Hp|split; [exact Hp|split; [exact Hgs|split; [exact Hfl1|split]]]]]].
  - by rewrite (bind_Ok _ _ _ _ _ Hws).
  - exists (d_total_seg_size s1). unfold holds_items. cbn [g seg_payload].
    destruct Hlay1 as (_ & _ & _ & _ & _ & Hsz1 & Ht1).
    rewrite Hsz1, <- Hi1, <- Hm1. split; [lia|done].
  - rewrite (counted_claimed_bytes _ Hgs), Hp. by apply offered_items_size.
Qed.

(** *** [work] with tags, for any layout that the tags keep *)

Lemma holds_items_within_cap isz mx new :
  0 < mx → Forall (holds_items isz mx) new → Forall (within_cap isz mx) new.
Proof.
  intros Hmx H. eapply Forall_impl; [exact H|].
  intros g Hg. exists mx. split; [lia|done].
Qed.

Section LayoutTags.
Variable L : list segment → list byte → sink → Prop.
Variable tag_ok : gr_tag_t → Prop.
Hypothesis L_sizes : ∀ gs pay s, L gs pay s →
  0 ≤ d_itemsize s ∧ 0 < d_max_seg_size s < 2 ^ 64 ∧
  0 ≤ d_total_seg_size s ≤ d_max_seg_size s ∧
  str_size pay = d_itemsize s * d_total_seg_size s.
Hypothesis L_put : ∀ gs pay s chunk c,
  L gs pay s → str_size chunk = c * d_itemsize s → 0 ≤ c →
  d_total_seg_size s + c ≤ d_max_seg_size s →
  ∃ f, d_fp s = Some f ∧
       L gs (pay ++ chunk)
         (set_total_seg_size (d_total_seg_size s + c)
            (set_fp (Some (file_put f chunk)) s)).
Hypothesis L_next : ∀ gs pay s,
  L gs pay s →
  ∃ s', start_next_segment s = Ok tt s' ∧
        L (gs ++ [mk_segment (finalised_header s) (d_extra s) pay]) [] s' ∧
        d_total_seg_size s' = 0 ∧
        d_updated s' = d_updated s ∧ d_itemsize s' = d_itemsize s ∧
        d_max_seg_size s' = d_max_seg_size s.
Hypothesis L_tag : ∀ gs pay s t,
  L gs pay s → tag_ok t →
  ∃ s', apply_tag t s = Ok tt s' ∧
        L (gs ++ closed_by_tag s pay) [] s' ∧
        d_total_seg_size s' = 0 ∧
        d_updated s' = d_updated s ∧ d_itemsize s' = d_itemsize s ∧
        d_max_seg_size s' = d_max_seg_size s.

Lemma closed_by_tag_payload gs pay s :
  L gs pay s →
  payload_of (gs ++ closed_by_tag s pay) = payload_of gs ++ pay ∧
  Forall (within_cap (d_itemsize s) (d_max_seg_size s)) (closed_by_tag s pay).
Proof.
  intros Hlay. destruct (L_sizes _ _ _ Hlay) as (Hi & Hm & Ht & Hpay).
  unfold closed_by_tag. destruct (Z.ltb_spec 0 (d_total_seg_size s)) as [Hpos|Hz].
  - rewrite payload_of_snoc. split; [done|]. apply Forall_singleton.
    exists (d_total_seg_size s). split; [lia|done].
  - assert (pay = []) as ->.
    { apply length_zero_iff_nil. unfold str_size in Hpay. nia. }
    by rewrite !app_nil_r.
Qed.

(** One round of the loop over the tags: payload up to the tag, then the
    tag. *)
Lemma tag_round_layout abs_N n l t gs pay s :
  L gs pay s → tag_ok t →
  d_total_seg_size s < d_max_seg_size s →
  os_accepts l = [] → 0 ≤ nwritten l ≤ n → n < 2 ^ 31 →
  abs_N ≤ offset t < abs_N + n →
  (n - nwritten l) * d_itemsize s ≤ str_size (inbuf l) →
  ∃ l' s' new,
    tag_round abs_N l t s = Ok l' s' ∧
    nwritten l ≤ nwritten l' ≤ n ∧ os_accepts l' = [] ∧
    inbuf l' = drop (Z.to_nat ((nwritten l' - nwritten l) * d_itemsize s)) (inbuf l) ∧
    L (gs ++ new) [] s' ∧
    Forall (within_cap (d_itemsize s) (d_max_seg_size s)) new ∧
    d_total_seg_size s' = 0 ∧
    payload_of (gs ++ new)
    = payload_of gs ++ pay
      ++ take (Z.to_nat ((nwritten l' - nwritten l) * d_itemsize s)) (inbuf l) ∧
    d_updated s' = d_updated s ∧ d_itemsize s' = d_itemsize s ∧
    d_max_seg_size s' = d_max_seg_size s.
Proof.
  intros Hlay Hok Hlt Hos Hn Hint Hoff Hbuf.
  destruct (L_sizes _ _ _ Hlay) as (Hi & Hm & Ht & Hpay).
  unfold tag_round, write_payload.
  rewrite wrap64_small, to_int_small by lia.
  set (k := offset t - abs_N).
  destruct (Z.le_gt_cases (nwritten l) k) as [Hle|Hgt].
  - destruct (payload_loop_layout L L_sizes L_put L_next
                (Z.to_nat (k - nwritten l)) true k l gs pay s Hlay Hlt Hos
                ltac:(lia) ltac:(lia) ltac:(nia) ltac:(lia))
      as (l' & s1 & new & pay1 & Hrun & Hnw & Hos' & Hin' & Hlay1 & Hfl1 & _
          & Hp1 & Hu1 & Hi1 & Hm1).
    rewrite (bind_Ok _ _ _ _ _ Hrun).
    destruct (L_tag _ _ _ t Hlay1 Hok) as (s' & Htag & Hlay' & Ht' & Hu' & Hi' & Hm').
    rewrite (bind_Ok _ _ _ _ _ Htag).
    destruct (closed_by_tag_payload _ _ _ Hlay1) as [Hcp Hcc].
    rewrite <- app_assoc in Hlay', Hcp.
    exists l', s', (new ++ closed_by_tag s1 pay1). rewrite Hnw.
    split; [reflexivity|]. split; [lia|]. split; [done|]. split; [done|].
    split; [done|]. split; [|split; [done|split; [|by rewrite Hu', Hi', Hm']]].
    + apply Forall_app. split; [by apply holds_items_within_cap; [lia|]|].
      by rewrite Hi1, Hm1 in Hcc.
    + by rewrite Hcp, Hp1.
  - rewrite (bind_Ok _ _ _ _ _ (payload_loop_done _ true k l s ltac:(lia))).
    destruct (L_tag _ _ _ t Hlay Hok) as (s' & Htag & Hlay' & Ht' & Hu' & Hi' & Hm').
    rewrite (bind_Ok _ _ _ _ _ Htag).
    destruct (closed_by_tag_payload _ _ _ Hlay) as [Hcp Hcc].
    exists l, s', (closed_by_tag s pay). rewrite Z.sub_diag, Z.mul_0_l.
    cbn [Z.to_nat]. rewrite drop_0, take_0, app_nil_r.
    split; [reflexivity|]. split; [lia|]. by repeat split.
Qed.

Lemma tag_loop_layout abs_N n ts l gs pay s :
  L gs pay s → Forall tag_ok ts →
  Forall (λ t, abs_N ≤ offset t < abs_N + n) ts →
  d_total_seg_size s < d_max_seg_size s →
  os_accepts l = [] → 0 ≤ nwritten l ≤ n → n < 2 ^ 31 →
  (n - nwritten l) * d_itemsize s ≤ str_size (inbuf l) →
  ∃ l' s' new pay',
    tag_loop abs_N l ts s = Ok l' s' ∧
    nwritten l ≤ nwritten l' ≤ n ∧ os_accepts l' = [] ∧
    inbuf l' = drop (Z.to_nat ((nwritten l' - nwritten l) * d_itemsize s)) (inbuf l) ∧
    L (gs ++ new) pay' s' ∧
    Forall (within_cap (d_itemsize s) (d_max_seg_size s)) new ∧
    d_total_seg_size s' < d_max_seg_size s' ∧
    payload_of (gs ++ new) ++ pay'
    = payload_of gs ++ pay
      ++ take (Z.to_nat ((nwritten l' - nwritten l) * d_itemsize s)) (inbuf l) ∧
    d_updated s' = d_updated s ∧ d_itemsize s' = d_itemsize s ∧
    d_max_seg_size s' = d_max_seg_size s.
Proof.
  intros Hlay Hok Hoff. revert l gs pay s Hlay.
  induction Hok as [|t ts Ht Hts IH]; intros l gs pay s Hlay Hlt Hos Hn Hint Hbuf;
    cbn [tag_loop].
  - exists l, s, [], pay. rewrite Z.sub_diag, Z.mul_0_l. cbn [Z.to_nat].
    rewrite drop_0, take_0, !app_nil_r. split; [reflexivity|]. split; [lia|].
    by repeat split.
  - apply Forall_cons in Hoff as [Hoff1 Hoff].
    destruct (L_sizes _ _ _ Hlay) as (Hi & Hm & _).
    destruct (tag_round_layout abs_N n l t gs pay s Hlay Ht Hlt Hos Hn Hint
                Hoff1 Hbuf)
      as (l1 & s1 & new1 & Hr1 & Hn1 & Hos1 & Hin1 & Hlay1 & Hfl1 & Ht1 & Hp1
          & Hu1 & Hi1 & Hm1).
    rewrite (bind_Ok _ _ _ _ _ Hr1).
    destruct (IH Hoff l1 (gs ++ new1) [] s1 Hlay1)
      as (l' & s' & new' & pay' & Hr' & Hn' & Hos' & Hin' & Hlay' & Hfl' & Hlt'
          & Hp' & Hu' & Hi' & Hm').
    + rewrite Ht1, Hm1. lia.
    + done.
    + lia.
    + done.
    + rewrite Hi1, Hin1. unfold str_size in *. rewrite length_drop. nia.
    + rewrite <- app_assoc in Hlay', Hp'. rewrite Hi1 in *. rewrite Hm1 in *.
      exists l', s', (new1 ++ new'), pay'.
      split; [exact Hr'|]. split; [lia|]. split; [done|]. split.
      { rewrite Hin', Hin1, drop_drop. f_equal. nia. }
      split; [done|]. split; [by apply Forall_app|]. split; [done|].
      split; [|by rewrite Hu', Hu1, Hi', Hm'].
      rewrite Hp'. cbn [app]. rewrite Hp1, Hin1, <- !app_assoc.
      do 2 f_equal. rewrite take_take_drop. f_equal. nia.
Qed.

Lemma work_tags_layout_run (gs : list segment) (pay : list byte) (s : sink)
    (n : Z) (input : list byte) (nitems_read : Z) (tags : list gr_tag_t) :
  L gs pay s →
  d_total_seg_size s < d_max_seg_size s → d_updated s = false →
  0 ≤ n < 2 ^ 31 → 0 ≤ nitems_read → nitems_read + n < 2 ^ 64 →
  str_size input = n * d_itemsize s →
  Forall tag_ok (get_tags_in_range tags nitems_read (wrap64 (nitems_read + n))) →
  ∃ s' new pay',
    work n input nitems_read tags [] s = Ok n s' ∧
    L (gs ++ new) pay' s' ∧
    Forall (within_cap (d_itemsize s) (d_max_seg_size s)) new ∧
    d_total_seg_size s' < d_max_seg_size s' ∧ d_updated s' = false ∧
    d_itemsize s' = d_itemsize s ∧ d_max_seg_size s' = d_max_seg_size s ∧
    payload_of (gs ++ new) ++ pay' = payload_of gs ++ pay ++ input.
Proof.
  intros Hlay Hlt Hup Hn Habs Hend Hin Hok.
  destruct (L_sizes _ _ _ Hlay) as (Hi & Hm & _).
  destruct (L_put gs pay s [] 0 Hlay ltac:(unfold str_size; cbn; lia)
              ltac:(lia) ltac:(lia)) as (f & Hfp & _).
  set (l0 := mk_locals 0 input []).
  set (ts := get_tags_in_range tags nitems_read (wrap64 (nitems_read + n))) in *.
  assert (Hoff : Forall (λ t, nitems_read ≤ offset t < nitems_read + n) ts).
  { subst ts. unfold get_tags_in_range. rewrite wrap64_small by lia.
    apply Forall_forall. intros t Ht. by apply list_elem_of_filter in Ht as [? _]. }
  destruct (tag_loop_layout nitems_read n ts l0 gs pay s Hlay Hok Hoff Hlt eq_refl
              ltac:(cbn; lia) ltac:(lia) ltac:(cbn; lia))
    as (l1 & s1 & new1 & pay1 & Hr1 & Hn1 & Hos1 & Hin1 & Hlay1 & Hfl1 & Hlt1
        & Hp1 & Hu1 & Hi1 & Hm1).
  cbn [l0 nwritten inbuf] in Hn1, Hin1, Hp1. rewrite Z.sub_0_r in Hin1, Hp1.
  destruct (payload_loop_layout L L_sizes L_put L_next
              (Z.to_nat (n - nwritten l1)) false n l1 (gs ++ new1) pay1 s1
              Hlay1 Hlt1 Hos1 ltac:(lia) ltac:(lia))
    as (l' & s' & new' & pay' & Hrun & Hnw & _ & _ & Hlay' & Hfl' & Hlt' & Hp'
        & Hu' & Hi' & Hm'); [| lia |].
  { rewrite Hi1, Hin1. unfold str_size in *. rewrite length_drop. nia. }
  rewrite <- app_assoc in Hlay', Hp'. rewrite Hi1 in *. rewrite Hm1 in *.
  exists s', (new1 ++ new'), pay'.
  split; [|split; [done|split; [|split; [by apply Hlt'|split; [congruence|split; [congruence|split; [congruence|]]]]]]].
  - unfold work. rewrite (bind_Ok _ _ _ _ _ (do_update_idle s Hup)).
    unfold bind at 1, get_sink at 1. rewrite Hfp. fold ts. fold l0.
    rewrite (bind_Ok _ _ _ _ _ Hr1). unfold write_payload.
    rewrite (bind_Ok _ _ _ _ _ Hrun). unfold ret. by rewrite Hnw.
  - apply Forall_app. split; [done|]. apply holds_items_within_cap; [lia|done].
  - rewrite Hp', app_assoc, Hp1, Hin1, <- !app_assoc. do 2 f_equal.
    rewrite take_take_drop.
    replace (Z.to_nat (nwritten l1 * d_itemsize s)
             + Z.to_nat ((n - nwritten l1) * d_itemsize s))%nat
      with (Z.to_nat (n * d_itemsize s)) by nia.
    apply take_ge. unfold str_size in Hin. lia.
Qed.
End LayoutTags.

(** *** Inline mode with tags on header fields *)

Lemma set_samp_rate_same s : set_samp_rate (d_samp_rate s) s = s.
Proof. by destruct s. Qed.

(** What [update_header] does with a tag on a header field. *)
Lemma update_header_tag s t :
  header_tag (pmt_shape <$> d_header s) t →
  ∃ v r, update_header (key t) (value t) s
         = Ok tt (set_header (<[key t := v]> (d_header s)) (set_samp_rate r s)) ∧
         pmt_shape <$> <[key t := v]> (d_header s) = pmt_shape <$> d_header s.
Proof.
  intros (Hb & Hs & Hk). rewrite update_header_store.
  case_bool_decide as Hr.
  - destruct Hk as [Hk [r Hr']]. rewrite Hr', Hr. rewrite lookup_fmap in Hk.
    destruct (d_header s !! "rx_rate") as [old|] eqn:Hold; [|done].
    injection Hk as Hk.
    exists (pmt_double (PrimFloat.mul r (d_relative_rate s))), r. split.
    + unfold store, pmt_dict_has_key. cbn [d_header set_samp_rate].
      rewrite bool_decide_eq_true_2 by (rewrite Hold; eauto). reflexivity.
    + by apply (kinds_insert _ _ _ old).
  - rewrite lookup_fmap in Hk.
    destruct (d_header s !! key t) as [old|] eqn:Hold; [|done].
    injection Hk as Hk. exists (value t), (d_samp_rate s). split.
    + rewrite set_samp_rate_same. unfold store, pmt_dict_has_key.
      rewrite bool_decide_eq_true_2 by (rewrite Hold; eauto). reflexivity.
    + by apply (kinds_insert _ _ _ old).
Qed.

(** A tag on a header field: with items in the segment, the segment is closed
    and the next one opens with the tag's value in its header; with none, the
    value goes into the record already written. *)
Lemma apply_tag_inline kinds gs pay s t :
  fixed_width → inline_layout_of kinds gs pay s → header_tag kinds t →
  ∃ s', apply_tag t s = Ok tt s' ∧
        inline_layout_of kinds (gs ++ closed_by_tag s pay) [] s' ∧
        d_total_seg_size s' = 0 ∧
        d_updated s' = d_updated s ∧ d_itemsize s' = d_itemsize s ∧
        d_max_seg_size s' = d_max_seg_size s.
Proof.
  intros Hfw [Hlay Hkinds] Htag.
  pose proof Hlay as (Hst & Hfit & Hfp & Hgs & Hpay & Ht).
  unfold apply_tag, closed_by_tag. unfold bind at 1, get_sink at 1.
  destruct (Z.ltb_spec 0 (d_total_seg_size s)) as [Hpos|Hz].
  - destruct (finalise_inline gs pay _ s Hfw Hst Hfit Hfp
                (header_fit_record_size s Hfit) Hgs Hpay Ht) as (H1 & Hlay1 & Hb1).
    set (s1 := note _ _) in H1, Hlay1, Hb1.
    destruct (inline_layout_whole gs pay s1 Hlay1 Hb1) as [Hfp1 Hgs1].
    pose proof Hlay1 as (_ & Hfit1 & _).
    pose proof Hfit1 as (_ & _ & Hstrt1 & _).
    assert (Hk1 : pmt_shape <$> d_header s1 = kinds).
    { rewrite <- Hkinds. by apply finalised_kinds. }
    destruct (update_header_tag s1 t ltac:(by rewrite Hk1)) as (v & r & H2 & Hk2).
    set (s2 := set_header _ _) in H2.
    assert (Hfit2 : header_fit s2).
    { apply (header_fit_kinds s1); try done.
      cbn [s2 d_header set_header]. rewrite lookup_insert_ne; [done|].
      by destruct Htag as (_ & ? & _). }
    destruct (write_and_update_inline_layout _ s2 Hfw Hst Hfit2 Hfp1 Hgs1 Ht)
      as (s3 & H3 & Hlay3 & Hk3 & Hu3 & Hi3 & Hm3).
    exists (set_total_seg_size 0 s3). split.
    + rewrite (bind_Ok _ _ _ _ _ H1), (bind_Ok _ _ _ _ _ H2), (bind_Ok _ _ _ _ _ H3).
      reflexivity.
    + split; [split; [exact Hlay3|]|done].
      cbn [d_header set_total_seg_size]. rewrite Hk3.
      cbn [s2 d_header set_header]. by rewrite Hk2.
  - assert (Hz0 : d_total_seg_size s = 0) by lia.
    assert (pay = []) as ->.
    { apply length_zero_iff_nil. unfold str_size in Hpay. nia. }
    destruct (update_header_tag s t ltac:(by rewrite Hkinds)) as (v & r & H1 & Hk1).
    set (s1 := set_header _ _) in H1.
    assert (Hfit1 : header_fit s1).
    { apply (header_fit_kinds s); try done.
      cbn [s1 d_header set_header]. rewrite lookup_insert_ne.
      - by destruct Hfit as (_ & _ & ? & _).
      - by destruct Htag as (_ & ? & _). }
    destruct (finalise_inline gs [] (record_bytes (d_header s) (d_extra s)) s1
                Hfw Hst Hfit1 Hfp (header_fit_record_size s Hfit) Hgs Hpay Ht)
      as (H2 & Hlay2 & _).
    eexists. split.
    + rewrite (bind_Ok _ _ _ _ _ H1). exact H2.
    + rewrite app_nil_r. split; [split; [exact Hlay2|]|done].
      cbn [d_header note set_fp set_header].
      rewrite (finalised_kinds _ Hfit1). cbn [s1 d_header set_header].
      by rewrite Hk1.
Qed.

Lemma inline_layout_of_sizes kinds gs pay s :
  inline_layout_of kinds gs pay s →
  0 ≤ d_itemsize s ∧ 0 < d_max_seg_size s < 2 ^ 64 ∧
  0 ≤ d_total_seg_size s ≤ d_max_seg_size s ∧
  str_size pay = d_itemsize s * d_total_seg_size s.
Proof. intros [H _]. exact (inline_layout_sizes gs pay s H). Qed.

Lemma inline_layout_of_put kinds gs pay s chunk c :
  inline_layout_of kinds gs pay s → str_size chunk = c * d_itemsize s → 0 ≤ c →
  d_total_seg_size s + c ≤ d_max_seg_size s →
  ∃ f, d_fp s = Some f ∧
       inline_layout_of kinds gs (pay ++ chunk)
         (set_total_seg_size (d_total_seg_size s + c)
            (set_fp (Some (file_put f chunk)) s)).
Proof.
  intros [Hlay Hk] Hchunk Hc Hmax.
  destruct (inline_layout_put_stream gs pay s chunk c Hlay Hchunk Hc Hmax)
    as (f & Hf & Hlay').
  exists f. split; [exact Hf|]. split; [exact Hlay'|exact Hk].
Qed.

Lemma inline_layout_of_next kinds gs pay s :
  fixed_width → inline_layout_of kinds gs pay s →
  ∃ s', start_next_segment s = Ok tt s' ∧
        inline_layout_of kinds
          (gs ++ [mk_segment (finalised_header s) (d_extra s) pay]) [] s' ∧
        d_total_seg_size s' = 0 ∧
        d_updated s' = d_updated s ∧ d_itemsize s' = d_itemsize s ∧
        d_max_seg_size s' = d_max_seg_size s.
Proof.
  intros Hfw [Hlay Hk].
  destruct (start_next_segment_inline_kinds gs pay s Hfw Hlay)
    as (s' & Hr & Hlay' & Hk' & Hrest).
  exists s'. split; [done|]. split; [|done]. split; [done|]. by rewrite Hk'.
Qed.


(** *** Detached mode with tags on header fields *)

Lemma finalise_detached gs pay old s :
  fixed_width → d_state s = STATE_DETACHED → header_fit s →
  d_hdr_fp s = Some (at_end (records_of gs ++ old)) →
  d_fp s = Some (at_end (payload_of gs ++ pay)) →
  str_size old = METADATA_HEADER_SIZE + d_extra_size s →
  Forall counted gs →
  str_size pay = d_itemsize s * d_total_seg_size s →
  0 ≤ d_total_seg_size s ≤ d_max_seg_size s →
  let s' := note (ev_write_header the_hdr_fp (finalised_header s) (d_extra s))
              (set_hdr_fp (Some (at_end (records_of gs
                                         ++ record_bytes (finalised_header s)
                                                         (d_extra s))))
                          (set_header (finalised_header s) s)) in
  update_last_header s = Ok tt s' ∧ detached_layout gs pay s' ∧
  bytes_field (d_header s') = Some (str_size pay).
Proof.
  intros Hfw Hst Hfit Hhfp Hfp Hold Hgs Hpay Ht s'.
  destruct (header_fit_finalised s Hfw Hfit Ht) as [Hfin Hfinsz].
  pose proof Hfit as (Hh & He & Hstrt & [b Hb] & _ & Hi & Hm & Hbound).
  pose proof (str_size_nonneg old).
  split; [|split].
  - unfold update_last_header, bind, get_sink. rewrite Hst.
    apply (update_last_header_detached_run s (records_of gs) old
             (METADATA_HEADER_SIZE + d_extra_size s)).
    + exact Hhfp.
    + unfold strt_field. by rewrite Hstrt.
    + by rewrite Hb.
    + exact Hold.
    + nia.
    + exact He.
    + unfold record_bytes. rewrite str_size_app, Hfinsz.
      unfold extra_in_sync in He. lia.
  - split; [exact Hst|]. split; [|split; [reflexivity|done]].
    apply (header_fit_kinds s); try done.
    + by apply finalised_kinds.
    + cbn [s' d_header note set_hdr_fp set_header]. rewrite Hfin.
      by rewrite lookup_insert_eq.
  - cbn [s' d_header note set_hdr_fp set_header].
    rewrite finalised_header_bytes, wrap64_small by nia. by rewrite Hpay.
Qed.

Lemma write_and_update_detached_layout gs s :
  fixed_width → d_state s = STATE_DETACHED → header_fit s →
  d_hdr_fp s = Some (at_end (records_of gs)) →
  d_fp s = Some (at_end (payload_of gs)) → Forall counted gs →
  0 ≤ d_total_seg_size s ≤ d_max_seg_size s →
  ∃ s', write_and_update s = Ok tt s' ∧
        detached_layout gs [] (set_total_seg_size 0 s') ∧
        pmt_shape <$> d_header s' = pmt_shape <$> d_header s ∧
        d_updated s' = d_updated s ∧ d_itemsize s' = d_itemsize s ∧
        d_max_seg_size s' = d_max_seg_size s.
Proof.
  intros Hfw Hst Hfit Hhfp Hfp Hgs Ht.
  pose proof Hfit as (Hh & He & Hstrt & [b Hb] & _ & Hi & Hm & Hbound).
  assert (H3 := write_and_update_detached_run s (records_of gs) Hst Hhfp He
                  ltac:(rewrite Hb; eauto) ltac:(rewrite Hstrt; eauto)).
  eexists. split; [exact H3|]. split; [|split; [|done]].
  - split; [exact Hst|]. split; [|split; [|split; [|split; [done|split]]]].
    + apply (header_fit_kinds s); try done.
      * by apply fresh_kinds.
      * cbn. unfold fresh_header. rewrite lookup_insert_eq.
        rewrite wrap64_small; [done|]. unfold extra_in_sync in He.
        pose proof (str_size_nonneg (pmt_serialize_str (d_header s))).
        pose proof (str_size_nonneg (pmt_serialize_str (d_extra s))).
        cbn [d_extra_size set_header]. nia.
    + reflexivity.
    + cbn. by rewrite Hfp, app_nil_r.
    + cbn. unfold str_size. cbn. lia.
    + cbn. lia.
  - cbn. by apply fresh_kinds.
Qed.

Lemma detached_layout_whole gs pay s :
  detached_layout gs pay s → bytes_field (d_header s) = Some (str_size pay) →
  let g := mk_segment (d_header s) (d_extra s) pay in
  d_hdr_fp s = Some (at_end (records_of (gs ++ [g]))) ∧
  d_fp s = Some (at_end (payload_of (gs ++ [g]))) ∧
  Forall counted (gs ++ [g]).
Proof.
  intros (Hst & Hfit & Hhfp & Hfp & Hgs & Hpay & Ht) Hb g. split; [|split].
  - rewrite Hhfp, records_of_snoc. reflexivity.
  - rewrite Hfp, payload_of_snoc. reflexivity.
  - apply Forall_app. split; [done|]. by apply Forall_singleton.
Qed.

Lemma start_next_segment_detached_kinds gs pay s :
  fixed_width → detached_layout gs pay s →
  ∃ s', start_next_segment s = Ok tt s' ∧
        detached_layout (gs ++ [mk_segment (finalised_header s) (d_extra s) pay]) [] s' ∧
        pmt_shape <$> d_header s' = pmt_shape <$> d_header s ∧
        d_total_seg_size s' = 0 ∧
        d_updated s' = d_updated s ∧ d_itemsize s' = d_itemsize s ∧
        d_max_seg_size s' = d_max_seg_size s.
Proof.
  intros Hfw Hlay. pose proof Hlay as (Hst & Hfit & Hhfp & Hfp & Hgs & Hpay & Ht).
  destruct (finalise_detached gs pay _ s Hfw Hst Hfit Hhfp Hfp
              (header_fit_record_size s Hfit) Hgs Hpay Ht) as (H1 & Hlay1 & Hb1).
  set (s1 := note _ _) in H1, Hlay1, Hb1.
  destruct (detached_layout_whole gs pay s1 Hlay1 Hb1) as (Hhfp1 & Hfp1 & Hgs1).
  pose proof Hlay1 as (_ & Hfit1 & _).
  pose proof Hfit1 as (_ & _ & Hstrt1 & _ & (secs & fracs & Hrx1) & _).
  pose proof (update_rx_time_unfold s1 secs fracs Hrx1) as H2.
  set (s2 := note _ _) in H2.
  assert (Hk2 : pmt_shape <$> d_header s2 = pmt_shape <$> d_header s1).
  { cbn [s2 d_header note set_header].
    by apply (kinds_insert _ _ _ (pmt_tuple [pmt_uint64 secs; pmt_double fracs])). }
  assert (Hfit2 : header_fit s2).
  { apply (header_fit_kinds s1); try done.
    cbn [s2 d_header note set_header]. by rewrite lookup_insert_ne. }
  destruct (write_and_update_detached_layout _ s2 Hfw Hst Hfit2 Hhfp1 Hfp1 Hgs1 Ht)
    as (s3 & H3 & Hlay3 & Hk3 & Hu3 & Hi3 & Hm3).
  exists (set_total_seg_size 0 s3). split.
  - unfold start_next_segment.
    rewrite (bind_Ok _ _ _ _ _ H1), (bind_Ok _ _ _ _ _ H2), (bind_Ok _ _ _ _ _ H3).
    reflexivity.
  - split; [exact Hlay3|]. split; [|done].
    cbn [d_header set_total_seg_size]. rewrite Hk3, Hk2.
    by apply finalised_kinds.
Qed.

Lemma apply_tag_detached kinds gs pay s t :
  fixed_width → detached_layout_of kinds gs pay s → header_tag kinds t →
  ∃ s', apply_tag t s = Ok tt s' ∧
        detached_layout_of kinds (gs ++ closed_by_tag s pay) [] s' ∧
        d_total_seg_size s' = 0 ∧
        d_updated s' = d_updated s ∧ d_itemsize s' = d_itemsize s ∧
        d_max_seg_size s' = d_max_seg_size s.
Proof.
  intros Hfw [Hlay Hkinds] Htag.
  pose proof Hlay as (Hst & Hfit & Hhfp & Hfp & Hgs & Hpay & Ht).
  unfold apply_tag, closed_by_tag. unfold bind at 1, get_sink at 1.
  destruct (Z.ltb_spec 0 (d_total_seg_size s)) as [Hpos|Hz].
  - destruct (finalise_detached gs pay _ s Hfw Hst Hfit Hhfp Hfp
                (header_fit_record_size s Hfit) Hgs Hpay Ht) as (H1 & Hlay1 & Hb1).
    set (s1 := note _ _) in H1, Hlay1, Hb1.
    destruct (detached_layout_whole gs pay s1 Hlay1 Hb1) as (Hhfp1 & Hfp1 & Hgs1).
    pose proof Hlay1 as (_ & Hfit1 & _).
    pose proof Hfit1 as (_ & _ & Hstrt1 & _).
    assert (Hk1 : pmt_shape <$> d_header s1 = kinds).
    { rewrite <- Hkinds. by apply finalised_kinds. }
    destruct (update_header_tag s1 t ltac:(by rewrite Hk1)) as (v & r & H2 & Hk2).
    set (s2 := set_header _ _) in H2.
    assert (Hfit2 : header_fit s2).
    { apply (header_fit_kinds s1); try done.
      cbn [s2 d_header set_header]. rewrite lookup_insert_ne; [done|].
      by destruct Htag as (_ & ? & _). }
    destruct (write_and_update_detached_layout _ s2 Hfw Hst Hfit2 Hhfp1 Hfp1 Hgs1 Ht)
      as (s3 & H3 & Hlay3 & Hk3 & Hu3 & Hi3 & Hm3).
    exists (set_total_seg_size 0 s3). split.
    + rewrite (bind_Ok _ _ _ _ _ H1), (bind_Ok _ _ _ _ _ H2), (bind_Ok _ _ _ _ _ H3).
      reflexivity.
    + split; [split; [exact Hlay3|]|done].
      cbn [d_header set_total_seg_size]. rewrite Hk3.
      cbn [s2 d_header set_header]. by rewrite Hk2.
  - assert (Hz0 : d_total_seg_size s = 0) by lia.
    assert (pay = []) as ->.
    { apply length_zero_iff_nil. unfold str_size in Hpay. nia. }
    destruct (update_header_tag s t ltac:(by rewrite Hkinds)) as (v & r & H1 & Hk1).
    set (s1 := set_header _ _) in H1.
    assert (Hfit1 : header_fit s1).
    { apply (header_fit_kinds s); try done.
      cbn [s1 d_header set_header]. rewrite lookup_insert_ne.
      - by destruct Hfit as (_ & _ & ? & _).
      - by destruct Htag as (_ & ? & _). }
    destruct (finalise_detached gs [] (record_bytes (d_header s) (d_extra s)) s1
                Hfw Hst Hfit1 Hhfp Hfp (header_fit_record_size s Hfit) Hgs Hpay Ht)
      as (H2 & Hlay2 & _).
    eexists. split.
    + rewrite (bind_Ok _ _ _ _ _ H1). exact H2.
    + rewrite app_nil_r. split; [split; [exact Hlay2|]|done].
      cbn [d_header note set_hdr_fp set_header].
      rewrite (finalised_kinds _ Hfit1). cbn [s1 d_header set_header].
      by rewrite Hk1.
Qed.

Lemma detached_layout_of_sizes kinds gs pay s :
  detached_layout_of kinds gs pay s →
  0 ≤ d_itemsize s ∧ 0 < d_max_seg_size s < 2 ^ 64 ∧
  0 ≤ d_total_seg_size s ≤ d_max_seg_size s ∧
  str_size pay = d_itemsize s * d_total_seg_size s.
Proof. intros [H _]. exact (detached_layout_sizes gs pay s H). Qed.

Lemma detached_layout_of_put kinds gs pay s chunk c :
  detached_layout_of kinds gs pay s → str_size chunk = c * d_itemsize s → 0 ≤ c →
  d_total_seg_size s + c ≤ d_max_seg_size s →
  ∃ f, d_fp s = Some f ∧
       detached_layout_of kinds gs (pay ++ chunk)
         (set_total_seg_size (d_total_seg_size s + c)
            (set_fp (Some (file_put f chunk)) s)).
Proof.
  intros [Hlay Hk] Hchunk Hc Hmax.
  destruct (detached_layout_put_stream gs pay s chunk c Hlay Hchunk Hc Hmax)
    as (f & Hf & Hlay').
  exists f. split; [exact Hf|]. split; [exact Hlay'|exact Hk].
Qed.

Lemma detached_layout_of_next kinds gs pay s :
  fixed_width → detached_layout_of kinds gs pay s →
  ∃ s', start_next_segment s = Ok tt s' ∧
        detached_layout_of kinds
          (gs ++ [mk_segment (finalised_header s) (d_extra s) pay]) [] s' ∧
        d_total_seg_size s' = 0 ∧
        d_updated s' = d_updated s ∧ d_itemsize s' = d_itemsize s ∧
        d_max_seg_size s' = d_max_seg_size s.
Proof.
  intros Hfw [Hlay Hk].
  destruct (start_next_segment_detached_kinds gs pay s Hfw Hlay)
    as (s' & Hr & Hlay' & Hk' & Hrest).
  exists s'. split; [done|]. split; [|done]. split; [done|]. by rewrite Hk'.
Qed.


End Invariance.

(** ** Concrete runs

    An object built with the example codec: four-byte items, segments of at
    most three items, a nominal rate of 1000 items per second halved by the
    relative rate, a file system on which every file can be created. *)
Module Run.
Import ExampleCodec.

Definition os_ok : string → open_outcome := λ _, opens.

Definition new_inline : res unit :=
  gr_file_meta_sink os_ok 4 "capture" 1000%float 0.5%float 0 false 3 [] false.

Definition new_detached : res unit :=
  gr_file_meta_sink os_ok 4 "capture" 1000%float 0.5%float 0 false 3 [] true.

End Run.

Import ExampleCodec.

Lemma constructor_writes_first_header_witness :
  ∃ s, gr_file_meta_sink Run.os_ok 4 "capture" 1000%float 0.5%float 0 false 3
                         [] true = Ok tt s ∧
       header_stream s = the_hdr_fp ∧
       bytes_field (d_header s) = Some 0 ∧
       strt_field (d_header s) = Some (wrap64 (142 + d_extra_size s)).
Proof.
  exists (final_state Run.new_detached).
  assert (Hs : gr_file_meta_sink Run.os_ok 4 "capture" 1000%float 0.5%float 0
                 false 3 [] true = Ok tt (final_state Run.new_detached))
    by (vm_compute; reflexivity).
  split; [exact Hs|].
  destruct (constructor_writes_first_header _ _ _ _ _ _ _ _ _ _ _ Hs)
    as (Hw & _ & Hb & Hstrt & _).
  exact (conj Hw (conj Hb Hstrt)).
Defined.

Lemma work_without_stream_drops_input_witness :
  let s := final_state (close (final_state Run.new_inline)) in
  d_fp (final_state (do_update s)) = None ∧
  work 5 (replicate 20 x01) 0 [] [] s = Ok 5 (final_state (do_update s)).
Proof.
  intros s.
  assert (Hnone : d_fp (final_state (do_update s)) = None)
    by (vm_compute; reflexivity).
  split; [exact Hnone|].
  exact (proj1 (work_without_stream_drops_input 5 (replicate 20 x01) 0 [] [] s
                  Hnone)).
Defined.

Lemma new_inline_Ok :
  gr_file_meta_sink Run.os_ok 4 "capture" 1000%float 0.5%float 0 false 3 []
                    false = Ok tt (final_state Run.new_inline).
Proof. vm_compute. reflexivity. Qed.

Lemma segment_never_exceeds_cap_witness :
  let s := final_state (work 5 (replicate 20 x01) 0 [] []
                          (final_state Run.new_inline)) in
  reachable s ∧ 0 ≤ d_total_seg_size s ≤ d_max_seg_size s.
Proof.
  intros s.
  assert (Hr : reachable s).
  { apply reach_work. exact (reach_new _ _ _ _ _ _ _ _ _ _ _ new_inline_Ok). }
  split; [exact Hr|]. exact (proj1 (segment_never_exceeds_cap s Hr)).
Defined.

Lemma rate_tag_stores_effective_rate_witness :
  let s := final_state Run.new_inline in
  pmt_to_double (pmt_double 2000) = Some 2000%float ∧
  is_Some (d_header s !! "rx_rate") ∧
  ∃ s', update_header "rx_rate" (pmt_double 2000) s = Ok tt s' ∧
        d_header s' !! "rx_rate" = Some (pmt_double 1000).
Proof.
  intros s.
  assert (Hk : is_Some (d_header s !! "rx_rate")) by (vm_compute; eauto).
  split; [reflexivity|]. split; [exact Hk|].
  destruct (rate_tag_stores_effective_rate s (pmt_double 2000) 2000%float
              eq_refl Hk) as (s' & Hs' & Hrate & _).
  exists s'. split; [exact Hs'|]. rewrite Hrate. reflexivity.
Defined.

(** C6 — the size test joins its two comparisons with a conjunction: a header
    that is not [METADATA_HEADER_SIZE] bytes long is written all the same as
    long as the extension has its tracked length.  Here the header's [size]
    field holds a symbol, the record is 139 bytes instead of 142, and
    [write_header] appends it to the file. *)
Theorem write_header_lets_wrong_size_through :
  let s := final_state Run.new_inline in
  let h := <["size" := pmt_symbol "abc"]> (d_header s) in
  str_size (pmt_serialize_str h) = 139 ∧
  METADATA_HEADER_SIZE = 142 ∧
  str_size (pmt_serialize_str (d_extra s)) = d_extra_size s ∧
  ∃ s', write_header the_fp h (d_extra s) s = Ok tt s' ∧
        f_data <$> d_fp s'
        = (λ f, f_data f ++ record_bytes h (d_extra s)) <$> d_fp s.
Proof.
  intros s h. repeat split; try (vm_compute; reflexivity).
  exists (final_state (write_header the_fp h (d_extra s) s)).
  split; vm_compute; reflexivity.
Qed.

(** C7 — a payload [fwrite] in front of a tag that returns 0 only leaves the
    inner loop.  With a tag at item 1 and a first [fwrite] that writes
    nothing, the call still applies the tag, then writes both items in the
    loop after the tags and returns 2. *)
Theorem work_writes_on_after_failed_fwrite :
  let s := final_state Run.new_inline in
  let buf := replicate 8 x01 in
  ∃ s', work 2 buf 0 [mk_tag 1 "rx_rate" (pmt_double 2000)] [0] s = Ok 2 s' ∧
        f_data <$> d_fp s'
        = Some (record_bytes (d_header s') (d_extra s') ++ buf).
Proof.
  intros s buf.
  exists (final_state
            (work 2 buf 0 [mk_tag 1 "rx_rate" (pmt_double 2000)] [0] s)).
  split; vm_compute; reflexivity.
Qed.

(** C3 — an annotation that lands on a still-empty segment and whose key is
    [strt] makes [update_last_header] read the length of the header to rewrite
    from the annotation itself.  With the value 0 the header is not rewritten
    where it is: a second record is appended behind the first, both for item
    offset 0. *)
Theorem strt_tag_appends_second_header :
  let s := final_state Run.new_inline in
  d_total_seg_size s = 0 ∧
  ∃ s', apply_tag (mk_tag 0 "strt" (pmt_uint64 0)) s = Ok tt s' ∧
        f_data <$> d_fp s'
        = Some (record_bytes (d_header s) (d_extra s)
                ++ record_bytes (d_header s') (d_extra s')).
Proof.
  intros s. split; [reflexivity|].
  exists (final_state (apply_tag (mk_tag 0 "strt" (pmt_uint64 0)) s)).
  split; vm_compute; reflexivity.
Qed.

(** ** Runs for the invariants *)

Lemma new_inline_reachable : reachable (final_state Run.new_inline).
Proof. exact (reach_new _ _ _ _ _ _ _ _ _ _ _ new_inline_Ok). Qed.

Lemma header_keeps_standard_fields_witness :
  let s := final_state Run.new_inline in
  reachable s ∧
  (pmt_dict_has_key (d_header s) "strt" = true ↔ "strt" ∈ standard_fields).
Proof.
  intros s. split; [exact new_inline_reachable|].
  exact (header_keeps_standard_fields s "strt" new_inline_reachable).
Defined.


Lemma destructor_releases_streams_witness :
  let s := final_state Run.new_inline in
  reachable s ∧
  ∃ s', gr_file_meta_sink_dtor s = Ok tt s' ∧ open_streams s' = [].
Proof.
  intros s. split; [exact new_inline_reachable|].
  assert (Hc : close s = Ok tt (final_state (close s)))
    by (vm_compute; reflexivity).
  exact (proj1 (destructor_releases_streams s new_inline_reachable) _ Hc).
Defined.

Lemma open_twice_dereferences_null_witness :
  let s := final_state Run.new_inline in
  d_state s = STATE_INLINE ∧ d_new_fp s = None ∧
  ∃ s1, open Run.os_ok "second" s = Ok true s1 ∧
        open Run.os_ok "third" s1 = Throw null_stream s1.
Proof.
  intros s.
  assert (H1 : d_state s = STATE_INLINE) by reflexivity.
  assert (H2 : d_new_fp s = None) by reflexivity.
  assert (H3 : Run.os_ok "third" ≠ open_fails) by discriminate.
  split; [exact H1|]. split; [exact H2|].
  destruct (open_twice_dereferences_null s Run.os_ok Run.os_ok "second" "third"
              H1 H2 eq_refl H3) as (s1 & Ho & _ & _ & Ht).
  exists s1. exact (conj Ho Ht).
Defined.

Lemma timestamp_advances_by_full_segments_witness :
  let s := final_state (work 5 (replicate 20 x01) 0 [] []
                          (final_state Run.new_inline)) in
  reachable s ∧ ev_update_rx_time 3 ∈ history s ∧ 3 = d_max_seg_size s.
Proof.
  intros s.
  assert (Hr : reachable s) by (apply reach_work; exact new_inline_reachable).
  assert (Hin : ev_update_rx_time 3 ∈ history s).
  { apply (list_elem_of_lookup_2 _ 2). vm_compute. reflexivity. }
  split; [exact Hr|]. split; [exact Hin|].
  exact (timestamp_advances_by_full_segments s 3 Hr Hin).
Defined.

Lemma update_rx_time_fraction_in_unit_witness :
  let s := set_total_seg_size 3 (final_state Run.new_inline) in
  d_header s !! "rx_time" = Some (pmt_tuple [pmt_uint64 0; pmt_double 0]) ∧
  ∃ s' secs' fracs',
    update_rx_time s = Ok tt s' ∧
    d_header s' !! "rx_time"
      = Some (pmt_tuple [pmt_uint64 secs'; pmt_double fracs']) ∧
    in_unit fracs'.
Proof.
  intros s.
  assert (Hrx : d_header s !! "rx_time"
                = Some (pmt_tuple [pmt_uint64 0; pmt_double 0]))
    by (vm_compute; reflexivity).
  assert (Hfit : fits_uint64
                   (PrimFloat.add 0 (elapsed (d_total_seg_size s) (d_samp_rate s)
                                             (d_relative_rate s))))
    by (split; vm_compute; reflexivity).
  split; [exact Hrx|].
  destruct (update_rx_time_fraction_in_unit s 0 0%float Hrx Hfit)
    as (s' & secs' & fracs' & Hs' & Hh & _ & Hu & _).
  exists s', secs', fracs'. exact (conj Hs' (conj Hh Hu)).
Defined.



Lemma new_detached_Ok :
  gr_file_meta_sink Run.os_ok 4 "capture" 1000%float 0.5%float 0 false 3 []
                    true = Ok tt (final_state Run.new_detached).
Proof. vm_compute. reflexivity. Qed.

Lemma detached_data_file_is_payload_witness :
  let s := final_state Run.new_detached in
  let buf := replicate 20 x01 in
  let r := work 5 buf 0 [mk_tag 2 "note" (pmt_symbol "x")] [] s in
  d_state s = STATE_DETACHED ∧ d_fp s = Some (at_end []) ∧
  r = Ok 5 (final_state r) ∧
  d_fp (final_state r) = Some (at_end ([] ++ items (d_itemsize s) 5 buf)).
Proof.
  intros s buf r.
  assert (H1 : d_state s = STATE_DETACHED) by (vm_compute; reflexivity).
  assert (H2 : d_updated s = false) by (vm_compute; reflexivity).
  assert (H3 : d_fp s = Some (at_end [])) by (vm_compute; reflexivity).
  assert (H4 : 0 ≤ d_itemsize s) by (vm_compute; discriminate).
  assert (Hr : r = Ok 5 (final_state r)) by (vm_compute; reflexivity).
  split; [exact H1|]. split; [exact H3|]. split; [exact Hr|].
  exact (proj2 (proj1 (detached_data_file_is_payload s [] 5 buf 0
                         [mk_tag 2 "note" (pmt_symbol "x")] [] H1 H2 H3 H4)
                  5 (final_state r) Hr)).
Defined.

Lemma work_consumes_at_most_offered_witness :
  let s := final_state Run.new_inline in
  let r := work 5 (replicate 20 x01) 3 [mk_tag 4 "note" (pmt_symbol "x")] [1; 0] s in
  ∃ n s', r = Ok n s' ∧ 0 ≤ n ≤ 5.
Proof.
  intros s r.
  assert (Hr : r = Ok 1 (final_state r)) by (vm_compute; reflexivity).
  exists 1, (final_state r). split; [exact Hr|].
  exact (work_consumes_at_most_offered s (final_state r) 5 (replicate 20 x01) 3
           [mk_tag 4 "note" (pmt_symbol "x")] [1; 0] 1
           ltac:(lia) ltac:(lia) ltac:(lia) Hr).
Defined.

(** *** The example codec writes numbers in a fixed width *)

Lemma be_bytes_length n z : length (be_bytes n z) = n.
Proof.
  revert z. induction n as [|n IH]; intros z; [done|].
  cbn [be_bytes]. rewrite length_app, IH. cbn. lia.
Qed.

Fixpoint pmt_bytes_shape (x : pmt_t) :
  length (pmt_bytes (pmt_shape x)) = length (pmt_bytes x).
Proof.
  destruct x as [| | |s|z|z|d|elts]; try reflexivity.
  cbn [pmt_shape pmt_bytes length]. do 2 f_equal.
  induction elts as [|e elts IH]; [done|].
  cbn [map]. rewrite !length_app, pmt_bytes_shape, IH. reflexivity.
Qed.

Lemma entries_length_shape (l : list (string * pmt_t)) :
  length (concat (entry_bytes <$> (prod_map id pmt_shape <$> l)))
  = length (concat (entry_bytes <$> l)).
Proof.
  induction l as [|[k v] l IH]; [done|].
  cbn [fmap list_fmap concat prod_map]. rewrite !length_app.
  fold (@fmap list _ _ _ (prod_map id pmt_shape) l).
  fold (@fmap list _ _ _ entry_bytes (prod_map id pmt_shape <$> l)).
  fold (@fmap list _ _ _ entry_bytes l).
  rewrite IH. unfold entry_bytes. cbn [fst snd id]. rewrite !length_app.
  by rewrite pmt_bytes_shape.
Qed.

Lemma example_codec_fixed_width : fixed_width.
Proof.
  assert (∀ h : pmt_dict,
            str_size (pmt_serialize_str (pmt_shape <$> h))
            = str_size (pmt_serialize_str h)) as Hshape.
  { intros h. unfold str_size. cbn [pmt_serialize_str codec]. unfold serialize.
    rewrite !length_app, map_to_list_fmap. by rewrite entries_length_shape. }
  intros h h' Heq. by rewrite <- (Hshape h), Heq, Hshape.
Qed.

Lemma new_inline_layout :
  inline_layout [] [] (final_state Run.new_inline) ∧
  d_total_seg_size (final_state Run.new_inline) = 0 ∧
  d_updated (final_state Run.new_inline) = false.
Proof.
  apply (constructor_inline_layout _ _ _ _ _ _ _ _ _ _ new_inline_Ok).
  - vm_compute. reflexivity.
  - vm_compute. reflexivity.
  - vm_compute. reflexivity.
Qed.



Lemma inline_file_accounts_for_every_item_witness :
  let calls := [(5, replicate 20 x01); (2, replicate 8 x02)] in
  ∃ s gs g,
    (works calls 0 >> close) (final_state Run.new_inline) = Ok tt s ∧
    d_fp s = Some (at_end (file_of (gs ++ [g]))) ∧
    payload_of (gs ++ [g]) = replicate 20 x01 ++ replicate 8 x02 ++ [] ∧
    claimed_bytes (gs ++ [g])
    = d_itemsize (final_state Run.new_inline) * (5 + (2 + 0)).
Proof.
  intros calls.
  assert (H1 : str_size (pmt_serialize_str (d_header (final_state Run.new_inline)))
               = METADATA_HEADER_SIZE) by (vm_compute; reflexivity).
  assert (H2 : 0 < d_max_seg_size (final_state Run.new_inline))
    by (vm_compute; reflexivity).
  assert (H3 : METADATA_HEADER_SIZE + d_extra_size (final_state Run.new_inline)
               + d_itemsize (final_state Run.new_inline)
                 * d_max_seg_size (final_state Run.new_inline) < 2 ^ 63)
    by (vm_compute; reflexivity).
  assert (H4 : Forall (λ c : Z * list byte,
                         0 ≤ c.1 < 2 ^ 64 ∧
                         str_size c.2 = c.1 * d_itemsize (final_state Run.new_inline))
                      calls).
  { repeat constructor; vm_compute; (reflexivity || discriminate). }
  destruct (inline_file_accounts_for_every_item _ _ _ _ _ _ _ _ _ _ calls
              example_codec_fixed_width new_inline_Ok H1 H2 H3 H4)
    as (s & gs & g & Hrun & Hfp & _ & _ & _ & Hp & Hb).
  exists s, gs, g. exact (conj Hrun (conj Hfp (conj Hp Hb))).
Defined.

Lemma closed_sink_drops_input_witness :
  let s := final_state Run.new_inline in
  let s1 := final_state (close s) in
  close s = Ok tt s1 ∧
  ∃ s2, work 5 (replicate 20 x01) 0 [] [] s1 = Ok 5 s2 ∧ d_fp s2 = None.
Proof.
  intros s s1.
  assert (Hc : close s = Ok tt s1) by (vm_compute; reflexivity).
  split; [exact Hc|].
  destruct (closed_sink_drops_input s s1 5 (replicate 20 x01) 0 [] [] Hc)
    as (s2 & Hw & Hfp & _).
  exists s2. exact (conj Hw Hfp).
Defined.


Lemma zero_cap_consumes_nothing_witness :
  let s := final_state (gr_file_meta_sink Run.os_ok 4 "capture" 1000%float
                          0.5%float 0 false 0 [] false) in
  let f := default fresh_FILE (d_fp s) in
  d_fp s = Some f ∧ d_max_seg_size s = 0 ∧
  ∃ s', work 5 (replicate 20 x01) 0 [] [] s = Ok 0 s' ∧ d_fp s' = Some f.
Proof.
  intros s f.
  assert (H1 : d_updated s = false) by (vm_compute; reflexivity).
  assert (H2 : d_fp s = Some f) by (vm_compute; reflexivity).
  assert (H3 : d_max_seg_size s = 0) by (vm_compute; reflexivity).
  assert (H4 : d_total_seg_size s = 0) by (vm_compute; reflexivity).
  split; [exact H2|]. split; [exact H3|].
  destruct (zero_cap_consumes_nothing s f 5 (replicate 20 x01) 0 []
              H1 H2 H3 H4 ltac:(lia)) as (s' & Hw & Hfp & _).
  exists s'. exact (conj Hw Hfp).
Defined.

Lemma strt_tag_of_wrong_kind_breaks_finalisation_witness :
  let s := final_state Run.new_inline in
  let s1 := set_header (<["strt" := pmt_symbol "abc"]> (d_header s)) s in
  d_total_seg_size s = 0 ∧ pmt_to_uint64 (pmt_symbol "abc") = None ∧
  apply_tag (mk_tag 0 "strt" (pmt_symbol "abc")) s
    = Throw (pmt_wrong_type "pmt_to_uint64") s1 ∧
  close s1 = Throw (pmt_wrong_type "pmt_to_uint64") s1.
Proof.
  intros s s1.
  assert (H1 : d_total_seg_size s = 0) by (vm_compute; reflexivity).
  assert (H2 : is_Some (d_header s !! "strt")) by (vm_compute; eauto).
  split; [exact H1|]. split; [reflexivity|].
  destruct (strt_tag_of_wrong_kind_breaks_finalisation s 0 (pmt_symbol "abc")
              H1 H2 eq_refl) as (Ha & Hc & _).
  exact (conj Ha Hc).
Defined.

Lemma applied_tag_is_on_disk_witness :
  let s := final_state Run.new_inline in
  let t := mk_tag 0 "note" (pmt_symbol "x") in
  let s' := final_state (apply_tag t s) in
  apply_tag t s = Ok tt s' ∧
  stored (pmt_dict_has_key (d_header s) "note") "note" (pmt_symbol "x") s' ∧
  on_disk s'.
Proof.
  intros s t s'.
  assert (Hr : apply_tag t s = Ok tt s') by (vm_compute; reflexivity).
  split; [exact Hr|].
  exact (applied_tag_is_on_disk t s s' ltac:(discriminate) ltac:(discriminate)
           ltac:(discriminate) Hr).
Defined.


Lemma failed_open_drops_current_file_witness :
  let s := final_state Run.new_inline in
  let os := λ _ : string, open_fails in
  d_new_fp s = None ∧ is_Some (d_fp s) ∧
  ∃ s2, open os "next" s = Ok false (set_updated true s) ∧
        work 5 (replicate 20 x01) 0 [] [] (set_updated true s) = Ok 5 s2 ∧
        d_fp s2 = None.
Proof.
  intros s os.
  assert (H1 : d_new_fp s = None) by (vm_compute; reflexivity).
  assert (H2 : d_new_hdr_fp s = None) by (vm_compute; reflexivity).
  assert (H3 : is_Some (d_fp s)) by (vm_compute; eauto).
  split; [exact H1|]. split; [exact H3|].
  destruct (failed_open_drops_current_file s os "next" 5 (replicate 20 x01) 0
              [] [] (λ _, eq_refl) H1 H2) as (s2 & Ho & Hw & Hfp & _).
  exists s2. exact (conj Ho (conj Hw Hfp)).
Defined.

Lemma detached_files_account_for_every_item_witness :
  let calls := [(5, replicate 20 x01); (2, replicate 8 x02)] in
  ∃ s gs g,
    (works calls 0 >> close) (final_state Run.new_detached) = Ok tt s ∧
    d_hdr_fp s = Some (at_end (records_of (gs ++ [g]))) ∧
    d_fp s = Some (at_end (replicate 20 x01 ++ replicate 8 x02 ++ [])) ∧
    claimed_bytes (gs ++ [g])
    = d_itemsize (final_state Run.new_detached) * (5 + (2 + 0)).
Proof.
  intros calls.
  assert (H1 : str_size (pmt_serialize_str (d_header (final_state Run.new_detached)))
               = METADATA_HEADER_SIZE) by (vm_compute; reflexivity).
  assert (H2 : 0 < d_max_seg_size (final_state Run.new_detached))
    by (vm_compute; reflexivity).
  assert (H3 : METADATA_HEADER_SIZE + d_extra_size (final_state Run.new_detached)
               + d_itemsize (final_state Run.new_detached)
                 * d_max_seg_size (final_state Run.new_detached) < 2 ^ 63)
    by (vm_compute; reflexivity).
  assert (H4 : Forall (λ c : Z * list byte,
                         0 ≤ c.1 < 2 ^ 64 ∧
                         str_size c.2
                         = c.1 * d_itemsize (final_state Run.new_detached))
                      calls).
  { repeat constructor; vm_compute; (reflexivity || discriminate). }
  destruct (detached_files_account_for_every_item _ _ _ _ _ _ _ _ _ _ calls
              example_codec_fixed_width new_detached_Ok eq_refl H1 H2 H3 H4)
    as (s & gs & g & Hrun & Hhfp & Hfp & _ & _ & _ & _ & Hb).
  exists s, gs, g. exact (conj Hrun (conj Hhfp (conj Hfp Hb))).
Defined.


Lemma new_detached_layout :
  detached_layout [] [] (final_state Run.new_detached) ∧
  d_total_seg_size (final_state Run.new_detached) = 0 ∧
  d_updated (final_state Run.new_detached) = false.
Proof.
  apply (constructor_detached_layout _ _ _ _ _ _ _ _ _ _ new_detached_Ok eq_refl).
  - vm_compute. reflexivity.
  - vm_compute. reflexivity.
  - vm_compute. reflexivity.
Qed.

